(** * leap: the time-integration VM, its structural extractor and its Fortran
    back end

    A shallow embedding of three parts of [leap.vm]:

    - [NumpyInterpreter] ([leap/vm/exec_numpy.py]): the reference interpreter
      with its context dictionary, its [exec_*] handlers and the generators
      [run] and [run_single_step];
    - [StructuralExtractor] ([leap/vm/codegen/ir2structured_ir.py]): the
      reduction of a control-flow graph to a control tree;
    - [FortranCodeGenerator] ([leap/vm/codegen/fortran.py]): the statements
      emitted for reference-counted ODE components, with a small operational
      semantics of the emitted Fortran.

    Numbers ([numpy] floats and arrays) are integers here: the interpreter
    only compares times and moves values around. *)

From Stdlib Require Import ZArith Lia.
From stdpp Require Import gmap strings list fin_maps pretty.

#[local] Set Warnings "-clear-no-such-hyp,-register-all".

Local Open Scope string_scope.
Local Open Scope list_scope.
Local Open Scope nat_scope.

(** Closes a decidable goal about closed terms by evaluating its decision
    procedure. *)
Ltac by_evaluation :=
  match goal with
  | |- ?P =>
      let d := constr:(_ : Decision P) in
      apply (@bool_decide_unpack P d); vm_compute; exact I
  end.

(** ** Part I: the numpy interpreter *)

Module NumpyInterpreter.

(** Python exceptions that the modelled code can raise. *)
Inductive exn :=
| FailStepException
| KeyError (key : string)
| ValueError (message : string)
| AttributeError (attribute : string)
| UserError (error_condition error_message : string).

Inductive outcome (A : Type) :=
| Ok (a : A)
| Exc (e : exn).
Arguments Ok {A} a.
Arguments Exc {A} e.

(** Expression trees of [leap.vm.expression]: what [EvaluationMapper]
    evaluates against the context. A variable that the context does not hold
    is a [KeyError]. *)
Inductive expr :=
| Const (value : Z)
| Var (name : string)
| Sum (a b : expr)
| Product (a b : expr)
| Comparison (a b : expr).

Fixpoint eval_mapper (context : gmap string Z) (e : expr) : outcome Z :=
  match e with
  | Const value => Ok value
  | Var name =>
      match context !! name with
      | Some value => Ok value
      | None => Exc (KeyError name)
      end
  | Sum a b =>
      match eval_mapper context a, eval_mapper context b with
      | Ok x, Ok y => Ok (x + y)%Z
      | Exc e, _ => Exc e
      | _, Exc e => Exc e
      end
  | Product a b =>
      match eval_mapper context a, eval_mapper context b with
      | Ok x, Ok y => Ok (x * y)%Z
      | Exc e, _ => Exc e
      | _, Exc e => Exc e
      end
  | Comparison a b =>
      match eval_mapper context a, eval_mapper context b with
      | Ok x, Ok y => Ok (if (x <? y)%Z then 1 else 0)%Z
      | Exc e, _ => Exc e
      | _, Exc e => Exc e
      end
  end.

(** The instruction variants of [leap.vm.language]. *)
Inductive instruction_kind :=
| AssignExpression (assignee : string) (expression : expr)
| AssignSolved (assignee : string) (expression : expr)
    (solve_component solver_id : string) (guess : expr)
| If (condition : expr) (then_depends_on else_depends_on : list string)
| YieldState (expression : expr) (component_id : string) (time : expr)
    (time_id : string)
| FailStep
| Raise (error_condition error_message : string)
| StateTransition (target_state : string)
| Nop.

Record instruction := {
  id : string;
  depends_on : list string;
  kind : instruction_kind
}.

(** One entry of [code.states]. *)
Record state_descr := {
  state_depends_on : list string;
  state_next_state : string
}.

(** [TimeIntegratorCode]. *)
Record program := {
  instructions : list instruction;
  states : gmap string state_descr;
  initial_state : string
}.

(** The events [run] yields. *)
Inductive event :=
| StateComputed (t : Z) (time_id component_id : string) (state_component : Z)
| StepCompleted (t : Z) (current_state next_state : string)
| StepFailed (t : Z).

(** Modelled from the spec: the bookkeeping of [ExecutionController]
    ([leap.vm.language], section 4.1): the instruction ids that must be
    satisfied, and the ids already satisfied, in dispatch order. *)
Record controller := {
  required : list string;
  executed : list string
}.

(** The solver collaborator: [solve(expression, unknown, context, guess)]. *)
Definition solver := expr -> string -> gmap string Z -> Z -> Z.

(** The mutable fields of a [NumpyInterpreter] instance ([self]). *)
Record interp := {
  code : program;
  solvers : gmap string solver;
  context : gmap string Z;
  next_state : string;
  exec_controller : controller
}.

Definition with_context (self : interp) (c : gmap string Z) : interp :=
  {| code := code self; solvers := solvers self; context := c;
     next_state := next_state self; exec_controller := exec_controller self |}.

Definition with_next_state (self : interp) (s : string) : interp :=
  {| code := code self; solvers := solvers self; context := context self;
     next_state := s; exec_controller := exec_controller self |}.

Definition with_controller (self : interp) (c : controller) : interp :=
  {| code := code self; solvers := solvers self; context := context self;
     next_state := next_state self; exec_controller := c |}.

(** [__init__]. *)
Definition init (c : program) (solver_map : gmap string solver) : interp :=
  {| code := c; solvers := solver_map; context := ∅;
     next_state := initial_state c;
     exec_controller := {| required := []; executed := [] |} |}.

(** *** set_up *)

(** The loop of [set_up] over the items of the dictionary of state values. *)
Fixpoint set_up_items (items : list (string * Z)) (self : interp)
  : interp * option exn :=
  match items with
  | [] => (self, None)
  | (key, val) :: rest =>
      if String.prefix "<" key
      then (self, Some (ValueError "state variables may not start with '<'"))
      else set_up_items rest
             (with_context self (<["<state>" +:+ key := val]> (context self)))
  end.

Definition set_up (self : interp) (t_start dt_start : Z)
    (state_values : gmap string Z) : interp * option exn :=
  let self := with_context self (<["<t>" := t_start]> (context self)) in
  let self := with_context self (<["<dt>" := dt_start]> (context self)) in
  set_up_items (map_to_list state_values) self.

(** *** The exec_* handlers

    A handler returns [None], or a pair of an optional event and the
    instruction ids that become required. *)
Definition handler_result : Type := option (option event * list string).

Definition exec_AssignSolved (self : interp) (assignee : string)
    (expression : expr) (solve_component solver_id : string) (guess : expr)
  : outcome (interp * handler_result) :=
  match eval_mapper (context self) guess with
  | Exc e => Exc e
  | Ok guess =>
      match solvers self !! solver_id with
      | None => Exc (KeyError solver_id)
      | Some solve =>
          let result := solve expression solve_component (context self) guess in
          Ok (with_context self (<[assignee := result]> (context self)), None)
      end
  end.

Definition exec_YieldState (self : interp) (expression : expr)
    (component_id : string) (time : expr) (time_id : string)
  : outcome (interp * handler_result) :=
  match eval_mapper (context self) time with
  | Exc e => Exc e
  | Ok t =>
      match eval_mapper (context self) expression with
      | Exc e => Exc e
      | Ok state_component =>
          Ok (self,
              Some (Some (StateComputed t time_id component_id state_component),
                    []))
      end
  end.

Definition exec_AssignExpression (self : interp) (assignee : string)
    (expression : expr) : outcome (interp * handler_result) :=
  match eval_mapper (context self) expression with
  | Exc e => Exc e
  | Ok value => Ok (with_context self (<[assignee := value]> (context self)), None)
  end.

Definition exec_Raise (self : interp) (error_condition error_message : string)
  : outcome (interp * handler_result) :=
  Exc (UserError error_condition error_message).

Definition exec_FailStep (self : interp) : outcome (interp * handler_result) :=
  Exc FailStepException.

Definition exec_If (self : interp) (condition : expr)
    (then_depends_on else_depends_on : list string)
  : outcome (interp * handler_result) :=
  match eval_mapper (context self) condition with
  | Exc e => Exc e
  | Ok c =>
      if (c =? 0)%Z
      then Ok (self, Some (None, else_depends_on))
      else Ok (self, Some (None, then_depends_on))
  end.

Definition exec_Nop (self : interp) : outcome (interp * handler_result) :=
  Ok (self, None).

(** The names of the [exec_*] methods that [NumpyInterpreter] defines. *)
Definition handlers : list string :=
  ["exec_AssignSolved"; "exec_YieldState"; "exec_AssignExpression";
   "exec_Raise"; "exec_FailStep"; "exec_If"; "exec_Nop"].

(** [type(insn).__name__]. *)
Definition kind_name (k : instruction_kind) : string :=
  match k with
  | AssignExpression _ _ => "AssignExpression"
  | AssignSolved _ _ _ _ _ => "AssignSolved"
  | If _ _ _ => "If"
  | YieldState _ _ _ _ => "YieldState"
  | FailStep => "FailStep"
  | Raise _ _ => "Raise"
  | StateTransition _ => "StateTransition"
  | Nop => "Nop"
  end.

(** Modelled from the spec: the controller's dispatch by variant,
    [getattr(target, "exec_" + type(insn).__name__)(insn)]. A variant
    without a method of that name is an [AttributeError]. *)
Definition dispatch (self : interp) (insn : instruction)
  : outcome (interp * handler_result) :=
  if bool_decide ("exec_" +:+ kind_name (kind insn) ∈ handlers) then
    match kind insn with
    | AssignExpression assignee expression =>
        exec_AssignExpression self assignee expression
    | AssignSolved assignee expression solve_component solver_id guess =>
        exec_AssignSolved self assignee expression solve_component solver_id
          guess
    | If condition then_depends_on else_depends_on =>
        exec_If self condition then_depends_on else_depends_on
    | YieldState expression component_id time time_id =>
        exec_YieldState self expression component_id time time_id
    | FailStep => exec_FailStep self
    | Raise error_condition error_message =>
        exec_Raise self error_condition error_message
    | Nop => exec_Nop self
    | StateTransition _ =>
        Exc (AttributeError ("exec_" +:+ kind_name (kind insn)))
    end
  else Exc (AttributeError ("exec_" +:+ kind_name (kind insn))).

(** *** The execution controller *)

Definition deps_of (c : program) (i : string) : list string :=
  match find (fun insn => bool_decide (id insn = i)) (instructions c) with
  | Some insn => depends_on insn
  | None => []
  end.

(** The ids in [ids] with everything they depend on, directly or not. *)
Fixpoint with_dependencies (c : program) (fuel : nat) (ids : list string)
  : list string :=
  match fuel with
  | O => ids
  | S fuel => ids ++ with_dependencies c fuel (flat_map (deps_of c) ids)
  end.

(** Modelled from the spec: [ExecutionController.reset] clears the per-step
    bookkeeping. *)
Definition reset (ctl : controller) : controller :=
  {| required := []; executed := [] |}.

(** Modelled from the spec: [ExecutionController.update_plan] records the
    instruction ids that must be satisfied to complete the run. *)
Definition update_plan (c : program) (ids : list string) (ctl : controller)
  : controller :=
  {| required :=
       required ctl ++ with_dependencies c (length (instructions c)) ids;
     executed := executed ctl |}.

Definition is_ready (ctl : controller) (insn : instruction) : bool :=
  bool_decide (id insn ∈ required ctl)
  && bool_decide (id insn ∉ executed ctl)
  && forallb (fun d => bool_decide (d ∈ executed ctl)) (depends_on insn).

(** Modelled from the spec: among the still-required and not-yet-executed
    instructions, one whose dependency set is satisfied; the first in the
    insertion order of the program's instructions. *)
Definition select_ready (c : program) (ctl : controller) : option instruction :=
  find (is_ready ctl) (instructions c).

Definition mark_executed (i : string) (ctl : controller) : controller :=
  {| required := required ctl; executed := executed ctl ++ [i] |}.

(** What a generator did until it stopped: the events it yielded, in order,
    how it ended ([None]: exhausted; [Some e]: it raised [e]), and the
    interpreter afterwards. *)
Definition generated : Type := list event * option exn * interp.

(** Modelled from the spec: [ExecutionController.__call__(target)], the
    generator that selects, dispatches, records, yields the event of the
    instruction if it has one, and extends the plan by what the handler
    returns. An exception of a handler ends it. [fuel] bounds the number
    of dispatches. *)
Fixpoint controller_call (fuel : nat) (self : interp) : generated :=
  match fuel with
  | O => ([], None, self)
  | S fuel =>
      match select_ready (code self) (exec_controller self) with
      | None => ([], None, self)
      | Some insn =>
          match dispatch self insn with
          | Exc e => ([], Some e, self)
          | Ok (self, result) =>
              let self :=
                with_controller self
                  (mark_executed (id insn) (exec_controller self)) in
              match result with
              | None => controller_call fuel self
              | Some (evt, new_deps) =>
                  let self :=
                    with_controller self
                      (update_plan (code self) new_deps (exec_controller self)) in
                  let '(evts, how, self) := controller_call fuel self in
                  (match evt with Some e => [e] | None => [] end ++ evts,
                   how, self)
              end
          end
      end
  end.

(** *** run_single_step *)

(** The names the [finally] block of [run_single_step] deletes. *)
Definition is_transient (name : string) : bool :=
  negb (String.prefix "<state>" name)
  && negb (String.prefix "<p>" name)
  && negb (bool_decide (name ∈ ["<t>"; "<dt>"])).

(** The [finally] block: a loop over a copy of the keys. *)
Definition discard_transient (context : gmap string Z) : gmap string Z :=
  foldl (fun ctx name => if is_transient name then delete name ctx else ctx)
    context (map_to_list context).*1.

Definition finally_discard (self : interp) : interp :=
  with_context self (discard_transient (context self)).

Definition run_single_step (self : interp) : generated :=
  let self := with_controller self (reset (exec_controller self)) in
  match states (code self) !! next_state self with
  | None => ([], Some (KeyError (next_state self)), finally_discard self)
  | Some cur_state =>
      let self := with_next_state self (state_next_state cur_state) in
      let self :=
        with_controller self
          (update_plan (code self) (state_depends_on cur_state)
             (exec_controller self)) in
      let '(evts, how, self) :=
        controller_call (length (instructions (code self))) self in
      (evts, how, finally_discard self)
  end.

(** *** run *)

(** How far [run] got after a bounded number of loop iterations. *)
Inductive run_status :=
| Returned
| Raised (e : exn)
| Suspended.

(** [t_end is not None and self.context["<t>"] >= t_end]. *)
Definition reached_t_end (self : interp) (t_end : option Z) : outcome bool :=
  match t_end with
  | None => Ok false
  | Some t_end =>
      match context self !! "<t>" with
      | None => Exc (KeyError "<t>")
      | Some t => Ok (t_end <=? t)%Z
      end
  end.

(** [max_steps is not None and n_steps >= max_steps]. *)
Definition reached_max_steps (max_steps : option nat) (n_steps : nat) : bool :=
  match max_steps with
  | None => false
  | Some max_steps => (max_steps <=? n_steps)%nat
  end.

(** [run(t_end, max_steps)] with the local [n_steps]; [fuel] bounds the
    iterations of [while True] that are followed. The events of
    [run_single_step] are passed on in the order they are produced, also
    when the generator raises afterwards. *)
Fixpoint run_loop (fuel : nat) (t_end : option Z) (max_steps : option nat)
    (n_steps : nat) (self : interp) : list event * run_status * interp :=
  match fuel with
  | O => ([], Suspended, self)
  | S fuel =>
      match reached_t_end self t_end with
      | Exc e => ([], Raised e, self)
      | Ok true => ([], Returned, self)
      | Ok false =>
          if reached_max_steps max_steps n_steps
          then ([], Returned, self)
          else
            let cur_state := next_state self in
            let '(evts, how, self) := run_single_step self in
            match how with
            | Some FailStepException =>
                match context self !! "<t>" with
                | None => (evts, Raised (KeyError "<t>"), self)
                | Some t =>
                    let '(rest, status, self) :=
                      run_loop fuel t_end max_steps n_steps self in
                    (evts ++ StepFailed t :: rest, status, self)
                end
            | Some e => (evts, Raised e, self)
            | None =>
                match context self !! "<t>" with
                | None => (evts, Raised (KeyError "<t>"), self)
                | Some t =>
                    let '(rest, status, self') :=
                      run_loop fuel t_end max_steps (S n_steps) self in
                    (evts ++ StepCompleted t cur_state (next_state self) :: rest,
                     status, self')
                end
            end
      end
  end.

Definition run (fuel : nat) (t_end : option Z) (max_steps : option nat)
    (self : interp) : list event * run_status * interp :=
  run_loop fuel t_end max_steps 0 self.

Definition is_StateComputed (e : event) : bool :=
  match e with StateComputed _ _ _ _ => true | _ => false end.

Definition is_StepCompleted (e : event) : bool :=
  match e with StepCompleted _ _ _ => true | _ => false end.

Definition is_StepFailed (e : event) : bool :=
  match e with StepFailed _ => true | _ => false end.

(** The attempts of a run that completed, and those that were rejected. *)
Definition completed_steps (evts : list event) : nat :=
  length (filter (fun e => is_StepCompleted e = true) evts).

Definition failed_steps (evts : list event) : nat :=
  length (filter (fun e => is_StepFailed e = true) evts).

(** The instructions that the controller can still dispatch. *)
Definition pending (self : interp) : list instruction :=
  filter (fun insn => id insn ∉ executed (exec_controller self))
    (instructions (code self)).

(** *** Example programs *)

(** A step that advances the time, yields the state and is then rejected. *)
Definition rejecting_program : program :=
  {| instructions :=
       [ {| id := "advance"; depends_on := [];
            kind := AssignExpression "<t>" (Sum (Var "<t>") (Var "<dt>")) |};
         {| id := "yield"; depends_on := ["advance"];
            kind := YieldState (Var "<state>y") "y" (Var "<t>") "final" |};
         {| id := "reject"; depends_on := ["yield"]; kind := FailStep |} ];
     states :=
       {[ "primary" := {| state_depends_on := ["reject"];
                          state_next_state := "primary" |} ]};
     initial_state := "primary" |}.

(** A step that is rejected at once, and never changes the time. *)
Definition stuck_program : program :=
  {| instructions := [ {| id := "reject"; depends_on := []; kind := FailStep |} ];
     states :=
       {[ "primary" := {| state_depends_on := ["reject"];
                          state_next_state := "primary" |} ]};
     initial_state := "primary" |}.

(** [x = x + 1] on the state, then a yield of it; an [If] chooses a
    transient assignment. *)
Definition counting_program : program :=
  {| instructions :=
       [ {| id := "incr"; depends_on := [];
            kind := AssignExpression "<state>x" (Sum (Var "<state>x") (Const 1)) |};
         {| id := "tmp"; depends_on := ["incr"];
            kind := AssignExpression "scratch" (Product (Var "<state>x") (Const 2)) |};
         {| id := "time"; depends_on := ["tmp"];
            kind := AssignExpression "<t>" (Sum (Var "<t>") (Var "<dt>")) |};
         {| id := "yield"; depends_on := ["time"];
            kind := YieldState (Var "<state>x") "x" (Var "<t>") "final" |} ];
     states :=
       {[ "init" := {| state_depends_on := ["incr"];
                       state_next_state := "primary" |};
          "primary" := {| state_depends_on := ["yield"];
                          state_next_state := "primary" |} ]};
     initial_state := "init" |}.

Definition started (c : program) (t_start dt_start : Z)
    (state_values : gmap string Z) : interp :=
  (set_up (init c ∅) t_start dt_start state_values).1.

(** *** What a run reports *)

(** The name an instruction assigns, if it assigns one. *)
Definition assignee_of (k : instruction_kind) : option string :=
  match k with
  | AssignExpression assignee _ => Some assignee
  | AssignSolved assignee _ _ _ _ => Some assignee
  | _ => None
  end.

(** The state an interpreter that was in state [s] is in after the events
    [evts] according to the state table: a completed step and a rejected one
    both lead to the successor that the table gives the state. [None]: the
    events do not fit the table. *)
Fixpoint walk (c : program) (s : string) (evts : list event)
  : option string :=
  match evts with
  | [] => Some s
  | StateComputed _ _ _ _ :: evts => walk c s evts
  | StepCompleted _ current nxt :: evts =>
      cur_state ← states c !! s;
      if decide (current = s ∧ nxt = state_next_state cur_state)
      then walk c nxt evts
      else None
  | StepFailed _ :: evts =>
      cur_state ← states c !! s;
      walk c (state_next_state cur_state) evts
  end.

End NumpyInterpreter.

(** ** Part II: the structural extractor *)

Module StructuralExtractor.

(** *** The control-flow graph of [leap.vm.codegen.ir]

    A basic block is named by its index in the function. Only the last
    instruction of a block matters here: whether it is a [BranchInst], and
    where it goes. *)
Inductive inst :=
| BranchInst (on_true on_false : nat)
| OtherInst.

Record basic_block := {
  successors : gset nat;
  predecessors : gset nat;
  code : list inst
}.

(** A [Function]: its blocks (what iterating over it gives) and the order in
    which [postorder()] lists them. *)
Record function := {
  blocks : list basic_block;
  postorder : list nat
}.

(** *** Control nodes

    Nodes are objects that the extractor mutates in place; here they live in
    an arena and are named by their index in it. *)
Inductive shape :=
| SingleNode (block : nat)
| BlockNode (node_list : list nat)
| IfThenNode (if_node then_node : nat)
| IfThenElseNode (if_node then_node else_node : nat)
| UnstructuredIntervalNode (node_list : list nat).

Record control_node := {
  node_shape : shape;
  node_successors : gset nat;
  node_predecessors : gset nat;
  entry_block : nat;
  exit_block : nat;
  nodes : gset nat
}.

Abbreviation arena := (list control_node).

Definition no_node : control_node :=
  {| node_shape := UnstructuredIntervalNode []; node_successors := ∅;
     node_predecessors := ∅; entry_block := 0; exit_block := 0; nodes := ∅ |}.

Definition get (a : arena) (n : nat) : control_node :=
  default no_node (a !! n).

Definition set_successors (s : gset nat) (n : control_node) : control_node :=
  {| node_shape := node_shape n; node_successors := s;
     node_predecessors := node_predecessors n; entry_block := entry_block n;
     exit_block := exit_block n; nodes := nodes n |}.

Definition set_predecessors (p : gset nat) (n : control_node) : control_node :=
  {| node_shape := node_shape n; node_successors := node_successors n;
     node_predecessors := p; entry_block := entry_block n;
     exit_block := exit_block n; nodes := nodes n |}.

(** What a call did: it returned, it raised, or the bounded unfolding of one
    of its loops was used up. *)
Inductive error := KeyError | AssertionError | ValueError.

Inductive result (A : Type) :=
| Done (a : A)
| Failed (e : error)
| OutOfFuel.
Arguments Done {A} a.
Arguments Failed {A} e.
Arguments OutOfFuel {A}.

(** [pytools.one] on a set. *)
Definition one (s : gset nat) : option nat :=
  match elements s with
  | [x] => Some x
  | _ => None
  end.

(** *** The constructors of [structured_ir] *)

(** [SingleNode(block)]: no successors or predecessors yet. *)
Definition single_node (block : nat) (self : nat) : control_node :=
  {| node_shape := SingleNode block; node_successors := ∅;
     node_predecessors := ∅; entry_block := block; exit_block := block;
     nodes := {[ self ]} |}.

(** Modelled from the spec: the contraction of a match into a composite node
    (section 4.3), which [structured_ir] implements in the constructors of
    [BlockNode], [IfThenNode] and [IfThenElseNode]. The composite takes the
    predecessors and the entry block of the node control enters by, the
    successors and the exit block of the node control leaves by, and
    replaces its members in the successor sets of its predecessors and in
    the predecessor sets of its successors. *)
Definition contract (a : arena) (sh : shape) (members : gset nat)
    (entry_node exit_node : nat) : arena * nat :=
  let self := length a in
  let composite :=
    {| node_shape := sh;
       node_successors := node_successors (get a exit_node);
       node_predecessors := node_predecessors (get a entry_node);
       entry_block := entry_block (get a entry_node);
       exit_block := exit_block (get a exit_node);
       nodes := members |} in
  let a :=
    imap (fun i n =>
            if decide (i ∈ node_predecessors composite)
            then set_successors (node_successors n ∖ members ∪ {[ self ]}) n
            else n) a in
  let a :=
    imap (fun i n =>
            if decide (i ∈ node_successors composite)
            then set_predecessors (node_predecessors n ∖ members ∪ {[ self ]}) n
            else n) a in
  (a ++ [composite], self).

(** Modelled from the spec: [UnstructuredIntervalNode(nodes)] keeps the
    remaining nodes as a flat list. *)
Definition unstructured_interval (a : arena) (node_list : list nat)
  : arena * nat :=
  (a ++ [ {| node_shape := UnstructuredIntervalNode node_list;
             node_successors := ∅; node_predecessors := ∅;
             entry_block := entry_block (get a (default 0 (head node_list)));
             exit_block := exit_block (get a (default 0 (last node_list)));
             nodes := list_to_set node_list |} ],
   length a).

(** *** The detectors *)

(** The first [while] loop of [check_for_block_node]: the nodes reached by
    going back while the current node has one predecessor and that
    predecessor has one successor. [None]: the loop took more than [fuel]
    rounds. *)
Fixpoint follow_predecessors (fuel : nat) (a : arena) (current_node : nat)
  : option (list nat) :=
  match fuel with
  | O => None
  | S fuel =>
      match one (node_predecessors (get a current_node)) with
      | Some p =>
          if decide (size (node_successors (get a p)) = 1)
          then cons p <$> follow_predecessors fuel a p
          else Some []
      | None => Some []
      end
  end.

(** The second [while] loop of [check_for_block_node]. *)
Fixpoint follow_successors (fuel : nat) (a : arena) (current_node : nat)
  : option (list nat) :=
  match fuel with
  | O => None
  | S fuel =>
      match one (node_successors (get a current_node)) with
      | Some s =>
          if decide (size (node_predecessors (get a s)) = 1)
          then cons s <$> follow_successors fuel a s
          else Some []
      | None => Some []
      end
  end.

(** A detector returns the arena with the node it built, or [None]. *)
Definition detected : Type := result (option (arena * nat)).

Definition check_for_block_node (a : arena) (node : nat) : detected :=
  match follow_predecessors (S (length a)) a node with
  | None => OutOfFuel
  | Some predecessor_nodes =>
      match follow_successors (S (length a)) a node with
      | None => OutOfFuel
      | Some successor_nodes =>
          match predecessor_nodes, successor_nodes with
          | [], [] => Done None
          | _, _ =>
              let node_list :=
                reverse predecessor_nodes ++ [node] ++ successor_nodes in
              Done (Some (contract a (BlockNode node_list)
                            (list_to_set node_list)
                            (default node (head node_list))
                            (default node (last node_list))))
          end
      end
  end.

Definition check_for_if_then_node (a : arena) (node : nat) : detected :=
  match elements (node_successors (get a node)) with
  | [then_node; merge_node] =>
      let '(then_node, merge_node) :=
        if decide (then_node ∈ node_successors (get a merge_node))
        then (merge_node, then_node)
        else (then_node, merge_node) in
      if decide (size (node_successors (get a then_node)) ≠ 1
                 ∨ size (node_predecessors (get a then_node)) ≠ 1
                 ∨ merge_node ∉ node_successors (get a then_node)
                 ∨ node = then_node ∨ node = merge_node)
      then Done None
      else Done (Some (contract a (IfThenNode node then_node)
                         {[ node; then_node ]} node then_node))
  | _ => Done None
  end.

Definition check_for_if_then_else_node (a : arena) (f : function) (node : nat)
  : detected :=
  match elements (node_successors (get a node)) with
  | [then_node; else_node] =>
      match (blocks f !! exit_block (get a node)) ≫= (fun b => last (code b)) with
      | Some (BranchInst then_basic_block else_basic_block) =>
          let '(then_node, else_node) :=
            if decide (entry_block (get a else_node) = then_basic_block)
            then (else_node, then_node)
            else (then_node, else_node) in
          if decide (entry_block (get a then_node) = then_basic_block
                     ∧ entry_block (get a else_node) = else_basic_block)
          then
            if decide (size (node_predecessors (get a then_node)) ≠ 1
                       ∨ size (node_predecessors (get a else_node)) ≠ 1)
            then Done None
            else if decide (node_successors (get a then_node)
                            ≠ node_successors (get a else_node)
                            ∨ size (node_successors (get a then_node)) ≠ 1)
            then Done None
            else
              match one (node_successors (get a then_node)) with
              | Some merge_node =>
                  if decide (node = then_node ∨ node = else_node
                             ∨ node = merge_node ∨ then_node = merge_node
                             ∨ else_node = merge_node)
                  then Done None
                  else Done (Some (contract a
                                     (IfThenElseNode node then_node else_node)
                                     {[ node; then_node; else_node ]}
                                     node then_node))
              | None => Failed ValueError
              end
          else Failed AssertionError
      | _ => Failed AssertionError
      end
  | _ => Done None
  end.

(** *** The reduction loop of [__call__] *)

(** [struct_of]: a [DictionaryWithDefault] whose default is the key. *)
Definition struct_of_get (struct_of : gmap nat nat) (n : nat) : nat :=
  default n (struct_of !! n).

(** The three detectors, in the order [__call__] tries them. *)
Definition detect (a : arena) (f : function) (node : nat) : detected :=
  match check_for_block_node a node with
  | Done None =>
      match check_for_if_then_node a node with
      | Done None => check_for_if_then_else_node a f node
      | r => r
      end
  | r => r
  end.

(** The state of the [for] loop over the nodes: the arena, [struct_of] and
    [changed]. *)
Definition scan_state : Type := arena * gmap nat nat * bool.

Definition scan_node (f : function) (st : scan_state) (node : nat)
  : result scan_state :=
  let '(a, struct_of, changed) := st in
  if decide (struct_of_get struct_of node ≠ node) then Done st
  else
    match detect a f node with
    | Done None => Done st
    | Done (Some (a, built_node)) =>
        Done (a,
              set_fold (fun inner_node so => <[inner_node := built_node]> so)
                struct_of (nodes (get a built_node)),
              true)
    | Failed e => Failed e
    | OutOfFuel => OutOfFuel
    end.

Fixpoint scan (f : function) (st : scan_state) (node_list : list nat)
  : result scan_state :=
  match node_list with
  | [] => Done st
  | node :: node_list =>
      match scan_node f st node with
      | Done st => scan f st node_list
      | r => r
      end
  end.

(** The inner [while] loop of the rebuild: follow [struct_of] to a node that
    is its own structure. *)
Fixpoint outermost (fuel : nat) (struct_of : gmap nat nat) (outermost_node : nat)
  : option nat :=
  match fuel with
  | O => None
  | S fuel =>
      if decide (struct_of_get struct_of outermost_node ≠ outermost_node)
      then outermost fuel struct_of (struct_of_get struct_of outermost_node)
      else Some outermost_node
  end.

(** The second [for] loop: the new list of nodes. *)
Fixpoint rebuild (a : arena) (struct_of : gmap nat nat) (node_list : list nat)
  : option (list nat) :=
  match node_list with
  | [] => Some []
  | node :: node_list =>
      match outermost (S (length a)) struct_of (struct_of_get struct_of node) with
      | None => None
      | Some outermost_node =>
          let struct_of := <[node := outermost_node]> struct_of in
          new_nodes ← rebuild a struct_of node_list;
          Some (if decide (entry_block (get a outermost_node)
                           = entry_block (get a node))
                then outermost_node :: new_nodes
                else new_nodes)
      end
  end.

(** The [while len(nodes) > 1] loop. *)
Fixpoint reduce (fuel : nat) (f : function) (a : arena) (node_list : list nat)
  : result (arena * nat) :=
  match node_list with
  | [] => Failed ValueError
  | [node] => Done (a, node)
  | _ =>
      match fuel with
      | O => OutOfFuel
      | S fuel =>
          match scan f (a, ∅, false) node_list with
          | Done (a, struct_of, changed) =>
              if changed then
                match rebuild a struct_of node_list with
                | Some new_nodes => reduce fuel f a new_nodes
                | None => OutOfFuel
                end
              else Done (unstructured_interval a node_list)
          | Failed e => Failed e
          | OutOfFuel => OutOfFuel
          end
      end
  end.

(** The first lines of [__call__]: a [SingleNode] per block, wired as the
    blocks are. *)
Definition block_nodes (f : function) : result arena :=
  if decide (Forall (fun b =>
                        set_Forall (fun s => s < length (blocks f))
                          (successors b)
                        ∧ set_Forall (fun p => p < length (blocks f))
                            (predecessors b))
               (blocks f))
  then
    Done (imap (fun i b =>
                  set_predecessors (predecessors b)
                    (set_successors (successors b) (single_node i i)))
            (blocks f))
  else Failed KeyError.

Definition initial_nodes (f : function) : result (list nat) :=
  if decide (Forall (fun b => b < length (blocks f)) (postorder f))
  then Done (reverse (postorder f))
  else Failed KeyError.

(** [StructuralExtractor.__call__]: the arena and the root of the control
    tree in it. *)
Definition extract (fuel : nat) (f : function) : result (arena * nat) :=
  match block_nodes f with
  | Done a =>
      match initial_nodes f with
      | Done node_list => reduce fuel f a node_list
      | Failed e => Failed e
      | OutOfFuel => OutOfFuel
      end
  | Failed e => Failed e
  | OutOfFuel => OutOfFuel
  end.


Definition is_unstructured (sh : shape) : bool :=
  match sh with UnstructuredIntervalNode _ => true | _ => false end.


(** *** Reducible flow graphs

    The notion the specification appeals to ("any reducible CFG") is the
    textbook one of Hecht and Ullman: a flow graph is reducible when
    deleting self loops (T1) and merging a node that has a single
    predecessor into that predecessor (T2) collapse it to one node. *)
Definition edges (f : function) : list (nat * nat) :=
  flat_map (fun '(i, b) => (fun s => (i, s)) <$> elements (successors b))
    (imap (fun i b => (i, b)) (blocks f)).




(** *** Graphs without cycles

    The graphs the control-flow assembler builds from an instruction DAG
    have no cycle: every successor of a block comes after it in reverse
    postorder. *)
Definition position (l : list nat) (b : nat) : nat :=
  default (length l) (fst <$> list_find (fun x => x = b) l).

Definition rank (f : function) (b : nat) : nat :=
  position (reverse (postorder f)) b.

Definition topologically_ordered (f : function) : Prop :=
  Forall (fun e => rank f e.1 < rank f e.2) (edges f).

Definition block_at (f : function) (i : nat) : basic_block :=
  default {| successors := ∅; predecessors := ∅; code := [] |} (blocks f !! i).

(** The targets of the branch that ends a block. *)
Definition branch_targets (b : basic_block) : option (nat * nat) :=
  match last (code b) with
  | Some (BranchInst on_true on_false) => Some (on_true, on_false)
  | _ => None
  end.

(** Successors and predecessors are blocks of the function and agree;
    a block with two successors ends in the branch to them; and
    [postorder] lists every block once. *)
Definition consistent (f : function) : Prop :=
  Forall (fun i =>
            set_Forall (fun s => s < length (blocks f)
                                 ∧ i ∈ predecessors (block_at f s))
              (successors (block_at f i))
            ∧ set_Forall (fun p => p < length (blocks f)
                                   ∧ i ∈ successors (block_at f p))
                (predecessors (block_at f i))
            ∧ (size (successors (block_at f i)) = 2 →
               branch_targets (block_at f i)
               ≫= (fun te => Some ({[ te.1; te.2 ]} : gset nat))
               = Some (successors (block_at f i)))
            ∧ i ∈ postorder f)
    (seq 0 (length (blocks f)))
  ∧ NoDup (postorder f)
  ∧ Forall (fun i => i < length (blocks f)) (postorder f)
  ∧ length (postorder f) = length (blocks f).

(** *** The invariant of the reduction loop

    The control nodes that are not part of a larger node form a graph of
    their own: their successors and predecessors are among them and agree,
    they have entry blocks of their own, every edge goes forward in reverse
    postorder, and a node with two successors ends in the branch to their
    entry blocks. *)
Definition well_formed (f : function) (a : arena) (live : gset nat) : Prop :=
  length (postorder f) ≤ length a
  ∧ (∀ x, x ∈ live → x < length a)
  ∧ (∀ x y, x ∈ live → y ∈ node_successors (get a x) → y ∈ live)
  ∧ (∀ x y, x ∈ live → y ∈ node_predecessors (get a x) → y ∈ live)
  ∧ (∀ x y, x ∈ live → y ∈ live →
       (y ∈ node_successors (get a x) ↔ x ∈ node_predecessors (get a y)))
  ∧ (∀ x y, x ∈ live → y ∈ live →
       entry_block (get a x) = entry_block (get a y) → x = y)
  ∧ (∀ x y, x ∈ live → y ∈ node_successors (get a x) →
       rank f (entry_block (get a x)) < rank f (entry_block (get a y)))
  ∧ (∀ x, x ∈ live → size (node_successors (get a x)) = 2 →
       ∃ b y z,
         blocks f !! exit_block (get a x) = Some b
         ∧ last (code b)
           = Some (BranchInst (entry_block (get a y)) (entry_block (get a z)))
         ∧ node_successors (get a x) = {[ y; z ]}).

(** What the match of a detector must satisfy for its contraction to keep
    the invariant: control enters the members by [entry_node] only and
    leaves them to the successors of [exit_node] only. *)
Definition contractible (f : function) (a : arena) (live members : gset nat)
    (entry_node exit_node : nat) : Prop :=
  members ⊆ live ∧ entry_node ∈ members ∧ exit_node ∈ members
  ∧ (∀ p m, p ∈ live → p ∉ members → m ∈ members →
            m ∈ node_successors (get a p) → m = entry_node)
  ∧ (∀ m s, m ∈ members → s ∈ node_successors (get a m) → s ∉ members →
            s ∈ node_successors (get a exit_node))
  ∧ (∀ m, m ∈ members → m ∉ node_predecessors (get a entry_node))
  ∧ (∀ m, m ∈ members → m ∉ node_successors (get a exit_node))
  ∧ (∀ m, m ∈ members →
          rank f (entry_block (get a entry_node))
          ≤ rank f (entry_block (get a m))).


(** What the two loops of [check_for_block_node] follow: [v] is the only
    successor of [u] and [u] the only predecessor of [v]. *)
Definition linked (a : arena) (u v : nat) : Prop :=
  node_successors (get a u) = {[ v ]} ∧ node_predecessors (get a v) = {[ u ]}.

Fixpoint chain (a : arena) (l : list nat) : Prop :=
  match l with
  | [] => True
  | u :: l =>
      match l with [] => True | v :: _ => linked a u v end ∧ chain a l
  end.

(** No node of the arena is an [UnstructuredIntervalNode]. *)
Definition structured (a : arena) : Prop :=
  Forall (fun n => is_unstructured (node_shape n) = false) a.



(** The invariant of the [while] loop. *)
Definition loop_invariant (f : function) (a : arena) (node_list : list nat)
  : Prop :=
  well_formed f a (list_to_set node_list) ∧ structured a
  ∧ NoDup node_list ∧ node_list ≠ [].

(** *** Example graphs *)

Definition block (succs preds : list nat) (last_inst : inst) : basic_block :=
  {| successors := list_to_set succs; predecessors := list_to_set preds;
     code := [OtherInst; last_inst] |}.

(** [if c then A else B; C; D]. *)
Definition diamond : function :=
  {| blocks := [ block [1; 2] [] (BranchInst 1 2);
                 block [3] [0] OtherInst;
                 block [3] [0] OtherInst;
                 block [4] [1; 2] OtherInst;
                 block [] [3] OtherInst ];
     postorder := [4; 3; 1; 2; 0] |}.

(** [if c then A; B]. *)
Definition guarded : function :=
  {| blocks := [ block [1; 2] [] (BranchInst 1 2);
                 block [2] [0] OtherInst;
                 block [] [0; 1] OtherInst ];
     postorder := [2; 1; 0] |}.


(** Two loop headers that enter each other. *)
Definition two_headers : function :=
  {| blocks := [ block [1; 2] [] (BranchInst 1 2);
                 block [2] [0; 2] OtherInst;
                 block [1] [0; 1] OtherInst ];
     postorder := [2; 1; 0] |}.

(** Two blocks that jump to each other. *)
Definition ring : function :=
  {| blocks := [ block [1] [1] OtherInst; block [0] [0] OtherInst ];
     postorder := [1; 0] |}.

(** The arena [__call__] starts from. *)
Definition initial_arena (f : function) : arena :=
  match block_nodes f with
  | Done a => a
  | _ => []
  end.

End StructuralExtractor.

(** ** Part III: the Fortran code generator *)

Module FortranCodeGenerator.

(** *** What the generator is given *)

(** Right-hand sides ([pymbolic] expressions): a variable, a call of a
    registered function, or a sum. *)
Inductive expression :=
| Var (name : string)
| Call (function : string) (parameters : list expression)
| Sum (a b : expression).

(** [DependencyMapper()(expr)], with [include_calls] left at its default:
    the variables of the expression and its calls. A call is kept as it
    is, as one dependency; its arguments are not looked at. *)
Fixpoint dependencies (e : expression) : list expression :=
  match e with
  | Var name => [Var name]
  | Call function parameters => [Call function parameters]
  | Sum a b => dependencies a ++ dependencies b
  end.

(** [var(name) in deps]: one of the dependencies is the variable [name]. *)
Definition is_variable (name : string) (e : expression) : bool :=
  match e with
  | Var n => bool_decide (n = name)
  | _ => false
  end.

Definition var_in (name : string) (deps : list expression) : bool :=
  existsb (is_variable name) deps.

(** [FortranType]: the base type, and the extents of the dimensions. *)
Record FortranType := {
  base_type : string;
  dimension : list nat
}.

(** The symbol kinds of [leap.vm.codegen.data]. *)
Inductive symbol_kind :=
| Boolean
| Scalar (is_real_valued : bool)
| ODEComponent (component_id : string).

(** [FortranNameManager]: the maps from names of the intermediate code to
    Fortran identifiers are those of [KeyToUniqueNameMap]. *)
Record name_manager := {
  name_global : string -> string;
  name_local : string -> string;
  is_state_variable : string -> bool;
  make_unique_fortran_name : string -> string
}.

(** [FortranNameManager.__getitem__]. *)
Definition fortran_name (nm : name_manager) (name : string) : string :=
  if is_state_variable nm name
  then "leap_state%" +:+ name_global nm name
  else name_local nm name.

(** [FortranNameManager.name_refcount]. *)
Definition name_refcount (nm : name_manager) (name : string) : string :=
  if is_state_variable nm name
  then "leap_state%leap_refcnt_" +:+ name_global nm name
  else "leap_refcnt_" +:+ name_local nm name.

(** The fields of a [FortranCodeGenerator] that the emitters read. *)
Record generator := {
  ode_component_type_map : gmap string FortranType;
  names : name_manager;
  sym_kind_table : string -> string -> symbol_kind;
  current_function : string
}.

(** *** The emitted code

    The emitters write lines of Fortran. The lines are kept here as
    statements, so that they can be run; [render] gives the text. *)
Inductive condition :=
| Associated (name : string)
| NotAssociated (name : string)
| RefcntEq1 (refcnt : string)
| RefcntNe1 (refcnt : string)
| IerrNe0.

Inductive stmt :=
| AllocateArray (name : string) (extents : list nat)
| AllocateRefcnt (refcnt : string)
| Deallocate (name : string)
| Nullify (name : string)
| PointTo (name target : string)
| Decrement (refcnt : string)
| Increment (refcnt : string)
| SetOne (refcnt : string)
| Assign (name : string) (rhs : expression)
| Write (message : string)
| Stop
| Blank
| If (c : condition) (then_branch else_branch : list stmt).

Inductive declaration :=
| RefcntDecl (name : string)
| PointerDecl (type_name : string) (rank : nat) (name : string).

Definition render_condition (c : condition) : string :=
  match c with
  | Associated name => "associated(" +:+ name +:+ ")"
  | NotAssociated name => ".not.associated(" +:+ name +:+ ")"
  | RefcntEq1 refcnt => refcnt +:+ ".eq.1"
  | RefcntNe1 refcnt => refcnt +:+ ".ne.1"
  | IerrNe0 => "leap_ierr.ne.0"
  end.

(** [self.expr(expr)], with the names already those of Fortran. *)
Fixpoint render_expression (e : expression) : string :=
  match e with
  | Var name => name
  | Call function parameters =>
      function +:+ "("
      +:+ String.concat ", " (render_expression <$> parameters) +:+ ")"
  | Sum a b => render_expression a +:+ " + " +:+ render_expression b
  end.

Definition render_extents (extents : list nat) : string :=
  match extents with
  | [] => ""
  | _ => "(" +:+ String.concat ", " (pretty <$> extents) +:+ ")"
  end.

Fixpoint render_stmt (indent : string) (s : stmt) : list string :=
  match s with
  | AllocateArray name extents =>
      [indent +:+ "allocate(" +:+ name +:+ render_extents extents
       +:+ ", stat=leap_ierr)"]
  | AllocateRefcnt refcnt =>
      [indent +:+ "allocate(" +:+ refcnt +:+ ", stat=leap_ierr)"]
  | Deallocate name => [indent +:+ "deallocate(" +:+ name +:+ ")"]
  | Nullify name => [indent +:+ "nullify(" +:+ name +:+ ")"]
  | PointTo name target => [indent +:+ name +:+ " => " +:+ target]
  | Decrement refcnt => [indent +:+ refcnt +:+ " = " +:+ refcnt +:+ " - 1"]
  | Increment refcnt => [indent +:+ refcnt +:+ " = " +:+ refcnt +:+ " + 1"]
  | SetOne refcnt => [indent +:+ refcnt +:+ " = 1"]
  | Assign name rhs => [indent +:+ name +:+ " = " +:+ render_expression rhs]
  | Write message => [indent +:+ "write(*,*) '" +:+ message +:+ "'"]
  | Stop => [indent +:+ "stop"]
  | Blank => [""]
  | If c then_branch else_branch =>
      [indent +:+ "if (" +:+ render_condition c +:+ ") then"]
      ++ flat_map (render_stmt ("    " +:+ indent)) then_branch
      ++ match else_branch with
         | [] => []
         | _ => [indent +:+ "else"]
                ++ flat_map (render_stmt ("    " +:+ indent)) else_branch
         end
      ++ [indent +:+ "end if"; ""]
  end.

Definition render (code : list stmt) : list string :=
  flat_map (render_stmt "") code.

(** *** The emitters for reference-counted ODE components *)

Definition emit_variable_deinit (self : generator) (name : string)
    (sym_kind : symbol_kind) : list stmt :=
  let fortran_name := fortran_name (names self) name in
  let refcnt_name := name_refcount (names self) name in
  match sym_kind with
  | ODEComponent _ =>
      [ If (Associated fortran_name)
          [ If (RefcntEq1 refcnt_name)
              [ Deallocate fortran_name;
                Deallocate refcnt_name;
                Nullify fortran_name ]
              [ Decrement refcnt_name ] ]
          [] ]
  | _ => []
  end.

Definition emit_allocate_refcount (self : generator) (sym : string)
  : list stmt :=
  let refcnt_name := name_refcount (names self) sym in
  [ AllocateRefcnt refcnt_name;
    If IerrNe0
      [ Write ("failed to allocate " +:+ refcnt_name); Stop ] [];
    SetOne refcnt_name ].

(** [None]: the component has no entry in [ode_component_type_map]
    (a [KeyError]). *)
Definition emit_allocation (self : generator) (fortran_name : string)
    (component_id : string) : option (list stmt) :=
  comp_type ← ode_component_type_map self !! component_id;
  Some [ AllocateArray fortran_name (dimension comp_type);
         If IerrNe0
           [ Write ("failed to allocate " +:+ fortran_name); Stop ] [] ].

Definition emit_refcounted_allocation (self : generator) (sym : string)
    (sym_kind : symbol_kind) : option (list stmt) :=
  match sym_kind with
  | ODEComponent component_id =>
      allocation ←
        emit_allocation self (fortran_name (names self) sym) component_id;
      Some (allocation ++ emit_allocate_refcount self sym)
  | _ => Some []
  end.

Definition emit_allocation_check (self : generator) (sym : string)
    (sym_kind : symbol_kind) : option (list stmt) :=
  let fortran_name := fortran_name (names self) sym in
  let refcnt_name := name_refcount (names self) sym in
  allocation ← emit_refcounted_allocation self sym sym_kind;
  Some [ If (NotAssociated fortran_name)
           allocation
           [ If (RefcntNe1 refcnt_name)
               ([ Decrement refcnt_name; Blank ] ++ allocation)
               [] ] ].

Definition emit_ode_component_move (self : generator) (assignee_sym : string)
    (assignee_fortran_name : string) (sym_kind : symbol_kind)
    (expr_name : string) : list stmt :=
  emit_variable_deinit self assignee_sym sym_kind
  ++ [ PointTo assignee_fortran_name (fortran_name (names self) expr_name);
       PointTo (name_refcount (names self) assignee_sym)
         (name_refcount (names self) expr_name);
       Increment (name_refcount (names self) assignee_sym);
       Blank ].

(** [self.expr]: the names of the expression become Fortran names. A call
    is lowered through the call code of the function; it writes its result
    into the assignee like an assignment. *)
Fixpoint expr (self : generator) (e : expression) : expression :=
  match e with
  | Var name => Var (fortran_name (names self) name)
  | Call function parameters => Call function (expr self <$> parameters)
  | Sum a b => Sum (expr self a) (expr self b)
  end.

Definition emit_assign_expr_inner (self : generator)
    (assignee_fortran_name : string) (e : expression) : list stmt :=
  [ Assign assignee_fortran_name (expr self e); Blank ].

(** [emit_variable_decl] for a variable that is not an argument. *)
Definition emit_variable_decl (self : generator) (fortran_name : string)
    (component_id : string) : option (list declaration) :=
  comp_type ← ode_component_type_map self !! component_id;
  Some [ RefcntDecl fortran_name;
         PointerDecl (base_type comp_type) (length (dimension comp_type))
           fortran_name ].

(** [emit_assign_expr]: the declarations it adds, and the code. *)
Definition emit_assign_expr (self : generator) (assignee_sym : string)
    (e : expression) : option (list declaration * list stmt) :=
  let assignee_fortran_name := fortran_name (names self) assignee_sym in
  let sym_kind := sym_kind_table self (current_function self) assignee_sym in
  match sym_kind with
  | ODEComponent component_id =>
      match e with
      | Var expr_name =>
          Some ([],
                emit_ode_component_move self assignee_sym
                  assignee_fortran_name sym_kind expr_name)
      | _ =>
          if negb (var_in assignee_sym (dependencies e)) then
            check ← emit_allocation_check self assignee_sym sym_kind;
            Some ([],
                  check ++ emit_assign_expr_inner self assignee_fortran_name e)
          else
            let refcnt_name := name_refcount (names self) assignee_sym in
            let temp_assignee_name :=
              make_unique_fortran_name (names self) ("tmp_" +:+ assignee_sym) in
            decl ← emit_variable_decl self temp_assignee_name component_id;
            allocation ← emit_allocation self temp_assignee_name component_id;
            Some (decl,
                  allocation
                  ++ emit_assign_expr_inner self temp_assignee_name e
                  ++ [ If (RefcntEq1 refcnt_name)
                         [ Deallocate assignee_fortran_name;
                           PointTo assignee_fortran_name temp_assignee_name ]
                         ([ Decrement refcnt_name;
                            PointTo assignee_fortran_name temp_assignee_name ]
                          ++ emit_allocate_refcount self assignee_sym) ])
      end
  | _ => Some ([], emit_assign_expr_inner self assignee_fortran_name e)
  end.

(** *** Running the emitted code

    Pointer variables are associated with a target or not; targets are
    arrays of numbers and reference counts, allocated and deallocated one by
    one. An array assignment stores its elements in order, each computed
    from the memory as it is then. *)
Inductive cell :=
| Array (values : list Z)
| Counter (value : Z).

Record memory := {
  pointers : gmap string nat;
  heap : gmap nat cell;
  next_location : nat;
  freed : list nat;
  leap_ierr : Z
}.

Definition with_pointers (m : memory) (p : gmap string nat) : memory :=
  {| pointers := p; heap := heap m; next_location := next_location m;
     freed := freed m; leap_ierr := leap_ierr m |}.

Definition with_heap (m : memory) (h : gmap nat cell) : memory :=
  {| pointers := pointers m; heap := h; next_location := next_location m;
     freed := freed m; leap_ierr := leap_ierr m |}.

(** The registered functions: the array a call returns for given arrays. *)
Definition function_registry : Type := string -> list (list Z) -> list Z.

Fixpoint eval (fn : function_registry) (m : memory) (e : expression)
  : option (list Z) :=
  match e with
  | Var name =>
      l ← pointers m !! name;
      match heap m !! l with
      | Some (Array values) => Some values
      | _ => None
      end
  | Call function parameters =>
      arguments ← mapM (eval fn m) parameters;
      Some (fn function arguments)
  | Sum a b =>
      x ← eval fn m a;
      y ← eval fn m b;
      Some (zip_with Z.add x y)
  end.

(** The elements [i], [i + 1], ... of the target, [count] of them. *)
Fixpoint assign_elements (fn : function_registry) (rhs : expression)
    (target : nat) (i count : nat) (m : memory) : option memory :=
  match count with
  | O => Some m
  | S count =>
      values ← eval fn m rhs;
      v ← values !! i;
      match heap m !! target with
      | Some (Array old) =>
          assign_elements fn rhs target (S i) count
            (with_heap m (<[target := Array (<[i := v]> old)]> (heap m)))
      | _ => None
      end
  end.

Definition allocate (name : string) (c : cell) (m : memory) : memory :=
  {| pointers := <[name := next_location m]> (pointers m);
     heap := <[next_location m := c]> (heap m);
     next_location := S (next_location m);
     freed := freed m;
     leap_ierr := 0 |}.

Definition update_counter (refcnt : string) (f : Z -> Z) (m : memory)
  : option memory :=
  l ← pointers m !! refcnt;
  match heap m !! l with
  | Some (Counter value) => Some (with_heap m (<[l := Counter (f value)]> (heap m)))
  | _ => None
  end.

Definition test (c : condition) (m : memory) : option bool :=
  match c with
  | Associated name => Some (bool_decide (is_Some (pointers m !! name)))
  | NotAssociated name => Some (bool_decide (pointers m !! name = None))
  | RefcntEq1 refcnt =>
      l ← pointers m !! refcnt;
      match heap m !! l with
      | Some (Counter value) => Some (bool_decide (value = 1%Z))
      | _ => None
      end
  | RefcntNe1 refcnt =>
      l ← pointers m !! refcnt;
      match heap m !! l with
      | Some (Counter value) => Some (bool_decide (value ≠ 1%Z))
      | _ => None
      end
  | IerrNe0 => Some (bool_decide (leap_ierr m ≠ 0%Z))
  end.

(** [None]: the program stopped, or did what Fortran leaves undefined (it
    went through a pointer that has no target). *)
Fixpoint exec_stmt (fn : function_registry) (s : stmt) (m : memory)
  : option memory :=
  match s with
  | AllocateArray name extents =>
      Some (allocate name (Array (replicate (foldr Nat.mul 1 extents) 0%Z)) m)
  | AllocateRefcnt refcnt => Some (allocate refcnt (Counter 0) m)
  | Deallocate name =>
      l ← pointers m !! name;
      _ ← heap m !! l;
      Some {| pointers := delete name (pointers m);
              heap := delete l (heap m);
              next_location := next_location m;
              freed := freed m ++ [l];
              leap_ierr := leap_ierr m |}
  | Nullify name => Some (with_pointers m (delete name (pointers m)))
  | PointTo name target =>
      Some (with_pointers m
              (match pointers m !! target with
               | Some l => <[name := l]> (pointers m)
               | None => delete name (pointers m)
               end))
  | Decrement refcnt => update_counter refcnt (fun v : Z => v - 1)%Z m
  | Increment refcnt => update_counter refcnt (fun v : Z => v + 1)%Z m
  | SetOne refcnt => update_counter refcnt (fun _ => 1%Z) m
  | Assign name rhs =>
      l ← pointers m !! name;
      match heap m !! l with
      | Some (Array old) => assign_elements fn rhs l 0 (length old) m
      | _ => None
      end
  | Write _ => Some m
  | Stop => None
  | Blank => Some m
  | If c then_branch else_branch =>
      match test c m with
      | Some b =>
          (fix exec_block (code : list stmt) (m : memory) : option memory :=
             match code with
             | [] => Some m
             | s :: code =>
                 match exec_stmt fn s m with
                 | Some m => exec_block code m
                 | None => None
                 end
             end) (if b : bool then then_branch else else_branch) m
      | None => None
      end
  end.

Fixpoint exec (fn : function_registry) (code : list stmt) (m : memory)
  : option memory :=
  match code with
  | [] => Some m
  | s :: code =>
      match exec_stmt fn s m with
      | Some m => exec fn code m
      | None => None
      end
  end.

(** *** The reference-counting discipline *)

(** The variables among [vars] whose array pointer is associated with the
    array at [l]. *)
Definition aliases (nm : name_manager) (vars : list string) (m : memory)
    (l : nat) : list string :=
  filter (fun v => pointers m !! fortran_name nm v = Some l) vars.

(** Every array that a variable of [vars] points to is allocated and comes
    with a reference count that holds the number of variables pointing to
    the array; variables share the count exactly when they share the
    array. *)
Definition counted (nm : name_manager) (vars : list string) (m : memory)
  : Prop :=
  (∀ v l, v ∈ vars → pointers m !! fortran_name nm v = Some l →
     (∃ values, heap m !! l = Some (Array values))
     ∧ ∃ r, pointers m !! name_refcount nm v = Some r
            ∧ heap m !! r
              = Some (Counter (Z.of_nat (length (aliases nm vars m l)))))
  ∧ (∀ v w l l' r r', v ∈ vars → w ∈ vars →
       pointers m !! fortran_name nm v = Some l →
       pointers m !! fortran_name nm w = Some l' →
       pointers m !! name_refcount nm v = Some r →
       pointers m !! name_refcount nm w = Some r' →
       (l = l' ↔ r = r')).

(** The Fortran names of the variables and of their reference counts are
    all different. *)
Definition hygienic (nm : name_manager) (vars : list string) : Prop :=
  NoDup ((fortran_name nm <$> vars) ++ (name_refcount nm <$> vars)).

(** The Fortran variables an emitted right-hand side reads. *)
Fixpoint reads (e : expression) : gset string :=
  match e with
  | Var name => {[ name ]}
  | Call function parameters => ⋃ (reads <$> parameters)
  | Sum a b => reads a ∪ reads b
  end.

(** No pointer is associated with a location that is yet to be allocated. *)
Definition allocated_below (m : memory) : Prop :=
  ∀ name l, pointers m !! name = Some l → l < next_location m.

(** The code that deinitialises the variables of [vars] one after the
    other, as [emit_return] and [emit_shutdown] do for the symbols of a
    table. *)
Definition deinit_all (self : generator) (component_id : string)
    (vars : list string) : list stmt :=
  flat_map (fun v => emit_variable_deinit self v (ODEComponent component_id))
    vars.

(** *** __call__

    The passes [__call__] runs before and after its check of the component
    types belong to other modules ([analysis], [dag2ir], [optimization],
    [data]) and to the emitters of the whole module; they are taken as
    given. [None] stands for an exception raised by the pass. *)
Record passes (descriptor table : Type) := {
  verify_code : NumpyInterpreter.program -> option unit;
  describe_function :
    NumpyInterpreter.program -> string -> NumpyInterpreter.state_descr ->
    bool -> option descriptor;
  find_symbol_kinds : list descriptor -> option table;
  collect_ode_component_names_from_dag : NumpyInterpreter.program -> gset string;
  set_return_kinds : table -> list string -> table;
  begin_emit : table -> NumpyInterpreter.program -> list string -> list string;
  lower_function : table -> descriptor -> list string -> list string;
  finish_emit : table -> NumpyInterpreter.program -> list string -> list string
}.
Arguments verify_code {descriptor table} p.
Arguments describe_function {descriptor table} p.
Arguments find_symbol_kinds {descriptor table} p.
Arguments collect_ode_component_names_from_dag {descriptor table} p.
Arguments set_return_kinds {descriptor table} p.
Arguments begin_emit {descriptor table} p.
Arguments lower_function {descriptor table} p.
Arguments finish_emit {descriptor table} p.

Inductive call_result :=
| Code (lines : list string)
| RuntimeError (undeclared : gset string)
| Raised.

(** The loop over [dag.states] that produces the function descriptors. *)
Fixpoint describe_functions {descriptor table : Type}
    (p : passes descriptor table) (dag : NumpyInterpreter.program)
    (optimize : bool) (items : list (string * NumpyInterpreter.state_descr))
  : option (list descriptor) :=
  match items with
  | [] => Some []
  | (state_name, state) :: items =>
      fdescr ← describe_function p dag state_name state optimize;
      fdescrs ← describe_functions p dag optimize items;
      Some (fdescr :: fdescrs)
  end.

(** [FortranCodeGenerator.__call__]: what it returns or raises, and the
    lines the module emitter holds afterwards; [emitted] are the lines it
    holds before ([__init__] has put the [module] line there). *)
Definition call {descriptor table : Type} (p : passes descriptor table)
    (type_map : gmap string FortranType) (emitted : list string)
    (dag : NumpyInterpreter.program) (optimize : bool)
  : call_result * list string :=
  match verify_code p dag with
  | None => (Raised, emitted)
  | Some _ =>
      match
        describe_functions p dag optimize
          (map_to_list (NumpyInterpreter.states dag))
      with
      | None => (Raised, emitted)
      | Some fdescrs =>
          match find_symbol_kinds p fdescrs with
          | None => (Raised, emitted)
          | Some sym_kind_table =>
              let component_ids := collect_ode_component_names_from_dag p dag in
              if decide (component_ids ⊆ dom type_map) then
                let sym_kind_table :=
                  set_return_kinds p sym_kind_table (elements component_ids) in
                let emitted := begin_emit p sym_kind_table dag emitted in
                let emitted :=
                  foldl (fun lines fdescr =>
                           lower_function p sym_kind_table fdescr lines)
                    emitted fdescrs in
                let emitted := finish_emit p sym_kind_table dag emitted in
                (Code emitted, emitted)
              else (RuntimeError (component_ids ∖ dom type_map), emitted)
          end
      end
  end.

(** *** Examples *)

(** Names as they are, with a prefix; no state variables. *)
Definition plain_names : name_manager :=
  {| name_global := fun name => name;
     name_local := fun name => name;
     is_state_variable := fun _ => false;
     make_unique_fortran_name := fun prefix => prefix |}.

Definition example_generator : generator :=
  {| ode_component_type_map := {[ "y" := {| base_type := "real (kind=8)";
                                           dimension := [3] |} ]};
     names := plain_names;
     sym_kind_table := fun _ _ => ODEComponent "y";
     current_function := "primary" |}.

(** Element [i] of the result of ["reverse"] is element [n - 1 - i] of its
    argument. *)
Definition example_functions : function_registry :=
  fun function arguments =>
    match arguments with
    | [x] => reverse x
    | _ => []
    end.

(** [a] owns an array alone; [b] and [c] share another. *)
Definition example_memory : memory :=
  {| pointers := {[ "a" := 0; "leap_refcnt_a" := 1;
                    "b" := 2; "leap_refcnt_b" := 3;
                    "c" := 2; "leap_refcnt_c" := 3 ]};
     heap := {[ 0 := Array [1; 2; 3]%Z; 1 := Counter 1;
                2 := Array [4; 5; 6]%Z; 3 := Counter 2 ]};
     next_location := 4;
     freed := [];
     leap_ierr := 0 |}.

(** [a], [b] and [c] share one array. *)
Definition shared_memory : memory :=
  {| pointers := {[ "a" := 0; "leap_refcnt_a" := 1;
                    "b" := 0; "leap_refcnt_b" := 1;
                    "c" := 0; "leap_refcnt_c" := 1 ]};
     heap := {[ 0 := Array [1; 2; 3]%Z; 1 := Counter 3 ]};
     next_location := 2;
     freed := [];
     leap_ierr := 0 |}.

(** Passes that accept everything and emit one line per function. *)
Definition example_passes : passes string unit :=
  {| verify_code := fun _ => Some ();
     describe_function := fun _ state_name _ _ => Some state_name;
     find_symbol_kinds := fun _ => Some ();
     collect_ode_component_names_from_dag := fun _ => {[ "y"; "z" ]};
     set_return_kinds := fun table _ => table;
     begin_emit := fun _ _ lines => lines ++ ["contains"];
     lower_function :=
       fun _ name lines => lines ++ ["subroutine leap_state_func_" +:+ name];
     finish_emit := fun _ _ lines => lines ++ ["end module"] |}.

End FortranCodeGenerator.

(** ** Facts about the numpy interpreter *)

Section NumpyInterpreterFacts.
Import NumpyInterpreter.

(** *** The [finally] block of [run_single_step] *)

Lemma discard_loop_lookup (names : list string) (ctx : gmap string Z)
    (name : string) :
  foldl (fun ctx name => if is_transient name then delete name ctx else ctx)
    ctx names !! name
  = if is_transient name && bool_decide (name ∈ names) then None
    else ctx !! name.
Proof.
  revert ctx. induction names as [|n names IH]; intros ctx; simpl.
  - by rewrite andb_false_r.
  - rewrite IH. destruct (decide (name = n)) as [->|Hne].
    + destruct (is_transient n) eqn:Ht; simpl; [|done].
      rewrite lookup_delete_eq.
      rewrite (bool_decide_eq_true_2 (n ∈ n :: names)) by set_solver.
      by destruct (bool_decide _).
    + rewrite (bool_decide_ext (name ∈ n :: names) (name ∈ names))
        by set_solver.
      destruct (is_transient name && bool_decide (name ∈ names)); [done|].
      destruct (is_transient n); [by rewrite lookup_delete_ne|done].
Qed.

Lemma discard_transient_lookup (ctx : gmap string Z) (name : string) :
  discard_transient ctx !! name
  = if is_transient name then None else ctx !! name.
Proof.
  unfold discard_transient. rewrite discard_loop_lookup.
  destruct (is_transient name); simpl; [|done].
  case_bool_decide as Hin; [done|].
  destruct (ctx !! name) as [v|] eqn:Hv; [|done].
  exfalso. apply Hin. apply list_elem_of_fmap. exists (name, v).
  split; [done|]. by apply elem_of_map_to_list.
Qed.

Lemma is_transient_false (name : string) :
  is_transient name = false
  ↔ String.prefix "<state>" name = true ∨ String.prefix "<p>" name = true
    ∨ name = "<t>" ∨ name = "<dt>".
Proof.
  unfold is_transient.
  destruct (String.prefix "<state>" name), (String.prefix "<p>" name); simpl;
    try (split; [auto | done]).
  case_bool_decide as Hin; simpl.
  - split; [|done]. intros _. set_solver.
  - split; [done|]. intros [?|[?|?]]; [done|done|]. exfalso. set_solver.
Qed.

(** *** Dispatch *)

Lemma has_handler (k : instruction_kind) :
  bool_decide ("exec_" +:+ kind_name k ∈ handlers)
  = match k with StateTransition _ => false | _ => true end.
Proof. destruct k; reflexivity. Qed.

Ltac dispatch_cases :=
  unfold dispatch; rewrite has_handler;
  match goal with |- context [kind ?insn] => destruct (kind insn) eqn:? end;
  simpl;
  unfold exec_AssignExpression, exec_AssignSolved, exec_If, exec_YieldState,
    exec_FailStep, exec_Raise, exec_Nop;
  repeat match goal with
    | |- context [eval_mapper ?c ?e] =>
        let H := fresh "Heval" in destruct (eval_mapper c e) eqn:H
    | |- context [solvers ?s !! ?k] => destruct (solvers s !! k)
    | |- context [(?c =? 0)%Z] => destruct (c =? 0)%Z
    end.

Lemma dispatch_next_state (self self' : interp) (insn : instruction)
    (r : handler_result) :
  dispatch self insn = Ok (self', r) →
  next_state self' = next_state self ∧ code self' = code self.
Proof. dispatch_cases; intros; by simplify_eq. Qed.

Lemma dispatch_event (self self' : interp) (insn : instruction)
    (evt : event) (deps : list string) :
  dispatch self insn = Ok (self', Some (Some evt, deps)) →
  is_StateComputed evt = true.
Proof. dispatch_cases; intros; by simplify_eq. Qed.

Lemma dispatch_fail_step (self : interp) (insn : instruction) :
  kind insn = FailStep → dispatch self insn = Exc FailStepException.
Proof. intros Hk. unfold dispatch. by rewrite Hk. Qed.

(** *** The controller *)

Lemma controller_call_invariant (fuel : nat) (self : interp) :
  let '(evts, how, self') := controller_call fuel self in
  next_state self' = next_state self ∧ code self' = code self
  ∧ Forall (fun e => is_StateComputed e = true) evts.
Proof.
  revert self. induction fuel as [|fuel IH]; intros self; simpl; [done|].
  destruct (select_ready _ _) as [insn|]; [|done].
  destruct (dispatch self insn) as [[self1 r]|e] eqn:Hd; [|done].
  apply dispatch_next_state in Hd as Hns. destruct Hns as [Hns Hcode].
  destruct r as [[evt deps]|].
  - match goal with |- context [controller_call fuel ?s] =>
      specialize (IH s); destruct (controller_call fuel s) as [[evts how] self2]
    end.
    simpl in IH. destruct IH as (-> & -> & Hev). repeat split; [done..|].
    destruct evt as [evt|]; simpl; [|done].
    constructor; [|done]. eapply dispatch_event; eauto.
  - match goal with |- context [controller_call fuel ?s] =>
      specialize (IH s); destruct (controller_call fuel s) as [[evts how] self2]
    end.
    simpl in IH. by destruct IH as (-> & -> & Hev).
Qed.

Lemma select_ready_pending (c : program) (ctl : controller)
    (insn : instruction) :
  select_ready c ctl = Some insn →
  insn ∈ instructions c ∧ id insn ∉ executed ctl.
Proof.
  unfold select_ready. intros Hf. apply find_some in Hf as [Hin Hr].
  split; [by apply list_elem_of_In|].
  unfold is_ready in Hr. apply andb_prop in Hr as [Hr _].
  apply andb_prop in Hr as [_ Hr]. by apply bool_decide_eq_true in Hr.
Qed.

Lemma pending_shrinks (l : list instruction) (done_ids : list string)
    (insn : instruction) :
  insn ∈ l → id insn ∉ done_ids →
  length (filter (fun i => id i ∉ done_ids ++ [id insn]) l)
  < length (filter (fun i => id i ∉ done_ids) l).
Proof.
  induction l as [|a l IH]; intros Hin Hnot; [by apply elem_of_nil in Hin|].
  assert (Hle : ∀ l' : list instruction,
    length (filter (fun i => id i ∉ done_ids ++ [id insn]) l')
    ≤ length (filter (fun i => id i ∉ done_ids) l')).
  { induction l' as [|b l' IHl]; [done|].
    rewrite !filter_cons. repeat case_decide; simpl; try lia.
    exfalso. set_solver. }
  rewrite !filter_cons. apply elem_of_cons in Hin as [<-|Hin].
  - rewrite decide_False by set_solver. rewrite decide_True by done.
    simpl. specialize (Hle l). lia.
  - specialize (IH Hin Hnot). repeat case_decide; simpl; try lia.
    exfalso. set_solver.
Qed.

(** With as much fuel as there are pending instructions, the controller does
    not stop for lack of fuel: it raised, or nothing is ready any more. *)
Lemma controller_call_complete (fuel : nat) (self : interp) :
  length (pending self) ≤ fuel →
  let '(evts, how, self') := controller_call fuel self in
  how = None → select_ready (code self') (exec_controller self') = None.
Proof.
  revert self. induction fuel as [|fuel IH]; intros self Hlen; simpl.
  - intros _. destruct (select_ready _ _) as [insn|] eqn:Hs; [|done].
    apply select_ready_pending in Hs as [Hin Hnot].
    assert (insn ∈ pending self) as Hp by (by apply list_elem_of_filter).
    destruct (pending self); [by apply elem_of_nil in Hp|simpl in Hlen; lia].
  - destruct (select_ready _ _) as [insn|] eqn:Hs; [|done].
    destruct (dispatch self insn) as [[self1 r]|e] eqn:Hd; [|done].
    apply dispatch_next_state in Hd as Hns. destruct Hns as [Hns Hcode].
    apply select_ready_pending in Hs as [Hin Hnot].
    assert (Hexec : executed (exec_controller self1)
                    = executed (exec_controller self)).
    { revert Hd. clear. dispatch_cases; intros; by simplify_eq. }
    pose proof (pending_shrinks _ _ _ Hin Hnot) as Hlt.
    destruct r as [[evt deps]|].
    + match goal with |- context [controller_call fuel ?s] =>
        specialize (IH s); destruct (controller_call fuel s) as [[evts how] self2]
      end.
      apply IH. unfold pending in *. simpl. rewrite Hcode, Hexec. lia.
    + match goal with |- context [controller_call fuel ?s] =>
        specialize (IH s); destruct (controller_call fuel s) as [[evts how] self2]
      end.
      apply IH. unfold pending in *. simpl. rewrite Hcode, Hexec. lia.
Qed.

(** *** One step *)

Lemma run_single_step_facts (self : interp) :
  let '(evts, how, self') := run_single_step self in
  Forall (fun e => is_StateComputed e = true) evts
  ∧ (∃ ctx, context self' = discard_transient ctx)
  ∧ code self' = code self
  ∧ next_state self'
    = match states (code self) !! next_state self with
      | Some cur_state => state_next_state cur_state
      | None => next_state self
      end.
Proof.
  unfold run_single_step. simpl.
  destruct (states (code self) !! next_state self) as [cur|]; simpl.
  - match goal with |- context [controller_call ?f ?s] =>
      pose proof (controller_call_invariant f s) as Hinv;
      destruct (controller_call f s) as [[evts how] self2]
    end.
    simpl in Hinv. destruct Hinv as (Hns & Hcode & Hev).
    repeat split; [done|by eexists|done|done].
  - repeat split; [done|by eexists].
Qed.

(** *** The stepping loop *)

Lemma completed_steps_app (evts rest : list event) :
  Forall (fun e => is_StateComputed e = true) evts →
  completed_steps (evts ++ rest) = completed_steps rest
  ∧ failed_steps (evts ++ rest) = failed_steps rest.
Proof.
  unfold completed_steps, failed_steps.
  induction 1 as [|e evts He _ IH]; [done|].
  destruct e; try discriminate He. simpl. rewrite !filter_cons. simpl.
  exact IH.
Qed.

Lemma run_loop_count (fuel : nat) (t_end : option Z) (max_steps : option nat)
    (n_steps : nat) (self : interp) :
  let '(evts, status, _) := run_loop fuel t_end max_steps n_steps self in
  (∀ m, max_steps = Some m → n_steps + completed_steps evts ≤ max m n_steps)
  ∧ (status = Suspended → completed_steps evts + failed_steps evts = fuel).
Proof.
  revert n_steps self. induction fuel as [|fuel IH]; intros n_steps self; simpl.
  { split; [intros; unfold completed_steps; simpl; lia | done]. }
  destruct (reached_t_end self t_end) as [[]|];
    [split; [intros; unfold completed_steps; simpl; lia | done]| |
     split; [intros; unfold completed_steps; simpl; lia | done]].
  destruct (reached_max_steps max_steps n_steps) eqn:Hmax;
    [split; [intros; unfold completed_steps; simpl; lia | done]|].
  pose proof (run_single_step_facts self) as Hstep.
  destruct (run_single_step self) as [[evts how] self1].
  destruct Hstep as (Hev & _).
  destruct how as [e|].
  - destruct e;
      try (rewrite <- (app_nil_r evts);
           destruct (completed_steps_app evts [] Hev) as [-> ->];
           split; [intros; unfold completed_steps; simpl; lia | done]).
    destruct (context self1 !! "<t>") as [t|];
      [|rewrite <- (app_nil_r evts);
        destruct (completed_steps_app evts [] Hev) as [-> ->];
        split; [intros; unfold completed_steps; simpl; lia | done]].
    specialize (IH n_steps self1).
    destruct (run_loop fuel t_end max_steps n_steps self1) as [[rest status] self2].
    destruct (completed_steps_app evts (StepFailed t :: rest) Hev) as [-> ->].
    unfold completed_steps, failed_steps in *. rewrite !filter_cons. simpl.
    destruct IH as [IH1 IH2]. split; [done|]. intros Hs. specialize (IH2 Hs). lia.
  - destruct (context self1 !! "<t>") as [t|];
      [|rewrite <- (app_nil_r evts);
        destruct (completed_steps_app evts [] Hev) as [-> ->];
        split; [intros; unfold completed_steps; simpl; lia | done]].
    specialize (IH (S n_steps) self1).
    destruct (run_loop fuel t_end max_steps (S n_steps) self1)
      as [[rest status] self2].
    destruct (completed_steps_app evts
                (StepCompleted t (next_state self) (next_state self1) :: rest)
                Hev) as [-> ->].
    unfold completed_steps, failed_steps in *. rewrite !filter_cons. simpl.
    destruct IH as [IH1 IH2]. split.
    + intros m ->. specialize (IH1 m eq_refl). simpl in Hmax.
      apply Nat.leb_gt in Hmax. lia.
    + intros Hs. specialize (IH2 Hs). lia.
Qed.

(** *** Rejected steps *)

(** C1, as the code has it: a step attempt that ends in the step-rejection
    signal (which the dispatch of a [FailStep] instruction raises) has passed
    on to the consumer of [run] every event produced before the rejection,
    all of them [StateComputed]; [run] then yields exactly one [StepFailed]
    with the time the context holds at that moment, no [StepCompleted],
    leaves [n_steps] as it was and goes on with the next iteration. *)
Theorem run_rejected_step (fuel : nat) (t_end : option Z)
    (max_steps : option nat) (n_steps : nat) (self self1 : interp)
    (evts : list event) (t : Z) :
  reached_t_end self t_end = Ok false →
  reached_max_steps max_steps n_steps = false →
  run_single_step self = (evts, Some FailStepException, self1) →
  context self1 !! "<t>" = Some t →
  run_loop (S fuel) t_end max_steps n_steps self
  = (let '(rest, status, self2) :=
       run_loop fuel t_end max_steps n_steps self1 in
     (evts ++ StepFailed t :: rest, status, self2))
  ∧ Forall (fun e => is_StateComputed e = true) evts
  ∧ completed_steps (evts ++ [StepFailed t]) = 0
  ∧ ∀ (s : interp) (insn : instruction),
      kind insn = FailStep → dispatch s insn = Exc FailStepException.
Proof.
  intros Hend Hmax Hstep Ht.
  pose proof (run_single_step_facts self) as Hfacts. rewrite Hstep in Hfacts.
  destruct Hfacts as (Hev & _).
  split; [|split; [done|split]].
  - simpl. by rewrite Hend, Hmax, Hstep, Ht.
  - by destruct (completed_steps_app evts [StepFailed t] Hev) as [-> _].
  - intros s insn. apply dispatch_fail_step.
Qed.

Lemma run_rejected_step_witness :
  run_loop 2 None None 0 (started rejecting_program 0 1 {[ "y" := 5%Z ]})
  = (let '(rest, status, self2) :=
       run_loop 1 None None 0
         (run_single_step (started rejecting_program 0 1 {[ "y" := 5%Z ]})).2 in
     ([StateComputed 1 "final" "y" 5] ++ StepFailed 1 :: rest, status, self2)).
Proof.
  apply (run_rejected_step 1 None None 0
           (started rejecting_program 0 1 {[ "y" := 5%Z ]})
           (run_single_step (started rejecting_program 0 1 {[ "y" := 5%Z ]})).2
           [StateComputed 1 "final" "y" 5] 1%Z);
    reflexivity.
Defined.

(** C1 as stated fails: the consumer has seen the [StateComputed] event of
    the rejected attempt before [StepFailed], and the time that the attempt
    assigned (1, from 0) is not rolled back. *)
Lemma rejected_step_events_are_observed :
  context (started rejecting_program 0 1 {[ "y" := 5%Z ]}) !! "<t>" = Some 0%Z
  ∧ (run 1 None None (started rejecting_program 0 1 {[ "y" := 5%Z ]})).1
    = ([StateComputed 1 "final" "y" 5; StepFailed 1], Suspended).
Proof. split; reflexivity. Qed.

(** *** Bounds on a run *)

(** C4, as the code has it: [max_steps] bounds the completed steps, and
    rejected attempts are not counted against it. A run that has not ended
    after [fuel] iterations has made [fuel] attempts, each completed or
    rejected; so once more iterations are followed than [max_steps] plus
    the number of rejected attempts, the run has ended. No attempt is made
    when the time has reached [t_end] or [max_steps] steps are completed. *)
Theorem run_bounded (fuel : nat) (t_end : option Z) (max_steps : nat)
    (self : interp) :
  let '(evts, status, _) := run fuel t_end (Some max_steps) self in
  completed_steps evts ≤ max_steps
  ∧ (status = Suspended → completed_steps evts + failed_steps evts = fuel)
  ∧ (max_steps + failed_steps evts < fuel → status ≠ Suspended)
  ∧ (∀ (n_steps : nat) (limit : option nat) (t t' : Z),
       context self !! "<t>" = Some t → (t' ≤ t)%Z →
       run_loop (S fuel) (Some t') limit n_steps self = ([], Returned, self))
  ∧ (∀ n_steps : nat, max_steps ≤ n_steps →
       reached_t_end self t_end = Ok false →
       run_loop (S fuel) t_end (Some max_steps) n_steps self
       = ([], Returned, self)).
Proof.
  unfold run.
  pose proof (run_loop_count fuel t_end (Some max_steps) 0 self) as Hc.
  destruct (run_loop fuel t_end (Some max_steps) 0 self) as [[evts status] self'].
  destruct Hc as [Hc1 Hc2]. specialize (Hc1 max_steps eq_refl).
  repeat split.
  - lia.
  - done.
  - intros Hlt ->. specialize (Hc2 eq_refl). lia.
  - intros n_steps limit t t' Ht Hle. simpl. unfold reached_t_end. rewrite Ht.
    by rewrite (proj2 (Z.leb_le t' t) Hle).
  - intros n_steps Hle Hend. simpl. rewrite Hend. simpl.
    by rewrite (proj2 (Nat.leb_le max_steps n_steps) Hle).
Qed.

Lemma run_bounded_witness :
  let '(evts, status, _) :=
    run 5 None (Some 3) (started counting_program 0 1 {[ "x" := 0%Z ]}) in
  completed_steps evts ≤ 3 ∧ status ≠ Suspended.
Proof.
  pose proof (run_bounded 5 None 3
                (started counting_program 0 1 {[ "x" := 0%Z ]})) as H.
  destruct (run 5 None (Some 3) (started counting_program 0 1 {[ "x" := 0%Z ]}))
    as [[evts status] self'] eqn:Hrun.
  destruct H as (H1 & _ & H3 & _). split; [exact H1|].
  apply H3. vm_compute in Hrun. injection Hrun as <- _ _. vm_compute. lia.
Defined.

Lemma stuck_program_step :
  run_single_step (run_single_step (started stuck_program 0 1 ∅)).2
  = ([], Some FailStepException,
     (run_single_step (started stuck_program 0 1 ∅)).2).
Proof. reflexivity. Qed.

Lemma stuck_program_loops (fuel : nat) (t_end : option Z) (max_steps : option nat) :
  (t_end = None ∨ t_end = Some 10%Z) →
  (max_steps = None ∨ max_steps = Some 1) →
  run_loop fuel t_end max_steps 0 (run_single_step (started stuck_program 0 1 ∅)).2
  = (replicate fuel (StepFailed 0), Suspended,
     (run_single_step (started stuck_program 0 1 ∅)).2).
Proof.
  intros Ht Hm. induction fuel as [|fuel IH]; [done|].
  cbn [run_loop].
  replace (reached_t_end _ t_end) with (@Ok bool false)
    by (by destruct Ht as [-> | ->]).
  replace (reached_max_steps max_steps 0) with false
    by (by destruct Hm as [-> | ->]).
  rewrite stuck_program_step.
  replace (context _ !! "<t>") with (Some 0%Z) by reflexivity.
  by rewrite IH.
Qed.

(** C4 as stated fails: with [max_steps = 1] the loop makes five attempts,
    all rejected, and has not ended; it never ends, whatever the number of
    iterations followed, with [max_steps] given and with [t_end] given. *)
Lemma rejected_steps_are_not_counted :
  (run 5 None (Some 1) (started stuck_program 0 1 ∅)).1
  = (replicate 5 (StepFailed 0), Suspended)
  ∧ (∀ fuel : nat,
       (run fuel None (Some 1) (started stuck_program 0 1 ∅)).1.2 = Suspended
       ∧ (run fuel (Some 10%Z) None (started stuck_program 0 1 ∅)).1.2
         = Suspended).
Proof.
  split; [reflexivity|]. intros [|fuel]; [done|]. unfold run. cbn [run_loop].
  replace (reached_t_end _ None) with (@Ok bool false) by reflexivity.
  replace (reached_t_end _ (Some 10%Z)) with (@Ok bool false) by reflexivity.
  replace (reached_max_steps (Some 1) 0) with false by reflexivity.
  replace (reached_max_steps None 0) with false by reflexivity.
  destruct (run_single_step (started stuck_program 0 1 ∅))
    as [[evts how] self1] eqn:Hstep.
  pose proof (stuck_program_loops fuel None (Some 1)) as H1.
  pose proof (stuck_program_loops fuel (Some 10%Z) None) as H2.
  rewrite Hstep in H1, H2. simpl in H1, H2.
  vm_compute in Hstep. injection Hstep as <- <- <-.
  cbn match. replace (context _ !! "<t>") with (Some 0%Z) by reflexivity.
  rewrite H1, H2 by auto. done.
Qed.

(** *** Transient variables *)

(** C8: whatever a step attempt did and however it ended, the context it
    leaves holds only names that start with [<state>] or [<p>], or are [<t>]
    or [<dt>]; the [finally] block deletes exactly the other names and
    keeps the entries of these. *)
Theorem transient_variables_cleared (self : interp) (name : string) :
  is_Some (context (run_single_step self).2 !! name) →
  (String.prefix "<state>" name = true ∨ String.prefix "<p>" name = true
   ∨ name = "<t>" ∨ name = "<dt>")
  ∧ ∀ ctx : gmap string Z,
      discard_transient ctx !! name = ctx !! name
      ∧ ∀ other : string,
          discard_transient ctx !! other
          = if is_transient other then None else ctx !! other.
Proof.
  intros Hsome.
  pose proof (run_single_step_facts self) as Hfacts.
  destruct (run_single_step self) as [[evts how] self'].
  destruct Hfacts as (_ & [ctx Hctx] & _). simpl in Hsome.
  rewrite Hctx, discard_transient_lookup in Hsome.
  destruct (is_transient name) eqn:Ht; [by destruct Hsome|].
  split; [by apply is_transient_false|].
  intros ctx'. split; [|apply discard_transient_lookup].
  by rewrite discard_transient_lookup, Ht.
Qed.

Lemma transient_variables_cleared_witness :
  (String.prefix "<state>" "<state>x" = true
   ∨ String.prefix "<p>" "<state>x" = true
   ∨ "<state>x" = "<t>" ∨ "<state>x" = "<dt>")
  ∧ ∀ ctx : gmap string Z,
      discard_transient ctx !! "<state>x" = ctx !! "<state>x"
      ∧ ∀ other : string,
          discard_transient ctx !! other
          = if is_transient other then None else ctx !! other.
Proof.
  apply (transient_variables_cleared
           (started counting_program 0 1 {[ "x" := 0%Z ]}) "<state>x").
  vm_compute. eauto.
Defined.

(** *** set_up *)

Lemma set_up_items_reserved (items : list (string * Z)) (self : interp) :
  Exists (fun kv => String.prefix "<" kv.1 = true) items →
  ∃ self',
    set_up_items items self
    = (self', Some (ValueError "state variables may not start with '<'")).
Proof.
  revert self. induction items as [|[key val] items IH]; intros self Hex.
  - by apply Exists_nil in Hex.
  - simpl. destruct (String.prefix "<" key) eqn:Hp; [by eexists|].
    apply Exists_cons in Hex as [Hex|Hex]; [simpl in Hex; congruence|].
    by apply IH.
Qed.

Lemma set_up_items_seeds (items : list (string * Z)) (self : interp) :
  Forall (fun kv => String.prefix "<" kv.1 = false) items →
  NoDup items.*1 →
  ∃ self',
    set_up_items items self = (self', None)
    ∧ next_state self' = next_state self
    ∧ (∀ key val, (key, val) ∈ items →
         context self' !! ("<state>" +:+ key) = Some val)
    ∧ (∀ name, (∀ key, key ∈ items.*1 → name ≠ "<state>" +:+ key) →
         context self' !! name = context self !! name).
Proof.
  revert self. induction items as [|[key val] items IH]; intros self Hall Hnd.
  - exists self. split_and!; [done|done| |done].
    intros ?? Hin. by apply elem_of_nil in Hin.
  - apply Forall_cons in Hall as [Hp Hall]. simpl in Hp.
    rewrite fmap_cons in Hnd. apply NoDup_cons in Hnd as [Hnotin Hnd].
    simpl. rewrite Hp.
    destruct (IH (with_context self
                    (<["<state>" +:+ key := val]> (context self))) Hall Hnd)
      as (self' & -> & Hns & Hseed & Hframe).
    exists self'. split_and!; [done|done| |].
    + intros k v Hin. apply elem_of_cons in Hin as [Heq|Hin]; [|by apply Hseed].
      injection Heq as -> ->. rewrite Hframe; [simpl; apply lookup_insert_eq|].
      intros k Hk Heq. apply (inj (String.append "<state>")) in Heq. by subst.
    + intros name Hname. rewrite Hframe.
      * simpl. apply lookup_insert_ne. intros Heq. eapply Hname; [|done].
        simpl. left.
      * intros k Hk. apply Hname. simpl. by right.
Qed.

(** C9: [set_up] fails with a [ValueError] when a key of the state values
    starts with ["<"]; otherwise it returns normally, and the context then
    holds the start time under [<t>], the start time step under [<dt>] and
    every state value under [<state>] followed by its key, and is unchanged
    at every other name. *)
Theorem set_up_seeds_context (self : interp) (t_start dt_start : Z)
    (state_values : gmap string Z) :
  ((∃ key, is_Some (state_values !! key) ∧ String.prefix "<" key = true) →
   ∃ message, (set_up self t_start dt_start state_values).2
              = Some (ValueError message))
  ∧ ((∀ key, is_Some (state_values !! key) → String.prefix "<" key = false) →
     let '(self', error) := set_up self t_start dt_start state_values in
     error = None
     ∧ context self' !! "<t>" = Some t_start
     ∧ context self' !! "<dt>" = Some dt_start
     ∧ (∀ key val, state_values !! key = Some val →
          context self' !! ("<state>" +:+ key) = Some val)
     ∧ (∀ name, name ≠ "<t>" → name ≠ "<dt>" →
          (∀ key, is_Some (state_values !! key) → name ≠ "<state>" +:+ key) →
          context self' !! name = context self !! name)).
Proof.
  unfold set_up. split.
  - intros (key & [val Hval] & Hp).
    edestruct set_up_items_reserved as [self' ->]; [|by eexists].
    apply Exists_exists. exists (key, val). split; [|done].
    by apply elem_of_map_to_list.
  - intros Hall.
    edestruct (set_up_items_seeds (map_to_list state_values))
      as (self' & -> & _ & Hseed & Hframe).
    { apply Forall_forall. intros [key val] Hin. simpl. apply Hall.
      apply elem_of_map_to_list in Hin. by eexists. }
    { apply NoDup_fst_map_to_list. }
    assert (Hkeys : ∀ key, key ∈ (map_to_list state_values).*1 →
                           is_Some (state_values !! key)).
    { intros key Hin. apply list_elem_of_fmap in Hin as ([k v] & -> & Hin).
      apply elem_of_map_to_list in Hin. by eexists. }
    repeat split.
    + rewrite Hframe; [simpl|by intros k _ Heq].
      rewrite lookup_insert_ne by done. apply lookup_insert_eq.
    + rewrite Hframe; [simpl; apply lookup_insert_eq|by intros k _ Heq].
    + intros key val Hval. apply Hseed. by apply elem_of_map_to_list.
    + intros name Ht Hdt Hname. rewrite Hframe; [simpl|].
      * by rewrite !lookup_insert_ne.
      * intros key Hin. apply Hname. by apply Hkeys.
Qed.

Lemma set_up_seeds_context_witness :
  (∃ message,
     (set_up (init counting_program ∅) 0 1 {[ "<x" := 7%Z ]}).2
     = Some (ValueError message))
  ∧ (let '(self', error) :=
       set_up (init counting_program ∅) 0 1 {[ "x" := 7%Z ]} in
     error = None ∧ context self' !! "<state>x" = Some 7%Z).
Proof.
  split.
  - apply (set_up_seeds_context (init counting_program ∅) 0 1
             {[ "<x" := 7%Z ]}).
    exists "<x". split; [by eexists|reflexivity].
  - pose proof (proj2 (set_up_seeds_context (init counting_program ∅) 0 1
                         {[ "x" := 7%Z ]})) as H.
    destruct (set_up (init counting_program ∅) 0 1 {[ "x" := 7%Z ]})
      as [self' error].
    destruct H as (Herr & _ & _ & Hseed & _).
    + intros key [val Hval]. apply lookup_singleton_Some in Hval as [<- _].
      reflexivity.
    + split; [exact Herr|]. apply (Hseed "x"). reflexivity.
Defined.

(** *** The successor state *)

(** C10: the handlers the interpreter defines are those of [AssignSolved],
    [YieldState], [AssignExpression], [Raise], [FailStep], [If] and [Nop],
    so the dispatch of a [StateTransition] finds no method; no handler
    changes [next_state]; and a step attempt from a state of the state
    table leaves [next_state] at that state's declared successor, whatever
    was executed and however the attempt ended. *)
Theorem next_state_from_state_table (self : interp) (cur_state : state_descr) :
  states (code self) !! next_state self = Some cur_state →
  next_state (run_single_step self).2 = state_next_state cur_state
  ∧ (∀ (s s' : interp) (insn : instruction) (r : handler_result),
       dispatch s insn = Ok (s', r) → next_state s' = next_state s)
  ∧ (∀ (fuel : nat) (s : interp),
       next_state (controller_call fuel s).2 = next_state s)
  ∧ (∀ k : instruction_kind,
       "exec_" +:+ kind_name k ∈ handlers
       ↔ ∀ target_state, k ≠ StateTransition target_state)
  ∧ (∀ (s : interp) (insn : instruction) (target_state : string),
       kind insn = StateTransition target_state →
       dispatch s insn = Exc (AttributeError "exec_StateTransition")).
Proof.
  intros Hcur.
  pose proof (run_single_step_facts self) as Hfacts.
  destruct (run_single_step self) as [[evts how] self'].
  destruct Hfacts as (_ & _ & _ & Hns). rewrite Hcur in Hns.
  repeat split.
  - done.
  - intros s s' insn r Hd. by apply dispatch_next_state in Hd as [].
  - intros fuel s. pose proof (controller_call_invariant fuel s) as Hinv.
    destruct (controller_call fuel s) as [[evts' how'] s']. by destruct Hinv.
  - intros Hin target_state ->. revert Hin. vm_compute. set_solver.
  - intros Hk. eapply bool_decide_eq_true_1. rewrite has_handler.
    destruct k; try done. by specialize (Hk target_state).
  - intros s insn target_state Hk. unfold dispatch. by rewrite Hk.
Qed.

Lemma next_state_from_state_table_witness :
  next_state
    (run_single_step (started counting_program 0 1 {[ "x" := 0%Z ]})).2
  = "primary".
Proof.
  apply (next_state_from_state_table
           (started counting_program 0 1 {[ "x" := 0%Z ]})
           {| state_depends_on := ["incr"]; state_next_state := "primary" |}).
  reflexivity.
Defined.

(** *** What a run reports *)

Lemma walk_computed (c : program) (s : string) (evts rest : list event) :
  Forall (fun e => is_StateComputed e = true) evts →
  walk c s (evts ++ rest) = walk c s rest.
Proof. induction 1 as [|[] evts He _ IH]; done. Qed.

(** X7: the events of a run follow the state table. Every [StepCompleted]
    names as its current state the state the interpreter was in and as its
    next state the successor the table gives that state, and the next
    attempt starts from there; an attempt that is rejected has moved on to
    the successor of its state as well, so a rejected step is not tried
    again in the state it was tried in, unless the state is its own
    successor. The interpreter ends in the state the events lead to. *)
Theorem run_follows_state_table (fuel : nat) (t_end : option Z)
    (max_steps : option nat) (n_steps : nat) (self : interp) :
  let '(evts, status, self') :=
    run_loop fuel t_end max_steps n_steps self in
  ∃ s, walk (code self) (next_state self) evts = Some s
       ∧ code self' = code self
       ∧ ((∀ e, status ≠ Raised e) → next_state self' = s).
Proof.
  revert n_steps self.
  induction fuel as [|fuel IH]; intros n_steps self; simpl.
  { by exists (next_state self). }
  destruct (reached_t_end self t_end) as [[]|e];
    try (by exists (next_state self)).
  destruct (reached_max_steps max_steps n_steps);
    [by exists (next_state self)|].
  pose proof (run_single_step_facts self) as Hfacts.
  assert (∀ evts how self1, run_single_step self = (evts, how, self1) →
            (how = None ∨ how = Some FailStepException) →
            is_Some (states (code self) !! next_state self)) as Hknown.
  { unfold run_single_step. simpl.
    destruct (states (code self) !! next_state self); [by eexists|].
    intros evts how self1 Heq [->| ->]; by simplify_eq. }
  destruct (run_single_step self) as [[evts how] self1] eqn:Hstep.
  destruct Hfacts as (Hev & _ & Hcode & Hns).
  assert (∀ rest status self2,
            (∃ s, walk (code self) (next_state self) rest = Some s
                  ∧ code self2 = code self
                  ∧ ((∀ e, status ≠ Raised e) → next_state self2 = s)) →
            ∃ s, walk (code self) (next_state self) (evts ++ rest) = Some s
                 ∧ code self2 = code self
                 ∧ ((∀ e, status ≠ Raised e) → next_state self2 = s))
    as Hprefix.
  { intros rest status self2 (s & Hw & Hc & Hs). exists s.
    by rewrite walk_computed. }
  assert (∃ s, walk (code self) (next_state self) evts = Some s) as [s0 Hw0].
  { exists (next_state self).
    rewrite <- (app_nil_r evts). by rewrite walk_computed. }
  destruct how as [e|].
  - destruct e;
      try (exists s0; split_and!; [done..|]; intros Hr; exfalso; by eapply Hr).
    destruct (Hknown evts _ self1 eq_refl) as [d Hd]; [by right|].
    rewrite Hd in Hns.
    destruct (context self1 !! "<t>") as [t|];
      [|exists s0; split_and!; [done..|]; intros Hr; exfalso; by eapply Hr].
    specialize (IH n_steps self1).
    destruct (run_loop fuel t_end max_steps n_steps self1)
      as [[rest status] self2].
    destruct IH as (s & Hw & Hc & Hs). apply Hprefix.
    exists s. simpl. rewrite Hd. simpl.
    rewrite <- Hns, <- Hcode. split_and!; [done|congruence|done].
  - destruct (Hknown evts _ self1 eq_refl) as [d Hd]; [by left|].
    rewrite Hd in Hns.
    destruct (context self1 !! "<t>") as [t|];
      [|exists s0; split_and!; [done..|]; intros Hr; exfalso; by eapply Hr].
    specialize (IH (S n_steps) self1).
    destruct (run_loop fuel t_end max_steps (S n_steps) self1)
      as [[rest status] self2].
    destruct IH as (s & Hw & Hc & Hs). apply Hprefix.
    exists s. simpl. rewrite Hd. simpl.
    rewrite decide_True by done.
    rewrite Hns, <- Hcode. split_and!; [|congruence|done].
    by rewrite <- Hns.
Qed.

(** A handler changes no name but the one its instruction assigns. *)
Lemma dispatch_frame (self self' : interp) (insn : instruction)
    (r : handler_result) (name : string) :
  dispatch self insn = Ok (self', r) →
  assignee_of (kind insn) ≠ Some name →
  context self' !! name = context self !! name.
Proof.
  dispatch_cases; intros Hd Hname; simplify_eq; try done;
    simpl in Hname; simpl; apply lookup_insert_ne; congruence.
Qed.

Lemma controller_call_frame (fuel : nat) (self : interp) (name : string) :
  (∀ insn, insn ∈ instructions (code self) →
           assignee_of (kind insn) ≠ Some name) →
  context (controller_call fuel self).2 !! name = context self !! name.
Proof.
  revert self. induction fuel as [|fuel IH]; intros self Hname; simpl; [done|].
  destruct (select_ready _ _) as [insn|] eqn:Hsel; [|done].
  apply select_ready_pending in Hsel as [Hin _].
  destruct (dispatch self insn) as [[self1 r]|e] eqn:Hd; [|done].
  pose proof (dispatch_frame _ _ _ _ name Hd (Hname insn Hin)) as Hctx.
  apply dispatch_next_state in Hd as [_ Hcode].
  destruct r as [[evt deps]|].
  - match goal with |- context [controller_call fuel ?s] =>
      specialize (IH s); destruct (controller_call fuel s) as [[evts how] self2]
    end.
    simpl in IH |- *. rewrite IH; [done|]. by rewrite Hcode.
  - rewrite IH; [done|]. simpl. by rewrite Hcode.
Qed.

Lemma run_single_step_frame (self : interp) (name : string) :
  is_transient name = false →
  (∀ insn, insn ∈ instructions (code self) →
           assignee_of (kind insn) ≠ Some name) →
  context (run_single_step self).2 !! name = context self !! name.
Proof.
  intros Hkeep Hname. unfold run_single_step. simpl.
  destruct (states (code self) !! next_state self) as [cur|]; simpl.
  - match goal with |- context [controller_call ?f ?s] =>
      pose proof (controller_call_frame f s name) as Hframe;
      destruct (controller_call f s) as [[evts how] self2]
    end.
    simpl in Hframe |- *. rewrite discard_transient_lookup, Hkeep.
    by apply Hframe.
  - by rewrite discard_transient_lookup, Hkeep.
Qed.

(** X8: [run] changes no permanent name by itself. A name that outlives
    a step ([<t>], [<dt>], the state and [<p>] variables) and that no
    instruction of the program assigns has the value (or no value) after a
    run that it had before, however many steps were made or rejected; in
    particular [run] does not advance [<t>]. *)
Theorem run_keeps_unassigned_names (fuel : nat) (t_end : option Z)
    (max_steps : option nat) (n_steps : nat) (self : interp) (name : string) :
  is_transient name = false →
  (∀ insn, insn ∈ instructions (code self) →
           assignee_of (kind insn) ≠ Some name) →
  context (run_loop fuel t_end max_steps n_steps self).2 !! name
  = context self !! name.
Proof.
  intros Hkeep. revert n_steps self.
  induction fuel as [|fuel IH]; intros n_steps self Hname; simpl; [done|].
  destruct (reached_t_end self t_end) as [[]|e]; try done.
  destruct (reached_max_steps max_steps n_steps); [done|].
  pose proof (run_single_step_frame self name Hkeep Hname) as Hstep.
  pose proof (run_single_step_facts self) as Hfacts.
  destruct (run_single_step self) as [[evts how] self1].
  destruct Hfacts as (_ & _ & Hcode & _). simpl in Hstep.
  assert (∀ insn, insn ∈ instructions (code self1) →
                  assignee_of (kind insn) ≠ Some name) as Hname1
    by (by rewrite Hcode).
  destruct how as [e|].
  - destruct e; try done.
    destruct (context self1 !! "<t>") as [t|]; [|done].
    specialize (IH n_steps self1 Hname1).
    destruct (run_loop fuel t_end max_steps n_steps self1)
      as [[rest status] self2].
    simpl in IH |- *. by rewrite IH.
  - destruct (context self1 !! "<t>") as [t|]; [|done].
    specialize (IH (S n_steps) self1 Hname1).
    destruct (run_loop fuel t_end max_steps (S n_steps) self1)
      as [[rest status] self2].
    simpl in IH |- *. by rewrite IH.
Qed.

Lemma run_keeps_unassigned_names_witness :
  context
    (run_loop 4 None (Some 3) 0
       (started counting_program 0 1 {[ "x" := 0%Z ]})).2 !! "<dt>"
  = Some 1%Z.
Proof.
  rewrite (run_keeps_unassigned_names 4 None (Some 3) 0
             (started counting_program 0 1 {[ "x" := 0%Z ]}) "<dt>").
  - reflexivity.
  - reflexivity.
  - intros insn Hin. simpl in Hin.
    repeat (apply elem_of_cons in Hin as [->|Hin]; [by simpl|]).
    by apply elem_of_nil in Hin.
Defined.

End NumpyInterpreterFacts.

(** ** Facts about the structural extractor *)

Section StructuralExtractorFacts.
Import StructuralExtractor.

(** *** Sets with one or two elements *)

Lemma one_Some (s : gset nat) (x : nat) : one s = Some x ↔ s = {[ x ]}.
Proof.
  unfold one. split.
  - destruct (elements s) as [|y [|]] eqn:He; intros; simplify_eq.
    apply set_eq. intros z. rewrite <- elem_of_elements, He. set_solver.
  - intros ->. by rewrite elements_singleton.
Qed.

Lemma one_size (s : gset nat) : size s = 1 ↔ is_Some (one s).
Proof.
  split.
  - intros Hs. apply size_1_elem_of in Hs as [x Hx].
    exists x. apply one_Some. by apply leibniz_equiv.
  - intros [x Hx]. apply one_Some in Hx as ->. apply size_singleton.
Qed.

Lemma one_None_size (s : gset nat) : one s = None → size s ≠ 1.
Proof. intros Hn Hs. apply one_size in Hs as [x Hx]. congruence. Qed.

Lemma elements_pair (s : gset nat) (x y : nat) :
  elements s = [x; y] → s = {[ x; y ]} ∧ x ≠ y.
Proof.
  intros He. split.
  - apply set_eq. intros z. rewrite <- elem_of_elements, He. set_solver.
  - pose proof (NoDup_elements s) as Hnd. rewrite He in Hnd.
    apply NoDup_cons in Hnd as [Hnd _]. set_solver.
Qed.

Lemma elements_of_pair (x y : nat) :
  x ≠ y →
  elements ({[ x; y ]} : gset nat) = [x; y]
  ∨ elements ({[ x; y ]} : gset nat) = [y; x].
Proof.
  intros Hne.
  assert (elements ({[ x; y ]} : gset nat) ≡ₚ [x; y]) as Hp.
  { rewrite elements_disj_union by set_solver. by rewrite !elements_singleton. }
  symmetry in Hp. by apply Permutation_length_2_inv in Hp as [->| ->]; auto.
Qed.

(** *** Contraction *)

Lemma contract_self (a : arena) (sh : shape) (members : gset nat)
    (entry_node exit_node : nat) :
  let '(a', n) := contract a sh members entry_node exit_node in
  n = length a
  ∧ length a' = S (length a)
  ∧ get a' n
    = {| node_shape := sh;
         node_successors := node_successors (get a exit_node);
         node_predecessors := node_predecessors (get a entry_node);
         entry_block := entry_block (get a entry_node);
         exit_block := exit_block (get a exit_node);
         nodes := members |}.
Proof.
  unfold contract. split_and!; [done| |].
  - rewrite length_app, !length_imap. simpl. lia.
  - unfold get. rewrite lookup_app_r by (by rewrite !length_imap).
    by rewrite !length_imap, Nat.sub_diag.
Qed.

(** *** The if-then-else detector *)

(** C6: [check_for_if_then_else_node] builds [IfThenElseNode(node, t, e)]
    exactly when [node] has the two successors [t] and [e], each of them has
    one predecessor, both have the same single successor [m], the five
    pairs (node, t), (node, e), (node, m), (t, m), (e, m) are pairs of
    different nodes, and the branch that ends the exit block of [node] goes
    to the entry block of [t] when true and to the entry block of [e] when
    false: the branch, not the graph, says which successor is the then
    arm. The successors of [node] are taken to have entry blocks of their
    own. *)
Theorem if_then_else_detected (a : arena) (f : function) (node t e : nat) :
  (∀ x y, x ∈ node_successors (get a node) →
          y ∈ node_successors (get a node) →
          entry_block (get a x) = entry_block (get a y) → x = y) →
  (∃ a' n, check_for_if_then_else_node a f node = Done (Some (a', n))
           ∧ node_shape (get a' n) = IfThenElseNode node t e)
  ↔ (node_successors (get a node) = {[ t; e ]} ∧ t ≠ e
     ∧ size (node_predecessors (get a t)) = 1
     ∧ size (node_predecessors (get a e)) = 1
     ∧ (∃ m, node_successors (get a t) = {[ m ]}
             ∧ node_successors (get a e) = {[ m ]}
             ∧ node ≠ t ∧ node ≠ e ∧ node ≠ m ∧ t ≠ m ∧ e ≠ m)
     ∧ (∃ b, blocks f !! exit_block (get a node) = Some b
             ∧ last (code b)
               = Some (BranchInst (entry_block (get a t))
                         (entry_block (get a e))))).
Proof.
  intros Hentry. unfold check_for_if_then_else_node. split.
  - intros (a' & n & Hcheck & Hshape).
    destruct (elements (node_successors (get a node)))
      as [|x [|y [|]]] eqn:Hel; try done.
    apply elements_pair in Hel as [Hsucc Hxy].
    destruct (blocks f !! exit_block (get a node)) as [b|] eqn:Hb;
      simpl in Hcheck; [|done].
    destruct (last (code b)) as [[on_true on_false|]|] eqn:Hlast; try done.
    destruct (decide (entry_block (get a y) = on_true)) as [Hswap|Hswap].
    + case_decide as Hassert; [|done]. destruct Hassert as [H1 H2].
      case_decide as Hp; [done|]. case_decide as Hs; [done|].
      destruct (one (node_successors (get a y))) as [m|] eqn:Hm; [|done].
      case_decide as Hd; [done|].
      pose proof (contract_self a (IfThenElseNode node y x)
                    {[node; y; x]} node y) as Hc.
      replace (contract a (IfThenElseNode node y x)
                 {[node; y; x]} node y) with (a', n) in Hc by congruence. destruct Hc as (_ & _ & Hc).
      rewrite Hc in Hshape. simpl in Hshape. injection Hshape as <- <-.
      apply one_Some in Hm.
      assert (node_successors (get a x) = node_successors (get a y)) as Heq
        by (symmetry; apply dec_stable; tauto).
      split_and!.
      * set_solver.
      * done.
      * apply dec_stable. tauto.
      * apply dec_stable. tauto.
      * exists m. rewrite Heq. split_and!; try done; intros ->; tauto.
      * exists b. by rewrite H1, H2.
    + case_decide as Hassert; [|done]. destruct Hassert as [H1 H2].
      case_decide as Hp; [done|]. case_decide as Hs; [done|].
      destruct (one (node_successors (get a x))) as [m|] eqn:Hm; [|done].
      case_decide as Hd; [done|].
      pose proof (contract_self a (IfThenElseNode node x y)
                    {[node; x; y]} node x) as Hc.
      replace (contract a (IfThenElseNode node x y)
                 {[node; x; y]} node x) with (a', n) in Hc by congruence. destruct Hc as (_ & _ & Hc).
      rewrite Hc in Hshape. simpl in Hshape. injection Hshape as <- <-.
      apply one_Some in Hm.
      assert (node_successors (get a y) = node_successors (get a x)) as Heq
        by (symmetry; apply dec_stable; tauto).
      split_and!.
      * done.
      * done.
      * apply dec_stable. tauto.
      * apply dec_stable. tauto.
      * exists m. rewrite Heq. split_and!; try done; intros ->; tauto.
      * exists b. by rewrite H1, H2.
  - intros (Hsucc & Hte & Hpt & Hpe & (m & Hst & Hse & Hd) & (b & Hb & Hlast)).
    assert (Hne : entry_block (get a e) ≠ entry_block (get a t)).
    { intros Heq. apply Hte. symmetry. apply Hentry; [set_solver..|done]. }
    rewrite Hb. simpl. rewrite Hlast.
    assert (Hbuilt : ∃ a' n,
      (if decide (entry_block (get a t) = entry_block (get a t)
                  ∧ entry_block (get a e) = entry_block (get a e))
       then
         if decide (size (node_predecessors (get a t)) ≠ 1
                    ∨ size (node_predecessors (get a e)) ≠ 1)
         then Done None
         else if decide (node_successors (get a t) ≠ node_successors (get a e)
                         ∨ size (node_successors (get a t)) ≠ 1)
         then Done None
         else
           match one (node_successors (get a t)) with
           | Some merge_node =>
               if decide (node = t ∨ node = e ∨ node = merge_node
                          ∨ t = merge_node ∨ e = merge_node)
               then Done None
               else Done (Some (contract a (IfThenElseNode node t e)
                                  {[ node; t; e ]} node t))
           | None => Failed ValueError
           end
       else Failed AssertionError) = Done (Some (a', n))
      ∧ node_shape (get a' n) = IfThenElseNode node t e).
    { rewrite decide_True by done.
      rewrite decide_False by (intros [?|?]; congruence).
      rewrite decide_False
        by (rewrite Hst, Hse, size_singleton; intros [?|?]; congruence).
      rewrite (proj2 (one_Some _ m) Hst).
      rewrite decide_False by tauto.
      pose proof (contract_self a (IfThenElseNode node t e)
                    {[node; t; e]} node t) as Hc.
      destruct (contract _ _ _ _ _) as [a' n]. destruct Hc as (_ & _ & Hc).
      exists a', n. by rewrite Hc. }
    rewrite Hsucc. destruct (elements_of_pair t e Hte) as [-> | ->].
    + by rewrite decide_False.
    + by rewrite decide_True.
Qed.

Lemma if_then_else_detected_witness :
  ∃ a' n,
    check_for_if_then_else_node (initial_arena diamond) diamond 0
    = Done (Some (a', n))
    ∧ node_shape (get a' n) = IfThenElseNode 0 1 2.
Proof.
  assert (Hs : node_successors (get (initial_arena diamond) 0) = {[ 1; 2 ]})
    by by_evaluation.
  apply (if_then_else_detected (initial_arena diamond) diamond 0 1 2).
  - intros x y Hx Hy He. rewrite Hs in Hx, Hy.
    apply elem_of_union in Hx as [Hx|Hx], Hy as [Hy|Hy];
      apply elem_of_singleton in Hx as ->, Hy as ->;
      vm_compute in He; congruence.
  - split_and!; try by_evaluation.
    + exists 3.
      split_and!; try by_evaluation.
    + eexists. split; reflexivity.
Defined.

(** *** Graphs the patterns do not cover *)


(** On two blocks that jump to each other, the first loop of
    [check_for_block_node] never ends. *)
Lemma ring_walk_never_ends (fuel : nat) (current_node : nat) :
  current_node < 2 →
  follow_predecessors fuel (initial_arena ring) current_node = None.
Proof.
  revert current_node. induction fuel as [|fuel IH]; intros c Hc; [done|].
  simpl. destruct c as [|[|c]]; [| |lia].
  - replace (one _) with (Some 1) by (by vm_compute).
    rewrite decide_True by (by vm_compute). by rewrite IH by lia.
  - replace (one _) with (Some 0) by (by vm_compute).
    rewrite decide_True by (by vm_compute). by rewrite IH by lia.
Qed.

End StructuralExtractorFacts.
Section StructuralExtractorReduction.
Import StructuralExtractor.

Lemma get_lt (a : arena) (y : nat) :
  y < length a → ∃ n, a !! y = Some n ∧ get a y = n.
Proof.
  intros Hy. destruct (lookup_lt_is_Some_2 a y Hy) as [n Hn].
  exists n. unfold get. by rewrite Hn.
Qed.

Lemma get_ge (a : arena) (y : nat) : length a ≤ y → get a y = no_node.
Proof. intros Hy. unfold get. by rewrite lookup_ge_None_2. Qed.

(** The nodes that were there before a contraction keep everything but
    their successors and predecessors. *)
Lemma contract_other (a : arena) (sh : shape) (members : gset nat)
    (entry_node exit_node y : nat) :
  y < length a →
  node_successors (get (contract a sh members entry_node exit_node).1 y)
  = (if decide (y ∈ node_predecessors (get a entry_node))
     then node_successors (get a y) ∖ members ∪ {[ length a ]}
     else node_successors (get a y))
  ∧ node_predecessors (get (contract a sh members entry_node exit_node).1 y)
    = (if decide (y ∈ node_successors (get a exit_node))
       then node_predecessors (get a y) ∖ members ∪ {[ length a ]}
       else node_predecessors (get a y))
  ∧ entry_block (get (contract a sh members entry_node exit_node).1 y)
    = entry_block (get a y)
  ∧ exit_block (get (contract a sh members entry_node exit_node).1 y)
    = exit_block (get a y)
  ∧ node_shape (get (contract a sh members entry_node exit_node).1 y)
    = node_shape (get a y)
  ∧ nodes (get (contract a sh members entry_node exit_node).1 y)
    = nodes (get a y).
Proof.
  intros Hy. destruct (get_lt a y Hy) as (n & Hn & Hget).
  assert (∃ n', (contract a sh members entry_node exit_node).1 !! y = Some n'
    ∧ n' = (let n1 := if decide (y ∈ node_predecessors (get a entry_node))
               then set_successors
                      (node_successors n ∖ members ∪ {[ length a ]}) n
               else n in
            if decide (y ∈ node_successors (get a exit_node))
            then set_predecessors
                   (node_predecessors n1 ∖ members ∪ {[ length a ]}) n1
            else n1)) as (n' & Hn' & Heq).
  { eexists. split; [|reflexivity]. unfold contract. cbn [fst].
    rewrite lookup_app_l by (by rewrite !length_imap).
    rewrite !list_lookup_imap, Hn. reflexivity. }
  assert (get (contract a sh members entry_node exit_node).1 y = n') as Hg
    by (unfold get; by rewrite Hn').
  rewrite !Hg, Hget, Heq. cbn zeta.
  destruct (decide (y ∈ node_predecessors (get a entry_node)));
    destruct (decide (y ∈ node_successors (get a exit_node)));
    by split_and!.
Qed.


Lemma size_swap_one (A : gset nat) (e n : nat) :
  e ∈ A → n ∉ A → size (A ∖ {[ e ]} ∪ {[ n ]}) = size A.
Proof.
  intros He Hn. rewrite size_union by set_solver.
  rewrite size_singleton.
  assert (size A = size (A ∖ {[ e ]}) + size ({[ e ]} : gset nat)) as ->.
  { rewrite <- size_union by set_solver. f_equal. apply set_eq.
    intros z. destruct (decide (z = e)); set_solver. }
  by rewrite size_singleton.
Qed.

Lemma contracted_set (s members : gset nat) (n : nat) (P : Prop)
    `{Decision P} :
  n ∉ s → (¬ P → ∀ z, z ∈ s → z ∉ members) →
  (if decide P then s ∖ members ∪ {[ n ]} else s) ∖ {[ n ]} = s ∖ members
  ∧ (n ∈ (if decide P then s ∖ members ∪ {[ n ]} else s) ↔ P).
Proof. intros Hn Hout. case_decide; split; set_solver. Qed.

(** A contraction that the detectors may make keeps the invariant of the
    loop: the members leave the graph and the new node takes their place. *)
Lemma contract_well_formed (f : function) (a : arena) (live : gset nat)
    (sh : shape) (members : gset nat) (entry_node exit_node : nat) :
  well_formed f a live →
  contractible f a live members entry_node exit_node →
  well_formed f (contract a sh members entry_node exit_node).1
    (live ∖ members ∪ {[ length a ]}).
Proof.
  intros (W0 & W1 & W2 & W2' & W3 & W4 & W5 & W6)
         (K0 & Ke & Kx & K1 & K2 & K3 & K3' & K4).
  pose proof (contract_self a sh members entry_node exit_node) as Hself.
  pose proof (contract_other a sh members entry_node exit_node) as Hother.
  destruct (contract a sh members entry_node exit_node) as [a' n] eqn:Hc.
  cbn [fst] in *. destruct Hself as (-> & Hlen & Hnew).
  assert (entry_node ∈ live) as Helive by set_solver.
  assert (exit_node ∈ live) as Hxlive by set_solver.
  assert (length a ∉ live) as Hfresh by (intros H%W1; lia).
  assert (∀ y, y ∈ live → y ∉ members →
            y ∉ node_predecessors (get a entry_node) →
            ∀ s, s ∈ node_successors (get a y) → s ∉ members) as F2.
  { intros y Hy HyM Hyp s Hs HsM. apply Hyp.
    assert (s = entry_node) as -> by eauto. apply W3; auto. }
  assert (∀ y, y ∈ live → y ∉ members →
            y ∉ node_successors (get a exit_node) →
            ∀ p, p ∈ node_predecessors (get a y) → p ∉ members) as F3.
  { intros y Hy HyM Hys p Hp HpM. apply Hys.
    apply (K2 p y); auto. apply W3; auto. }
  assert (∀ y, y ∈ live → y ∉ members →
            node_successors (get a' y) ∖ {[ length a ]}
            = node_successors (get a y) ∖ members
            ∧ (length a ∈ node_successors (get a' y)
               ↔ y ∈ node_predecessors (get a entry_node))
            ∧ node_predecessors (get a' y) ∖ {[ length a ]}
              = node_predecessors (get a y) ∖ members
            ∧ (length a ∈ node_predecessors (get a' y)
               ↔ y ∈ node_successors (get a exit_node))
            ∧ entry_block (get a' y) = entry_block (get a y)
            ∧ exit_block (get a' y) = exit_block (get a y)) as Hold.
  { intros y Hy HyM.
    destruct (Hother y (W1 y Hy)) as (Hs & Hp & He & Hx & _).
    rewrite Hs, Hp, He, Hx.
    assert (length a ∉ node_successors (get a y)) by (intros ?; eauto).
    assert (length a ∉ node_predecessors (get a y)) by (intros ?; eauto).
    destruct (contracted_set (node_successors (get a y)) members (length a)
                (y ∈ node_predecessors (get a entry_node)))
      as [H1 H2]; [done|by apply F2|].
    destruct (contracted_set (node_predecessors (get a y)) members (length a)
                (y ∈ node_successors (get a exit_node)))
      as [H3 H4]; [done|by apply F3|].
    by split_and!. }
  assert (∀ y, y ∈ live → entry_block (get a' y) = entry_block (get a y))
    as Hentry.
  { intros y Hy. by destruct (Hother y (W1 y Hy)) as (_ & _ & He & _). }
  unfold well_formed. split_and!.
  - rewrite Hlen. lia.
  - intros x Hx. rewrite Hlen.
    apply elem_of_union in Hx as [[Hx _]%elem_of_difference
                                  | ->%elem_of_singleton]; [|lia].
    apply W1 in Hx. lia.
  - intros x y Hx Hy.
    apply elem_of_union in Hx as [[Hx HxM]%elem_of_difference
                                  | ->%elem_of_singleton].
    + destruct (decide (y = length a)) as [->|Hne]; [set_solver|].
      destruct (Hold x Hx HxM) as (Hs & _).
      assert (y ∈ node_successors (get a x) ∖ members) as Hy'
        by (rewrite <- Hs; set_solver).
      apply elem_of_difference in Hy' as [Hy' HyM].
      apply elem_of_union. left. apply elem_of_difference. eauto.
    + rewrite Hnew in Hy. cbn in Hy.
      apply elem_of_union. left. apply elem_of_difference.
      split; [eauto|]. intros HyM. by apply (K3' y).
  - intros x y Hx Hy.
    apply elem_of_union in Hx as [[Hx HxM]%elem_of_difference
                                  | ->%elem_of_singleton].
    + destruct (decide (y = length a)) as [->|Hne]; [set_solver|].
      destruct (Hold x Hx HxM) as (_ & _ & Hp & _).
      assert (y ∈ node_predecessors (get a x) ∖ members) as Hy'
        by (rewrite <- Hp; set_solver).
      apply elem_of_difference in Hy' as [Hy' HyM].
      apply elem_of_union. left. apply elem_of_difference. eauto.
    + rewrite Hnew in Hy. cbn in Hy.
      apply elem_of_union. left. apply elem_of_difference.
      split; [eauto|]. intros HyM. by apply (K3 y).
  - intros x y Hx Hy.
    apply elem_of_union in Hx as [[Hx HxM]%elem_of_difference
                                  | ->%elem_of_singleton];
    apply elem_of_union in Hy as [[Hy HyM]%elem_of_difference
                                  | ->%elem_of_singleton].
    + destruct (Hold x Hx HxM) as (Hs & _).
      destruct (Hold y Hy HyM) as (_ & _ & Hp & _).
      assert (x ≠ length a) by (intros ->; done).
      assert (y ≠ length a) by (intros ->; done).
      specialize (W3 x y Hx Hy).
      split; intros H1.
      * assert (x ∈ node_predecessors (get a y) ∖ members) as H2
          by (apply elem_of_difference; split; [apply W3|done];
              assert (y ∈ node_successors (get a x) ∖ members)
                by (rewrite <- Hs; set_solver); set_solver).
        rewrite <- Hp in H2. set_solver.
      * assert (y ∈ node_successors (get a x) ∖ members) as H2
          by (apply elem_of_difference; split; [apply W3|done];
              assert (x ∈ node_predecessors (get a y) ∖ members)
                by (rewrite <- Hp; set_solver); set_solver).
        rewrite <- Hs in H2. set_solver.
    + destruct (Hold x Hx HxM) as (_ & Hs & _).
      rewrite Hnew. cbn. done.
    + destruct (Hold y Hy HyM) as (_ & _ & _ & Hp & _).
      rewrite Hnew. cbn. by rewrite Hp.
    + rewrite Hnew. cbn. split; intros H; exfalso; eauto.
  - intros x y Hx Hy.
    apply elem_of_union in Hx as [[Hx HxM]%elem_of_difference
                                  | ->%elem_of_singleton];
    apply elem_of_union in Hy as [[Hy HyM]%elem_of_difference
                                  | ->%elem_of_singleton]; try done.
    + rewrite !Hentry by done. eauto.
    + rewrite Hentry, Hnew by done. cbn. intros H.
      apply (W4 x entry_node Hx Helive) in H. by subst.
    + rewrite (Hentry y), Hnew by done. cbn. intros H.
      apply (W4 entry_node y Helive Hy) in H. by subst.
  - intros x y Hx Hy.
    apply elem_of_union in Hx as [[Hx HxM]%elem_of_difference
                                  | ->%elem_of_singleton].
    + rewrite (Hentry x Hx).
      destruct (decide (y = length a)) as [->|Hne].
      * rewrite Hnew. cbn. apply W5; [done|].
        destruct (Hold x Hx HxM) as (_ & Hs & _).
        apply W3; auto. by apply Hs.
      * destruct (Hold x Hx HxM) as (Hs & _).
        assert (y ∈ node_successors (get a x) ∖ members) as Hy'
          by (rewrite <- Hs; set_solver).
        apply elem_of_difference in Hy' as [Hy' HyM].
        rewrite (Hentry y) by eauto. by apply W5.
    + rewrite Hnew in Hy |- *. cbn in Hy |- *.
      rewrite (Hentry y) by eauto.
      pose proof (K4 exit_node Kx). pose proof (W5 exit_node y Hxlive Hy).
      lia.
  - intros x Hx Hsize.
    apply elem_of_union in Hx as [[Hx HxM]%elem_of_difference
                                  | ->%elem_of_singleton].
    + destruct (Hold x Hx HxM) as (Hs & Hn & _ & _ & _ & Hexit).
      rewrite Hexit.
      destruct (decide (x ∈ node_predecessors (get a entry_node)))
        as [Hp|Hp].
      * assert (entry_node ∈ node_successors (get a x)) as Hes
          by (apply W3; auto).
        assert (node_successors (get a x) ∖ members
                = node_successors (get a x) ∖ {[ entry_node ]}) as Hdiff.
        { apply set_eq. intros z. rewrite !elem_of_difference.
          rewrite elem_of_singleton. split; intros [Hz Hz'].
          - split; [done|]. by intros ->.
          - split; [done|]. intros HzM. apply Hz'. eauto. }
        assert (node_successors (get a' x)
                = node_successors (get a x) ∖ {[ entry_node ]}
                  ∪ {[ length a ]}) as Hs'.
        { rewrite <- Hdiff, <- Hs. apply set_eq. intros z.
          rewrite elem_of_union, elem_of_difference, elem_of_singleton.
          destruct (decide (z = length a)) as [->|Hne'].
          - split; [by right|]. intros _. by apply Hn.
          - split; [by left|]. by intros [[Hz _]|Hz]. }
        rewrite Hs' in Hsize |- *.
        rewrite size_swap_one in Hsize by (done || (intros ?; eauto)).
        destruct (W6 x Hx Hsize) as (b & y & z & Hb & Hlast & Hyz).
        assert (y ≠ z) as Hyz'.
        { intros ->. rewrite Hyz in Hsize.
          rewrite (union_idemp_L _) in Hsize.
          rewrite size_singleton in Hsize. lia. }
        assert (y ∈ live ∧ z ∈ live) as [Hy Hz]
          by (split; apply (W2 x); auto; rewrite Hyz; set_solver).
        rewrite Hyz in Hes.
        apply elem_of_union in Hes as [Hes%elem_of_singleton
                                       | Hes%elem_of_singleton]; subst.
        -- exists b, (length a), z. split_and!; [done| |].
           ++ rewrite Hnew, (Hentry z) by done. done.
           ++ rewrite Hyz. apply set_eq. intros w.
              rewrite !elem_of_union, !elem_of_difference, !elem_of_union,
                !elem_of_singleton.
              intuition congruence.
        -- exists b, y, (length a). split_and!; [done| |].
           ++ rewrite Hnew, (Hentry y) by done. done.
           ++ rewrite Hyz. apply set_eq. intros w.
              rewrite !elem_of_union, !elem_of_difference, !elem_of_union,
                !elem_of_singleton.
              intuition congruence.
      * assert (node_successors (get a' x) = node_successors (get a x))
          as Hs'.
        { apply set_eq. intros z.
          destruct (decide (z = length a)) as [->|].
          - split; intros H; [by apply Hn in H | exfalso; eauto].
          - split; intros Hz.
            + assert (z ∈ node_successors (get a' x) ∖ {[ length a ]}) as Hz'
                by (apply elem_of_difference; split;
                    [done|by rewrite elem_of_singleton]).
              rewrite Hs in Hz'. by apply elem_of_difference in Hz' as [].
            + assert (z ∈ node_successors (get a x) ∖ members) as Hz'
                by (apply elem_of_difference; split;
                    [done|by apply (F2 x Hx HxM Hp)]).
              rewrite <- Hs in Hz'. by apply elem_of_difference in Hz' as []. }
        rewrite Hs' in Hsize |- *.
        destruct (W6 x Hx Hsize) as (b & y & z & Hb & Hlast & Hyz).
        exists b, y, z.
        assert (y ∈ live ∧ z ∈ live) as [Hy Hz]
          by (split; apply (W2 x); auto; rewrite Hyz; set_solver).
        by rewrite !Hentry.
    + rewrite Hnew in Hsize |- *. cbn in Hsize |- *.
      destruct (W6 exit_node Hxlive Hsize) as (b & y & z & Hb & Hlast & Hyz).
      exists b, y, z.
      assert (y ∈ live ∧ z ∈ live) as [Hy Hz]
        by (split; apply (W2 exit_node); auto; rewrite Hyz; set_solver).
      by rewrite !Hentry.
Qed.


Lemma size_ge_2 (M : gset nat) (u v : nat) :
  u ∈ M → v ∈ M → u ≠ v → 2 ≤ size M.
Proof.
  intros Hu Hv Hne.
  assert (({[ u; v ]} : gset nat) ⊆ M) as Hsub by set_solver.
  apply subseteq_size in Hsub.
  rewrite size_union, !size_singleton in Hsub by set_solver. done.
Qed.

(** *** Reverse postorder *)

Lemma position_le (l : list nat) (b : nat) : position l b ≤ length l.
Proof.
  unfold position.
  destruct (list_find _ l) as [[i x]|] eqn:E; simpl; [|done].
  apply list_find_Some in E as (E & _). apply lookup_lt_Some in E. lia.
Qed.

Lemma rank_le (f : function) (b : nat) : rank f b ≤ length (postorder f).
Proof.
  unfold rank. pose proof (position_le (reverse (postorder f)) b) as H.
  by rewrite length_reverse in H.
Qed.

(** *** The walks of [check_for_block_node] *)

Lemma chain_lookup (a : arena) (l : list nat) (i u v : nat) :
  chain a l → l !! i = Some u → l !! S i = Some v → linked a u v.
Proof.
  revert i. induction l as [|w l IH]; intros i Hc Hu Hv; [done|].
  destruct Hc as [Hw Hc]. destruct i as [|i].
  - simpl in Hu, Hv. simplify_eq. destruct l; simplify_eq/=. done.
  - simpl in Hu. by apply (IH i).
Qed.

Lemma chain_app (a : arena) (l1 l2 : list nat) (u : nat) :
  chain a (l1 ++ [u]) → chain a (u :: l2) → chain a (l1 ++ u :: l2).
Proof.
  intros H1 H2. induction l1 as [|w l1 IH]; [done|].
  destruct H1 as [Hw H1]. split; [|by apply IH].
  destruct l1; done.
Qed.

Lemma chain_snoc (a : arena) (l : list nat) (u v : nat) :
  chain a (l ++ [u]) → linked a u v → chain a ((l ++ [u]) ++ [v]).
Proof.
  intros H1 H2. rewrite <- app_assoc. apply chain_app; [done|].
  simpl. done.
Qed.

End StructuralExtractorReduction.


Section StructuralExtractorWalks.
Import StructuralExtractor.

Lemma elem_of_pair (x u v : nat) :
  x ∈ ({[ u; v ]} : gset nat) ↔ x = u ∨ x = v.
Proof. by rewrite elem_of_union, !elem_of_singleton. Qed.

Lemma elem_of_triple (x u v w : nat) :
  x ∈ ({[ u; v; w ]} : gset nat) ↔ x = u ∨ x = v ∨ x = w.
Proof. rewrite !elem_of_union, !elem_of_singleton. tauto. Qed.

Lemma size_1_singleton (s : gset nat) (x : nat) :
  size s = 1 → x ∈ s → s = {[ x ]}.
Proof.
  intros Hs Hx. apply size_1_elem_of in Hs as [y Hy].
  apply leibniz_equiv in Hy. subst s.
  apply elem_of_singleton in Hx. by subst.
Qed.

Lemma linked_one_successor (a : arena) (u s : nat) :
  linked a u s →
  one (node_successors (get a u)) = Some s
  ∧ size (node_predecessors (get a s)) = 1.
Proof.
  intros [Hs Hp]. split; [by apply one_Some|].
  rewrite Hp. apply size_singleton.
Qed.

Lemma linked_one_predecessor (a : arena) (p u : nat) :
  linked a p u →
  one (node_predecessors (get a u)) = Some p
  ∧ size (node_successors (get a p)) = 1.
Proof.
  intros [Hs Hp]. split; [by apply one_Some|].
  rewrite Hs. apply size_singleton.
Qed.

Lemma head_app_default (l1 l2 : list nat) (d : nat) :
  head (l1 ++ d :: l2) = Some (default d (head l1)).
Proof. by destruct l1. Qed.

Lemma last_app_default (l1 l2 : list nat) (d : nat) :
  last (l1 ++ d :: l2) = Some (default d (last l2)).
Proof. rewrite last_app, last_cons. by destruct (last l2). Qed.

Section Walks.
Context (f : function) (a : arena) (live : gset nat).
Context (Hwf : well_formed f a live).

Lemma live_lt (x : nat) : x ∈ live → x < length a.
Proof. destruct Hwf as (_ & W1 & _). apply W1. Qed.

Lemma live_successor (x y : nat) :
  x ∈ live → y ∈ node_successors (get a x) → y ∈ live.
Proof. destruct Hwf as (_ & _ & W2 & _). apply W2. Qed.

Lemma live_predecessor (x y : nat) :
  x ∈ live → y ∈ node_predecessors (get a x) → y ∈ live.
Proof. destruct Hwf as (_ & _ & _ & W2 & _). apply W2. Qed.

Lemma live_edge (x y : nat) :
  x ∈ live → y ∈ live →
  y ∈ node_successors (get a x) ↔ x ∈ node_predecessors (get a y).
Proof. destruct Hwf as (_ & _ & _ & _ & W3 & _). apply W3. Qed.

Lemma live_entry (x y : nat) :
  x ∈ live → y ∈ live →
  entry_block (get a x) = entry_block (get a y) → x = y.
Proof. destruct Hwf as (_ & _ & _ & _ & _ & W4 & _). apply W4. Qed.

Lemma live_rank (x y : nat) :
  x ∈ live → y ∈ node_successors (get a x) →
  rank f (entry_block (get a x)) < rank f (entry_block (get a y)).
Proof. destruct Hwf as (_ & _ & _ & _ & _ & _ & W5 & _). apply W5. Qed.

Lemma live_branch (x : nat) :
  x ∈ live → size (node_successors (get a x)) = 2 →
  ∃ b y z,
    blocks f !! exit_block (get a x) = Some b
    ∧ last (code b)
      = Some (BranchInst (entry_block (get a y)) (entry_block (get a z)))
    ∧ node_successors (get a x) = {[ y; z ]}.
Proof. destruct Hwf as (_ & _ & _ & _ & _ & _ & _ & W6). apply W6. Qed.

Lemma live_no_self_loop (x : nat) :
  x ∈ live → x ∉ node_successors (get a x).
Proof. intros Hx Hs. pose proof (live_rank x x Hx Hs). lia. Qed.

Lemma live_no_two_cycle (x y : nat) :
  x ∈ live → y ∈ node_successors (get a x) →
  x ∉ node_successors (get a y).
Proof.
  intros Hx Hy Hs. pose proof (live_rank x y Hx Hy).
  pose proof (live_rank y x (live_successor x y Hx Hy) Hs). lia.
Qed.

Lemma link_forward (u s : nat) :
  u ∈ live → one (node_successors (get a u)) = Some s →
  size (node_predecessors (get a s)) = 1 →
  linked a u s ∧ s ∈ live.
Proof.
  intros Hu Hs Hp. apply one_Some in Hs.
  assert (s ∈ live) as Hlive
    by (apply (live_successor u); [done|]; rewrite Hs; set_solver).
  split; [|done]. split; [done|].
  apply size_1_elem_of in Hp as [p Hp]. apply leibniz_equiv in Hp.
  assert (u ∈ node_predecessors (get a s)) as Hin
    by (apply live_edge; [done..|]; rewrite Hs; set_solver).
  rewrite Hp in Hin |- *. set_solver.
Qed.

Lemma link_backward (u p : nat) :
  u ∈ live → one (node_predecessors (get a u)) = Some p →
  size (node_successors (get a p)) = 1 →
  linked a p u ∧ p ∈ live.
Proof.
  intros Hu Hp Hs. apply one_Some in Hp.
  assert (p ∈ live) as Hlive
    by (apply (live_predecessor u); [done|]; rewrite Hp; set_solver).
  split; [|done]. split; [|done].
  apply size_1_elem_of in Hs as [s Hs]. apply leibniz_equiv in Hs.
  assert (u ∈ node_successors (get a p)) as Hin
    by (apply live_edge; [done..|]; rewrite Hp; set_solver).
  rewrite Hs in Hin |- *. set_solver.
Qed.

Lemma linked_rank (u v : nat) :
  u ∈ live → linked a u v →
  rank f (entry_block (get a u)) < rank f (entry_block (get a v)).
Proof.
  intros Hu [Hs _]. apply live_rank; [done|]. rewrite Hs. set_solver.
Qed.

(** The walk along successors ends: the rank grows at every step. *)
Lemma follow_successors_spec (fuel u : nat) :
  u ∈ live →
  length (postorder f) - rank f (entry_block (get a u)) < fuel →
  ∃ l, follow_successors fuel a u = Some l
       ∧ chain a (u :: l) ∧ Forall (fun x => x ∈ live) l
       ∧ ∀ s, ¬ linked a (default u (last l)) s.
Proof.
  revert u. induction fuel as [|fuel IH]; intros u Hu Hfuel; [lia|].
  simpl. destruct (one (node_successors (get a u))) as [s|] eqn:Hs.
  2: { exists []. split_and!; [done..|].
       intros s [H _]%linked_one_successor. simpl in H. congruence. }
  case_decide as Hp.
  2: { exists []. split_and!; [done..|].
       intros s' [H1 H2]%linked_one_successor. simpl in H1.
       by simplify_eq. }
  destruct (link_forward u s Hu Hs Hp) as [Hlink Hlive].
  pose proof (linked_rank u s Hu Hlink) as Hrank.
  pose proof (rank_le f (entry_block (get a s))) as Hle.
  destruct (IH s Hlive) as (l & -> & Hc & Hl & Hend); [lia|].
  exists (s :: l). split; [done|]. split; [|split; [by constructor|]].
  - cbn [chain]. split; [done|exact Hc].
  - rewrite last_cons. by destruct (last l).
Qed.

Lemma follow_predecessors_spec (fuel u : nat) :
  u ∈ live →
  rank f (entry_block (get a u)) < fuel →
  ∃ l, follow_predecessors fuel a u = Some l
       ∧ chain a (reverse l ++ [u]) ∧ Forall (fun x => x ∈ live) l
       ∧ ∀ p, ¬ linked a p (default u (last l)).
Proof.
  revert u. induction fuel as [|fuel IH]; intros u Hu Hfuel; [lia|].
  simpl. destruct (one (node_predecessors (get a u))) as [p|] eqn:Hp.
  2: { exists []. split_and!; [done..|].
       intros p [H _]%linked_one_predecessor. simpl in H. congruence. }
  case_decide as Hs.
  2: { exists []. split_and!; [done..|].
       intros p' [H1 H2]%linked_one_predecessor. simpl in H1.
       by simplify_eq. }
  destruct (link_backward u p Hu Hp Hs) as [Hlink Hlive].
  pose proof (linked_rank p u Hlive Hlink) as Hrank.
  destruct (IH p Hlive) as (l & -> & Hc & Hl & Hend); [lia|].
  exists (p :: l). split; [done|]. split; [|split; [by constructor|]].
  - rewrite reverse_cons. by apply chain_snoc.
  - rewrite last_cons. by destruct (last l).
Qed.

Lemma chain_rank_mono (l : list nat) (i j u v : nat) :
  chain a l → Forall (fun x => x ∈ live) l →
  i ≤ j → l !! i = Some u → l !! j = Some v →
  rank f (entry_block (get a u)) ≤ rank f (entry_block (get a v)).
Proof.
  intros Hc Hl. revert v. induction j as [|j IH]; intros v Hij Hu Hv.
  - assert (i = 0) as -> by lia. by simplify_eq.
  - destruct (decide (i = S j)) as [->|Hne]; [by simplify_eq|].
    destruct (lookup_lt_is_Some_2 l j) as [w Hw];
      [apply lookup_lt_Some in Hv; lia|].
    pose proof (IH w ltac:(lia) Hu Hw).
    pose proof (chain_lookup a l j w v Hc Hw Hv) as Hlink.
    apply linked_rank in Hlink;
      [lia|by eapply Forall_lookup_1 in Hl].
Qed.

(** The nodes of a walk may be contracted. *)
Lemma chain_contractible (l : list nat) (e x : nat) :
  chain a l → Forall (fun y => y ∈ live) l →
  head l = Some e → last l = Some x →
  contractible f a live (list_to_set l) e x.
Proof.
  intros Hc Hl He Hx. rewrite head_lookup in He. rewrite last_lookup in Hx.
  assert (∀ m, m ∈ l → m ∈ live) as Hlive
    by (by apply Forall_forall).
  assert (∀ m, m ∈ (list_to_set l : gset nat) →
            rank f (entry_block (get a e)) ≤ rank f (entry_block (get a m))
            ∧ rank f (entry_block (get a m))
              ≤ rank f (entry_block (get a x))) as Hrank.
  { intros m Hm%elem_of_list_to_set.
    apply list_elem_of_lookup in Hm as [i Hi].
    pose proof (lookup_lt_Some _ _ _ Hi).
    split; [apply (chain_rank_mono l 0 i)|
            apply (chain_rank_mono l i (pred (length l)))];
      auto; lia. }
  unfold contractible. split_and!.
  - intros m Hm%elem_of_list_to_set. auto.
  - apply elem_of_list_to_set. by eapply list_elem_of_lookup_2.
  - apply elem_of_list_to_set. by eapply list_elem_of_lookup_2.
  - intros p m Hp HpM Hm Hs.
    pose proof Hm as Hm'%elem_of_list_to_set.
    apply list_elem_of_lookup in Hm' as [[|i] Hi];
      [by simplify_eq|].
    destruct (lookup_lt_is_Some_2 l i) as [q Hq];
      [apply lookup_lt_Some in Hi; lia|].
    destruct (chain_lookup a l i q m Hc Hq Hi) as [_ Hpred].
    exfalso. apply HpM. apply elem_of_list_to_set.
    assert (p = q) as ->; [|by eapply list_elem_of_lookup_2].
    assert (p ∈ node_predecessors (get a m)) as Hin
      by (apply live_edge; [done| |done];
          apply Hlive; by eapply list_elem_of_lookup_2).
    rewrite Hpred in Hin. set_solver.
  - intros m s Hm Hs HsM.
    pose proof Hm as Hm'%elem_of_list_to_set.
    apply list_elem_of_lookup in Hm' as [i Hi].
    destruct (decide (S i < length l)) as [Hlt|Hge].
    + destruct (lookup_lt_is_Some_2 l (S i) Hlt) as [s' Hs'].
      destruct (chain_lookup a l i m s' Hc Hi Hs') as [Hsucc _].
      exfalso. apply HsM. apply elem_of_list_to_set.
      assert (s = s') as ->; [|by eapply list_elem_of_lookup_2].
      rewrite Hsucc in Hs. set_solver.
    + pose proof (lookup_lt_Some _ _ _ Hi).
      assert (i = pred (length l)) as -> by lia. by simplify_eq.
  - intros m Hm Hin.
    assert (e ∈ live) as Helive
      by (apply Hlive; by eapply list_elem_of_lookup_2).
    assert (m ∈ live) as Hmlive
      by (apply Hlive; by apply elem_of_list_to_set in Hm).
    apply live_edge in Hin; [|done..].
    pose proof (live_rank m e Hmlive Hin).
    destruct (Hrank m Hm). lia.
  - intros m Hm Hin.
    assert (x ∈ live) as Hxlive
      by (apply Hlive; by eapply list_elem_of_lookup_2).
    pose proof (live_rank x m Hxlive Hin).
    destruct (Hrank m Hm). lia.
  - intros m Hm. by destruct (Hrank m Hm).
Qed.


Lemma chain_rank_strict (l : list nat) (i j u v : nat) :
  chain a l → Forall (fun x => x ∈ live) l →
  i < j → l !! i = Some u → l !! j = Some v →
  rank f (entry_block (get a u)) < rank f (entry_block (get a v)).
Proof.
  intros Hc Hl Hij Hu Hv.
  destruct (lookup_lt_is_Some_2 l (S i)) as [w Hw];
    [apply lookup_lt_Some in Hv; lia|].
  pose proof (chain_lookup a l i u w Hc Hu Hw) as Hlink.
  apply linked_rank in Hlink; [|by eapply Forall_lookup_1 in Hl].
  pose proof (chain_rank_mono l (S i) j w v Hc Hl ltac:(lia) Hw Hv). lia.
Qed.

Lemma chain_NoDup (l : list nat) :
  chain a l → Forall (fun x => x ∈ live) l → NoDup l.
Proof.
  intros Hc Hl. apply NoDup_alt. intros i j x Hi Hj.
  destruct (decide (i < j)) as [Hlt|Hge].
  - pose proof (chain_rank_strict l i j x x Hc Hl Hlt Hi Hj). lia.
  - destruct (decide (j < i)) as [Hlt|Hge']; [|lia].
    pose proof (chain_rank_strict l j i x x Hc Hl Hlt Hj Hi). lia.
Qed.

(** What [check_for_block_node] returns on a graph without cycles. *)
Lemma check_for_block_node_spec (node : nat) :
  node ∈ live →
  ∃ ps ss,
    check_for_block_node a node
    = (if decide (ps = [] ∧ ss = []) then Done None
       else Done (Some (contract a (BlockNode (reverse ps ++ node :: ss))
                     (list_to_set (reverse ps ++ node :: ss))
                     (default node (last ps)) (default node (last ss)))))
    ∧ chain a (reverse ps ++ node :: ss)
    ∧ Forall (fun x => x ∈ live) (reverse ps ++ node :: ss)
    ∧ (∀ p, ¬ linked a p (default node (last ps)))
    ∧ (∀ s, ¬ linked a (default node (last ss)) s).
Proof.
  intros Hnode.
  pose proof (rank_le f (entry_block (get a node))) as Hrank.
  assert (length (postorder f) ≤ length a) as Hlen
    by (by destruct Hwf as (W0 & _)).
  destruct (follow_predecessors_spec (S (length a)) node Hnode)
    as (ps & Hps & Hcp & Hlp & Hendp); [lia|].
  destruct (follow_successors_spec (S (length a)) node Hnode)
    as (ss & Hss & Hcs & Hls & Hends); [lia|].
  exists ps, ss. split_and!; [|by apply chain_app| |done..].
  - unfold check_for_block_node. rewrite Hps, Hss.
    assert (default node (head (reverse ps ++ [node] ++ ss))
            = default node (last ps)) as ->.
    { cbn [app]. rewrite head_app_default. simpl.
      by rewrite head_reverse. }
    assert (default node (last (reverse ps ++ [node] ++ ss))
            = default node (last ss)) as ->.
    { cbn [app]. by rewrite last_app_default. }
    destruct ps, ss; try done; case_decide as H; try done;
      by destruct H.
  - apply Forall_app. split; [by apply Forall_reverse|by constructor].
Qed.

Lemma block_contractible (node : nat) (ps ss : list nat) :
  chain a (reverse ps ++ node :: ss) →
  Forall (fun x => x ∈ live) (reverse ps ++ node :: ss) →
  ¬ (ps = [] ∧ ss = []) →
  contractible f a live (list_to_set (reverse ps ++ node :: ss))
    (default node (last ps)) (default node (last ss))
  ∧ 2 ≤ size (list_to_set (reverse ps ++ node :: ss) : gset nat).
Proof.
  intros Hc Hl Hne. split.
  - apply chain_contractible; [done..| |].
    + rewrite head_app_default. by rewrite head_reverse.
    + by rewrite last_app_default.
  - rewrite size_list_to_set by (by apply chain_NoDup).
    rewrite length_app, length_reverse. simpl.
    destruct ps, ss; simpl; try lia. by destruct Hne.
Qed.

Lemma if_then_contractible (node t m : nat) :
  node ∈ live →
  node_successors (get a node) = {[ t; m ]} →
  size (node_successors (get a t)) = 1 →
  size (node_predecessors (get a t)) = 1 →
  m ∈ node_successors (get a t) →
  node ≠ t → node ≠ m →
  contractible f a live {[ node; t ]} node t.
Proof.
  intros Hnode Hs Hst Hpt Hm Hnt Hnm.
  assert (t ∈ node_successors (get a node)) as Htn
    by (rewrite Hs; apply elem_of_pair; auto).
  assert (t ∈ live) as Ht by (by apply (live_successor node)).
  assert (node_predecessors (get a t) = {[ node ]}) as Hpred
    by (apply size_1_singleton; [done|by apply live_edge]).
  assert (node_successors (get a t) = {[ m ]}) as Hsucc
    by (by apply size_1_singleton).
  unfold contractible. split_and!.
  - intros x [->| ->]%elem_of_pair; done.
  - apply elem_of_pair; auto.
  - apply elem_of_pair; auto.
  - intros p mm Hp HpM [->| ->]%elem_of_pair Hin; [done|].
    apply live_edge in Hin; [|done..]. rewrite Hpred in Hin.
    apply elem_of_singleton in Hin as ->.
    exfalso. apply HpM. apply elem_of_pair; auto.
  - intros mm s [->| ->]%elem_of_pair Hin HsM; [|done].
    rewrite Hs in Hin. apply elem_of_pair in Hin as [->| ->].
    + exfalso. apply HsM. apply elem_of_pair; auto.
    + done.
  - intros mm [->| ->]%elem_of_pair Hin.
    + apply live_edge in Hin; [|done..].
      by apply (live_no_self_loop node).
    + apply live_edge in Hin; [|done..].
      by apply (live_no_two_cycle node t).
  - intros mm HmM Hin. rewrite Hsucc in Hin.
    apply elem_of_singleton in Hin as ->.
    apply elem_of_pair in HmM as [->| ->]; [done|].
    by apply (live_no_self_loop t).
  - intros mm [->| ->]%elem_of_pair; [done|].
    pose proof (live_rank node t Hnode Htn). lia.
Qed.

Lemma if_then_else_contractible (node t e m : nat) :
  node ∈ live →
  node_successors (get a node) = {[ t; e ]} →
  size (node_predecessors (get a t)) = 1 →
  size (node_predecessors (get a e)) = 1 →
  node_successors (get a t) = {[ m ]} →
  node_successors (get a e) = {[ m ]} →
  node ≠ t → node ≠ e → node ≠ m → t ≠ m → e ≠ m →
  contractible f a live {[ node; t; e ]} node t.
Proof.
  intros Hnode Hs Hpt Hpe Hst Hse Hnt Hne Hnm Htm Hem.
  assert (t ∈ node_successors (get a node)) as Htn
    by (rewrite Hs; apply elem_of_pair; auto).
  assert (e ∈ node_successors (get a node)) as Hen
    by (rewrite Hs; apply elem_of_pair; auto).
  assert (t ∈ live) as Ht by (by apply (live_successor node)).
  assert (e ∈ live) as He by (by apply (live_successor node)).
  assert (node_predecessors (get a t) = {[ node ]}) as Hpredt
    by (apply size_1_singleton; [done|by apply live_edge]).
  assert (node_predecessors (get a e) = {[ node ]}) as Hprede
    by (apply size_1_singleton; [done|by apply live_edge]).
  unfold contractible. split_and!.
  - intros x [->|[->| ->]]%elem_of_triple; done.
  - apply elem_of_triple; auto.
  - apply elem_of_triple; auto.
  - intros p mm Hp HpM HmM Hin.
    assert (mm ∈ live)
      by (apply elem_of_triple in HmM as [->|[->| ->]]; done).
    apply live_edge in Hin; [|done..].
    apply elem_of_triple in HmM as [->|[->| ->]]; [done|..].
    + rewrite Hpredt in Hin. apply elem_of_singleton in Hin as ->.
      exfalso. apply HpM. apply elem_of_triple; auto.
    + rewrite Hprede in Hin. apply elem_of_singleton in Hin as ->.
      exfalso. apply HpM. apply elem_of_triple; auto.
  - intros mm s [->|[->| ->]]%elem_of_triple Hin HsM; [|done|].
    + rewrite Hs in Hin. exfalso. apply HsM. apply elem_of_triple.
      apply elem_of_pair in Hin as [->| ->]; auto.
    + by rewrite Hst, <- Hse.
  - intros mm HmM Hin.
    assert (mm ∈ live)
      by (apply elem_of_triple in HmM as [->|[->| ->]]; done).
    apply live_edge in Hin; [|done..].
    apply elem_of_triple in HmM as [->|[->| ->]].
    + by apply (live_no_self_loop node).
    + by apply (live_no_two_cycle node t).
    + by apply (live_no_two_cycle node e).
  - intros mm HmM Hin. rewrite Hst in Hin.
    apply elem_of_singleton in Hin as ->.
    apply elem_of_triple in HmM as [->|[->| ->]]; done.
  - intros mm [->|[->| ->]]%elem_of_triple; [done|..].
    + pose proof (live_rank node t Hnode Htn). lia.
    + pose proof (live_rank node e Hnode Hen). lia.
Qed.


(** What [check_for_if_then_node] returns on a graph without cycles. *)
Lemma check_for_if_then_node_spec (node : nat) :
  node ∈ live →
  check_for_if_then_node a node = Done None
  ∨ ∃ t, check_for_if_then_node a node
         = Done (Some (contract a (IfThenNode node t) {[ node; t ]} node t))
         ∧ contractible f a live {[ node; t ]} node t
         ∧ node ≠ t.
Proof.
  intros Hnode. unfold check_for_if_then_node.
  destruct (elements (node_successors (get a node)))
    as [|x [|y [|]]] eqn:He; auto.
  apply elements_pair in He as [Hs Hxy].
  assert (node_successors (get a node) = {[ y; x ]}) as Hs'
    by (rewrite Hs; apply set_eq; intros z; rewrite !elem_of_pair; tauto).
  destruct (decide (x ∈ node_successors (get a y))) as [Hxy'|Hxy'];
    cbv beta iota; case_decide as Hc; auto; right.
  - exists y. split; [done|].
    split; [|by intros ->; apply Hc; auto].
    apply (if_then_contractible node y x); try done;
      apply dec_stable; intros H; apply Hc; tauto.
  - exists x. split; [done|].
    split; [|by intros ->; apply Hc; auto].
    apply (if_then_contractible node x y); try done;
      apply dec_stable; intros H; apply Hc; tauto.
Qed.

(** On a graph without cycles the assertions of
    [check_for_if_then_else_node] hold. *)
Lemma check_for_if_then_else_node_spec (node : nat) :
  node ∈ live →
  check_for_if_then_else_node a f node = Done None
  ∨ ∃ t e, check_for_if_then_else_node a f node
           = Done (Some (contract a (IfThenElseNode node t e)
                           {[ node; t; e ]} node t))
           ∧ contractible f a live {[ node; t; e ]} node t
           ∧ node ≠ t.
Proof.
  intros Hnode. unfold check_for_if_then_else_node.
  destruct (elements (node_successors (get a node)))
    as [|x [|y [|]]] eqn:He; auto.
  apply elements_pair in He as [Hs Hxy].
  assert (size (node_successors (get a node)) = 2) as Hsize.
  { rewrite Hs, size_union, !size_singleton; [done|].
    intros z. rewrite !elem_of_singleton. congruence. }
  destruct (live_branch node Hnode Hsize)
    as (b & y0 & z0 & Hb & Hlast & Hyz).
  rewrite Hb. cbn [mbind option_bind]. rewrite Hlast.
  assert (x ∈ live ∧ y ∈ live) as [Hx Hy]
    by (split; apply (live_successor node); try done;
        rewrite Hs; apply elem_of_pair; auto).
  assert ((x = y0 ∧ y = z0) ∨ (x = z0 ∧ y = y0)) as Horder.
  { assert (x ∈ ({[ y0; z0 ]} : gset nat)) as Hx'
      by (rewrite <- Hyz, Hs; apply elem_of_pair; auto).
    assert (y ∈ ({[ y0; z0 ]} : gset nat)) as Hy'
      by (rewrite <- Hyz, Hs; apply elem_of_pair; auto).
    apply elem_of_pair in Hx', Hy'.
    destruct Hx' as [Hx'|Hx'], Hy' as [Hy'|Hy']; subst; auto; done. }
  assert (node_successors (get a node) = {[ y; x ]}) as Hs'
    by (rewrite Hs; apply set_eq; intros z; rewrite !elem_of_pair; tauto).
  assert (∀ t e : nat,
    t ∈ live → e ∈ live →
    node_successors (get a node) = {[ t; e ]} →
    entry_block (get a t) = entry_block (get a y0) →
    entry_block (get a e) = entry_block (get a z0) →
    (if decide (entry_block (get a t) = entry_block (get a y0)
                ∧ entry_block (get a e) = entry_block (get a z0))
     then
       if decide (size (node_predecessors (get a t)) ≠ 1
                  ∨ size (node_predecessors (get a e)) ≠ 1)
       then Done None
       else if decide (node_successors (get a t)
                       ≠ node_successors (get a e)
                       ∨ size (node_successors (get a t)) ≠ 1)
       then Done None
       else
         match one (node_successors (get a t)) with
         | Some merge_node =>
             if decide (node = t ∨ node = e ∨ node = merge_node
                        ∨ t = merge_node ∨ e = merge_node)
             then Done None
             else Done (Some (contract a (IfThenElseNode node t e)
                                {[ node; t; e ]} node t))
         | None => Failed ValueError
         end
     else Failed AssertionError)
    = Done None
    ∨ ∃ t' e',
        (if decide (entry_block (get a t) = entry_block (get a y0)
                    ∧ entry_block (get a e) = entry_block (get a z0))
         then
           if decide (size (node_predecessors (get a t)) ≠ 1
                      ∨ size (node_predecessors (get a e)) ≠ 1)
           then Done None
           else if decide (node_successors (get a t)
                           ≠ node_successors (get a e)
                           ∨ size (node_successors (get a t)) ≠ 1)
           then Done None
           else
             match one (node_successors (get a t)) with
             | Some merge_node =>
                 if decide (node = t ∨ node = e ∨ node = merge_node
                            ∨ t = merge_node ∨ e = merge_node)
                 then Done None
                 else Done (Some (contract a (IfThenElseNode node t e)
                                    {[ node; t; e ]} node t))
             | None => Failed ValueError
             end
         else Failed AssertionError)
        = Done (Some (contract a (IfThenElseNode node t' e')
                        {[ node; t'; e' ]} node t'))
        ∧ contractible f a live {[ node; t'; e' ]} node t'
        ∧ node ≠ t') as Hbody.
  { intros t e Ht Hel Hte Het Hee.
    rewrite decide_True by done.
    case_decide as Hp; auto. case_decide as Hq; auto.
    assert (size (node_successors (get a t)) = 1) as Hone
      by (apply dec_stable; tauto).
    destruct (one (node_successors (get a t))) as [m|] eqn:Hm;
      [|by apply one_None_size in Hm].
    apply one_Some in Hm.
    case_decide as Hd; auto. right. exists t, e.
    split; [done|]. split; [|by intros ->; apply Hd; auto].
    apply (if_then_else_contractible node t e m); try done;
      try (apply dec_stable; tauto);
      try (intros ->; apply Hd; tauto).
    rewrite <- Hm. symmetry. apply dec_stable. tauto. }
  destruct Horder as [[-> ->]|[-> ->]].
  - rewrite decide_False.
    + by apply Hbody.
    + intros Heq. apply Hxy. symmetry. by apply live_entry.
  - rewrite decide_True by done. by apply Hbody.
Qed.

(** The detectors, tried in turn, never raise on a graph without cycles;
    what they match may be contracted. *)
Lemma detect_spec (node : nat) :
  node ∈ live →
  detect a f node = Done None
  ∨ ∃ sh members entry_node exit_node,
      detect a f node
      = Done (Some (contract a sh members entry_node exit_node))
      ∧ contractible f a live members entry_node exit_node
      ∧ 2 ≤ size members
      ∧ is_unstructured sh = false.
Proof.
  intros Hnode. unfold detect.
  destruct (check_for_block_node_spec node Hnode)
    as (ps & ss & -> & Hc & Hl & _).
  case_decide as Hempty.
  - destruct (check_for_if_then_node_spec node Hnode)
      as [->|(t & -> & Hct & Hne)].
    + destruct (check_for_if_then_else_node_spec node Hnode)
        as [->|(t & e & -> & Hct & Hne)]; auto.
      right. eexists _, _, _, _. split_and!; [done..| |done].
      apply (size_ge_2 _ node t); [apply elem_of_triple; auto..|done].
    + right. eexists _, _, _, _. split_and!; [done..| |done].
      apply (size_ge_2 _ node t); [apply elem_of_pair; auto..|done].
  - right. eexists _, _, _, _. split; [done|].
    destruct (block_contractible node ps ss Hc Hl Hempty). done.
Qed.

End Walks.


(** *** [struct_of] *)











(** *** The loop over the nodes *)


Lemma size_contracted (live members : gset nat) (n : nat) :
  members ⊆ live → 2 ≤ size members → n ∉ live →
  size (live ∖ members ∪ {[ n ]}) < size live.
Proof.
  intros Hsub Hsize Hn.
  rewrite size_union.
  - rewrite size_singleton.
    pose proof (size_union_alt members live) as Hu.
    assert (members ∪ live = live) as Heq.
    { apply set_eq. intros z. rewrite elem_of_union. split; [|auto].
      intros [H|H]; [by apply Hsub|done]. }
    rewrite Heq in Hu. lia.
  - intros z [Hz _]%elem_of_difference Hz'%elem_of_singleton. by subst.
Qed.





(** *** The rebuilt list of nodes *)





(** *** The first list of nodes *)

Lemma consistent_block (f : function) (i : nat) :
  consistent f → i < length (blocks f) →
  (∀ s, s ∈ successors (block_at f i) →
        s < length (blocks f) ∧ i ∈ predecessors (block_at f s))
  ∧ (∀ p, p ∈ predecessors (block_at f i) →
          p < length (blocks f) ∧ i ∈ successors (block_at f p))
  ∧ (size (successors (block_at f i)) = 2 →
     branch_targets (block_at f i)
     ≫= (fun te => Some ({[ te.1; te.2 ]} : gset nat))
     = Some (successors (block_at f i)))
  ∧ i ∈ postorder f.
Proof.
  intros (Hall & _) Hi. rewrite Forall_forall in Hall.
  destruct (Hall i) as (H1 & H2 & H3 & H4);
    [apply elem_of_seq; lia|].
  split_and!; [|   |done..].
  - intros s Hs. by apply H1.
  - intros p Hp. by apply H2.
Qed.

Lemma block_nodes_consistent (f : function) :
  consistent f →
  block_nodes f
  = Done (imap (fun i b =>
                  set_predecessors (predecessors b)
                    (set_successors (successors b) (single_node i i)))
            (blocks f)).
Proof.
  intros Hc. unfold block_nodes. rewrite decide_True; [done|].
  apply Forall_lookup. intros i b Hb.
  pose proof (lookup_lt_Some _ _ _ Hb) as Hi.
  destruct (consistent_block f i Hc Hi) as (H1 & H2 & _).
  unfold block_at in H1, H2. rewrite Hb in H1, H2. simpl in H1, H2.
  split; intros x Hx; [by apply H1|by apply H2].
Qed.

Lemma get_block_node (f : function) (i : nat) :
  i < length (blocks f) →
  get (imap (fun i b =>
               set_predecessors (predecessors b)
                 (set_successors (successors b) (single_node i i)))
         (blocks f)) i
  = {| node_shape := SingleNode i;
       node_successors := successors (block_at f i);
       node_predecessors := predecessors (block_at f i);
       entry_block := i; exit_block := i; nodes := {[ i ]} |}.
Proof.
  intros Hi. destruct (lookup_lt_is_Some_2 (blocks f) i Hi) as [b Hb].
  unfold get, block_at. by rewrite list_lookup_imap, Hb.
Qed.

Lemma elem_of_edges (f : function) (i s : nat) :
  i < length (blocks f) → s ∈ successors (block_at f i) →
  (i, s) ∈ edges f.
Proof.
  intros Hi Hs. destruct (lookup_lt_is_Some_2 (blocks f) i Hi) as [b Hb].
  unfold block_at in Hs. rewrite Hb in Hs. simpl in Hs.
  unfold edges. apply list_elem_of_In, in_flat_map.
  exists (i, b). split.
  - apply list_elem_of_In, list_elem_of_lookup. exists i.
    by rewrite list_lookup_imap, Hb.
  - apply list_elem_of_In, list_elem_of_fmap. exists s.
    split; [done|]. by apply elem_of_elements.
Qed.

(** The nodes [__call__] starts from satisfy the invariant of its loop. *)
Lemma initial_invariant (f : function) :
  consistent f → topologically_ordered f → postorder f ≠ [] →
  ∃ a,
    block_nodes f = Done a
    ∧ initial_nodes f = Done (reverse (postorder f))
    ∧ loop_invariant f a (reverse (postorder f)).
Proof.
  intros Hc Htopo Hne. eexists. split; [by apply block_nodes_consistent|].
  pose proof Hc as (_ & Hnd & Hrange & Hlen).
  split; [unfold initial_nodes; by rewrite decide_True|].
  rewrite Forall_forall in Hrange.
  assert (∀ x, x ∈ (list_to_set (reverse (postorder f)) : gset nat)
               ↔ x < length (blocks f)) as Hlive.
  { intros x. rewrite elem_of_list_to_set, elem_of_reverse. split.
    - apply Hrange.
    - intros Hx. by destruct (consistent_block f x Hc Hx) as (_ & _ & _ & H). }
  split_and!.
  - unfold well_formed. rewrite length_imap. split_and!.
    + lia.
    + intros x Hx. by apply Hlive.
    + intros x y Hx%Hlive. rewrite get_block_node by done. cbn.
      intros Hy. apply Hlive.
      by destruct (consistent_block f x Hc Hx) as (H1 & _); apply H1.
    + intros x y Hx%Hlive. rewrite get_block_node by done. cbn.
      intros Hy. apply Hlive.
      by destruct (consistent_block f x Hc Hx) as (_ & H2 & _); apply H2.
    + intros x y Hx%Hlive Hy%Hlive. rewrite !get_block_node by done. cbn.
      destruct (consistent_block f x Hc Hx) as (H1 & _).
      destruct (consistent_block f y Hc Hy) as (_ & H2 & _).
      split; intros H; [by apply H1|by apply H2].
    + intros x y Hx%Hlive Hy%Hlive. by rewrite !get_block_node by done.
    + intros x y Hx%Hlive. rewrite get_block_node by done. cbn. intros Hy.
      destruct (consistent_block f x Hc Hx) as (H1 & _).
      rewrite get_block_node by (by apply H1). cbn.
      unfold topologically_ordered in Htopo. rewrite Forall_forall in Htopo.
      by apply (Htopo (x, y)), elem_of_edges.
    + intros x Hx%Hlive. rewrite get_block_node by done. cbn. intros Hsize.
      destruct (consistent_block f x Hc Hx) as (H1 & _ & Hbranch & _).
      specialize (Hbranch Hsize).
      destruct (lookup_lt_is_Some_2 (blocks f) x Hx) as [b Hb].
      unfold block_at in Hbranch, H1 |- *. rewrite Hb in Hbranch, H1 |- *.
      simpl in Hbranch, H1 |- *. unfold branch_targets in Hbranch.
      destruct (last (code b)) as [[t e|]|] eqn:Hlast; try done.
      cbn in Hbranch.
      assert (({[ t; e ]} : gset nat) = successors b) as Hte by congruence.
      clear Hbranch. rename Hte into Hbranch.
      exists b, t, e.
      assert (t < length (blocks f) ∧ e < length (blocks f)) as [Ht He]
        by (split; apply H1; rewrite <- Hbranch; apply elem_of_pair; auto).
      rewrite !get_block_node by done. by cbn.
  - apply Forall_lookup. intros i n Hi.
    apply list_lookup_imap_Some in Hi as (b & _ & ->). done.
  - by rewrite reverse_Permutation.
  - intros Hnil. apply Hne. apply (f_equal reverse) in Hnil.
    by rewrite reverse_involutive in Hnil.
Qed.

(** *** The reduction loop *)










(** *** Further facts about the detectors *)

(** X2: on a graph without cycles the two loops of [check_for_block_node]
    end. It returns [None] exactly when the node is linked to no neighbour,
    and otherwise the [BlockNode] of a chain through the node: the nodes of
    the chain are all different, each is the only successor of the one
    before it and has it as its only predecessor, and the chain cannot be
    extended at either end. *)
Theorem block_node_is_a_maximal_chain (f : function) (a : arena)
    (live : gset nat) (node : nat) :
  well_formed f a live → node ∈ live →
  (check_for_block_node a node = Done None
   ∧ (∀ p, ¬ linked a p node) ∧ (∀ s, ¬ linked a node s))
  ∨ ∃ node_list first_node last_node,
      check_for_block_node a node
      = Done (Some (contract a (BlockNode node_list) (list_to_set node_list)
                      first_node last_node))
      ∧ node ∈ node_list ∧ 2 ≤ length node_list
      ∧ head node_list = Some first_node ∧ last node_list = Some last_node
      ∧ chain a node_list ∧ NoDup node_list
      ∧ (∀ x, x ∈ node_list → x ∈ live)
      ∧ (∀ p, ¬ linked a p first_node) ∧ (∀ s, ¬ linked a last_node s).
Proof.
  intros Hwf Hnode.
  destruct (check_for_block_node_spec f a live Hwf node Hnode)
    as (ps & ss & -> & Hc & Hl & Hfirst & Hlast).
  case_decide as Hempty.
  - left. destruct Hempty as [-> ->]. by split_and!.
  - right. eexists _, _, _. split; [done|]. split_and!.
    + apply elem_of_app. right. by left.
    + rewrite length_app, length_reverse. simpl.
      destruct ps, ss; simpl; try lia. by destruct Hempty.
    + rewrite head_app_default. by rewrite head_reverse.
    + by rewrite last_app_default.
    + done.
    + by apply (chain_NoDup f a live Hwf).
    + by apply Forall_forall.
    + done.
    + done.
Qed.

Lemma block_node_is_a_maximal_chain_witness :
  (check_for_block_node (initial_arena diamond) 4 = Done None
   ∧ (∀ p, ¬ linked (initial_arena diamond) p 4)
   ∧ (∀ s, ¬ linked (initial_arena diamond) 4 s))
  ∨ ∃ node_list first_node last_node,
      check_for_block_node (initial_arena diamond) 4
      = Done (Some (contract (initial_arena diamond) (BlockNode node_list)
                      (list_to_set node_list) first_node last_node))
      ∧ 4 ∈ node_list ∧ 2 ≤ length node_list
      ∧ head node_list = Some first_node ∧ last node_list = Some last_node
      ∧ chain (initial_arena diamond) node_list ∧ NoDup node_list
      ∧ (∀ x, x ∈ node_list
              → x ∈ (list_to_set (reverse (postorder diamond)) : gset nat))
      ∧ (∀ p, ¬ linked (initial_arena diamond) p first_node)
      ∧ (∀ s, ¬ linked (initial_arena diamond) last_node s).
Proof.
  destruct (initial_invariant diamond) as (a & Ha & _ & Hwf & _).
  { unfold consistent. by_evaluation. }
  { unfold topologically_ordered. by_evaluation. }
  { done. }
  assert (a = initial_arena diamond) as ->
    by (unfold initial_arena; by rewrite Ha).
  apply (block_node_is_a_maximal_chain diamond (initial_arena diamond)
           (list_to_set (reverse (postorder diamond))) 4 Hwf).
  by_evaluation.
Defined.

(** X3: on a set of nodes that each have one predecessor, in the set, whose
    only successor they are (a cycle), the first loop of
    [check_for_block_node] goes around for ever: no number of rounds ends
    it. *)
Theorem walk_on_a_cycle_never_ends (a : arena) (cycle : gset nat)
    (node : nat) :
  (∀ x, x ∈ cycle → ∃ p, p ∈ cycle ∧ linked a p x) →
  node ∈ cycle →
  (∀ fuel, follow_predecessors fuel a node = None)
  ∧ check_for_block_node a node = OutOfFuel.
Proof.
  intros Hcycle Hnode.
  assert (∀ fuel x, x ∈ cycle → follow_predecessors fuel a x = None) as Hloop.
  { induction fuel as [|fuel IH]; intros x Hx; [done|].
    destruct (Hcycle x Hx) as (p & Hp & Hlink).
    destruct (linked_one_predecessor a p x Hlink) as [Hone Hsize].
    simpl. rewrite Hone. rewrite decide_True by done. by rewrite IH. }
  split; [intros fuel; by apply Hloop|].
  unfold check_for_block_node. by rewrite Hloop.
Qed.

Lemma walk_on_a_cycle_never_ends_witness :
  check_for_block_node (initial_arena ring) 0 = OutOfFuel.
Proof.
  apply (walk_on_a_cycle_never_ends (initial_arena ring) {[ 0; 1 ]} 0).
  - intros x [->| ->]%elem_of_pair.
    + exists 1. split; [apply elem_of_pair; auto|]. split; by vm_compute.
    + exists 0. split; [apply elem_of_pair; auto|]. split; by vm_compute.
  - apply elem_of_pair. auto.
Defined.

(** X4: [check_for_if_then_node] builds [IfThenNode(node, t)] exactly when
    the node has two successors [t] and [m], [m] is the only successor of
    [t], the node is the only predecessor of [t], and the node is neither
    of the two; whichever of the two successors the set gives first. (Two
    successors that are successors of each other are set aside: there the
    order decides.) *)
Theorem if_then_detected (a : arena) (node t : nat) :
  (∀ x y, x ∈ node_successors (get a node) →
          y ∈ node_successors (get a node) →
          x ∈ node_successors (get a y) →
          y ∉ node_successors (get a x)) →
  (∃ a' n, check_for_if_then_node a node = Done (Some (a', n))
           ∧ node_shape (get a' n) = IfThenNode node t)
  ↔ ∃ m, node_successors (get a node) = {[ t; m ]} ∧ t ≠ m
         ∧ node_successors (get a t) = {[ m ]}
         ∧ size (node_predecessors (get a t)) = 1
         ∧ node ≠ t ∧ node ≠ m.
Proof.
  intros Hacyclic.
  assert (∀ x y,
    (if decide (size (node_successors (get a x)) ≠ 1
                ∨ size (node_predecessors (get a x)) ≠ 1
                ∨ y ∉ node_successors (get a x) ∨ node = x ∨ node = y)
     then Done None
     else Done (Some (contract a (IfThenNode node x) {[ node; x ]} node x)))
    = (if decide (node_successors (get a x) = {[ y ]}
                  ∧ size (node_predecessors (get a x)) = 1
                  ∧ node ≠ x ∧ node ≠ y)
       then Done (Some (contract a (IfThenNode node x) {[ node; x ]} node x))
       else Done None)) as Hbody.
  { intros x y. case_decide as H1; case_decide as H2; try done.
    - destruct H2 as (Hs & Hp & Hx & Hy). exfalso.
      destruct H1 as [H1|[H1|[H1|[H1|H1]]]]; try done.
      + apply H1. rewrite Hs. apply size_singleton.
      + apply H1. rewrite Hs. by apply elem_of_singleton.
    - exfalso. apply H2. split_and!.
      + apply size_1_singleton; apply dec_stable; tauto.
      + apply dec_stable. tauto.
      + intros ->. apply H1. tauto.
      + intros ->. apply H1. tauto. }
  assert (∀ x, node_shape (get (contract a (IfThenNode node x)
                                  {[ node; x ]} node x).1
                             (contract a (IfThenNode node x)
                                  {[ node; x ]} node x).2)
               = IfThenNode node x) as Hshape.
  { intros x.
    pose proof (contract_self a (IfThenNode node x) {[ node; x ]} node x)
      as Hself.
    destruct (contract a (IfThenNode node x) {[ node; x ]} node x)
      as [a' n]. destruct Hself as (_ & _ & Hnew). cbn [fst snd].
    by rewrite Hnew. }
  unfold check_for_if_then_node. split.
  - intros (a' & n & Hcheck & Hsh).
    destruct (elements (node_successors (get a node)))
      as [|x [|y [|]]] eqn:He; try done.
    apply elements_pair in He as [Hs Hxy].
    destruct (decide (x ∈ node_successors (get a y))) as [Hin|Hin];
      cbv beta iota in Hcheck; rewrite Hbody in Hcheck;
      case_decide as Hc; try done;
      destruct Hc as (H1 & H2 & H3 & H4).
    + pose proof (Hshape y) as Hy.
      assert (contract a (IfThenNode node y) {[ node; y ]} node y = (a', n))
        as Hpair by congruence.
      rewrite Hpair in Hy. cbn [fst snd] in Hy. rewrite Hsh in Hy.
      injection Hy as ->. exists x. split_and!; try done;
        try (by intros ->).
      rewrite Hs. apply set_eq. intros z. rewrite !elem_of_pair. tauto.
    + pose proof (Hshape x) as Hx.
      assert (contract a (IfThenNode node x) {[ node; x ]} node x = (a', n))
        as Hpair by congruence.
      rewrite Hpair in Hx. cbn [fst snd] in Hx. rewrite Hsh in Hx.
      injection Hx as ->. exists y. by split_and!.
  - intros (m & Hs & Htm & Hst & Hpt & Hnt & Hnm).
    assert (m ∈ node_successors (get a t)) as Hmt
      by (rewrite Hst; by apply elem_of_singleton).
    assert (t ∉ node_successors (get a m)) as Htm'.
    { intros Hin. apply (Hacyclic t m); try done;
        rewrite Hs; apply elem_of_pair; auto. }
    destruct (elements_of_pair t m Htm) as [He|He];
      rewrite Hs, He; cbv beta iota.
    + rewrite decide_False by done. rewrite Hbody.
      rewrite decide_True by done.
      specialize (Hshape t).
      destruct (contract a (IfThenNode node t) {[ node; t ]} node t)
        as [a' n]. by exists a', n.
    + rewrite decide_True by done. rewrite Hbody.
      rewrite decide_True by done.
      specialize (Hshape t).
      destruct (contract a (IfThenNode node t) {[ node; t ]} node t)
        as [a' n]. by exists a', n.
Qed.

Lemma if_then_detected_witness :
  ∃ a' n,
    check_for_if_then_node (initial_arena guarded) 0 = Done (Some (a', n))
    ∧ node_shape (get a' n) = IfThenNode 0 1.
Proof.
  apply (if_then_detected (initial_arena guarded) 0 1).
  - assert (set_Forall
              (fun x =>
                 set_Forall
                   (fun y =>
                      x ∈ node_successors (get (initial_arena guarded) y) →
                      y ∉ node_successors (get (initial_arena guarded) x))
                   (node_successors (get (initial_arena guarded) 0)))
              (node_successors (get (initial_arena guarded) 0))) as Hall
      by by_evaluation.
    intros x y Hx Hy. by apply Hall.
  - exists 2. split_and!; by_evaluation.
Defined.


(** X5: a function without blocks makes [__call__] raise ([one] of an
    empty list), and a function of one block gives the [SingleNode] of
    that block, without a round of the loop. *)
Theorem extract_of_few_blocks (f : function) (a : arena) (fuel : nat) :
  block_nodes f = Done a →
  (postorder f = [] → extract fuel f = Failed ValueError)
  ∧ (∀ b, postorder f = [b] → b < length (blocks f) →
          extract fuel f = Done (a, b)
          ∧ node_shape (get a b) = SingleNode b).
Proof.
  intros Ha. split.
  - intros Hpo. unfold extract, initial_nodes.
    rewrite Ha, Hpo. rewrite decide_True by done. by destruct fuel.
  - intros b Hpo Hb. split.
    + unfold extract, initial_nodes. rewrite Ha, Hpo.
      rewrite decide_True by (by repeat constructor). by destruct fuel.
    + unfold block_nodes in Ha. case_decide; [|done].
      injection Ha as <-. by rewrite get_block_node.
Qed.

Lemma extract_of_few_blocks_witness :
  extract 0 {| blocks := []; postorder := [] |} = Failed ValueError.
Proof.
  by apply (extract_of_few_blocks {| blocks := []; postorder := [] |} [] 0).
Defined.

(** X6: on a graph without cycles none of the three detectors raises (the
    assertions of [check_for_if_then_else_node] hold), and what they build
    takes the place of at least two nodes in a graph that is again without
    cycles. *)
Theorem detectors_keep_the_graph_well_formed (f : function) (a : arena)
    (live : gset nat) (node : nat) :
  well_formed f a live → node ∈ live →
  detect a f node = Done None
  ∨ ∃ a' built_node,
      detect a f node = Done (Some (a', built_node))
      ∧ built_node = length a
      ∧ is_unstructured (node_shape (get a' built_node)) = false
      ∧ nodes (get a' built_node) ⊆ live
      ∧ 2 ≤ size (nodes (get a' built_node))
      ∧ well_formed f a' (live ∖ nodes (get a' built_node) ∪ {[ built_node ]})
      ∧ size (live ∖ nodes (get a' built_node) ∪ {[ built_node ]})
        < size live.
Proof.
  intros Hwf Hnode.
  destruct (detect_spec f a live Hwf node Hnode)
    as [->|(sh & M & e & x & -> & Hc & HM & Hsh)]; [by left|right].
  pose proof (contract_well_formed f a live sh M e x Hwf Hc) as Hwf'.
  pose proof (contract_self a sh M e x) as Hself.
  destruct (contract a sh M e x) as [a' n]. cbn [fst] in *.
  destruct Hself as (Hn & Hlen & Hnew).
  exists a', n. rewrite Hnew. cbn [nodes node_shape].
  destruct Hc as (HMlive & _). subst n.
  split_and!; try done.
  apply size_contracted; [done..|].
  intros H%(live_lt f a live Hwf). lia.
Qed.

Lemma detectors_keep_the_graph_well_formed_witness :
  detect (initial_arena diamond) diamond 0 = Done None
  ∨ ∃ a' built_node,
      detect (initial_arena diamond) diamond 0
      = Done (Some (a', built_node))
      ∧ built_node = length (initial_arena diamond)
      ∧ is_unstructured (node_shape (get a' built_node)) = false
      ∧ nodes (get a' built_node)
        ⊆ list_to_set (reverse (postorder diamond))
      ∧ 2 ≤ size (nodes (get a' built_node))
      ∧ well_formed diamond a'
          (list_to_set (reverse (postorder diamond))
           ∖ nodes (get a' built_node) ∪ {[ built_node ]})
      ∧ size (list_to_set (reverse (postorder diamond))
              ∖ nodes (get a' built_node) ∪ {[ built_node ]})
        < size (list_to_set (reverse (postorder diamond)) : gset nat).
Proof.
  destruct (initial_invariant diamond) as (a & Ha & _ & Hwf & _).
  { unfold consistent. by_evaluation. }
  { unfold topologically_ordered. by_evaluation. }
  { done. }
  assert (a = initial_arena diamond) as ->
    by (unfold initial_arena; by rewrite Ha).
  apply (detectors_keep_the_graph_well_formed diamond (initial_arena diamond)
           (list_to_set (reverse (postorder diamond))) 0 Hwf).
  by_evaluation.
Defined.

End StructuralExtractorWalks.

(** ** Facts about the emitted Fortran *)

Section FortranCodeGeneratorFacts.
Import FortranCodeGenerator.

Lemma exec_app (fn : function_registry) (c1 c2 : list stmt) (m : memory) :
  exec fn (c1 ++ c2) m
  = match exec fn c1 m with
    | Some m => exec fn c2 m
    | None => None
    end.
Proof.
  revert m. induction c1 as [|s c1 IH]; intros m; simpl; [done|].
  destruct (exec_stmt fn s m); [apply IH|done].
Qed.

Lemma exec_cons (fn : function_registry) (s : stmt) (code : list stmt)
    (m : memory) :
  exec fn (s :: code) m
  = match exec_stmt fn s m with
    | Some m => exec fn code m
    | None => None
    end.
Proof. reflexivity. Qed.

Ltac lookup_solve :=
  repeat first
    [ rewrite lookup_insert_eq
    | rewrite lookup_delete_eq
    | rewrite lookup_insert_ne by (done || lia || congruence)
    | rewrite lookup_delete_ne by (done || lia || congruence) ];
  try done.

Lemma ex_and_l {A : Type} (P : Prop) (Q : A → Prop) :
  P → (∃ x, Q x) → ∃ x, P ∧ Q x.
Proof. intros HP [x HQ]. by exists x. Qed.

Lemma exec_nil (fn : function_registry) (m : memory) :
  exec fn [] m = Some m.
Proof. reflexivity. Qed.

(** The branches of an [If] run like any other code. *)
Lemma exec_stmt_If (fn : function_registry) (c : condition)
    (then_branch else_branch : list stmt) (m : memory) :
  exec_stmt fn (If c then_branch else_branch) m
  = match test c m with
    | Some b => exec fn (if b then then_branch else else_branch) m
    | None => None
    end.
Proof.
  simpl. destruct (test c m) as [b|]; [|done].
  generalize (if b then then_branch else else_branch). intros code.
  revert m. induction code as [|s code IH]; intros m; simpl; [done|].
  destruct (exec_stmt fn s m); [apply IH|done].
Qed.

(** *** Names *)

Lemma hygienic_names (nm : name_manager) (vars : list string) :
  hygienic nm vars →
  NoDup vars
  ∧ (∀ v w, v ∈ vars → w ∈ vars →
       fortran_name nm v = fortran_name nm w → v = w)
  ∧ (∀ v w, v ∈ vars → w ∈ vars →
       name_refcount nm v = name_refcount nm w → v = w)
  ∧ (∀ v w, v ∈ vars → w ∈ vars →
       fortran_name nm v ≠ name_refcount nm w).
Proof.
  unfold hygienic. intros Hnd. apply NoDup_app in Hnd as (Hn & Hdisj & Hr).
  split_and!.
  - by apply NoDup_fmap_1 in Hn.
  - intros v w Hv Hw Heq.
    apply list_elem_of_lookup in Hv as [i Hi], Hw as [j Hj].
    assert (i = j) as ->; [|congruence].
    eapply NoDup_lookup; [exact Hn| |].
    + by rewrite list_lookup_fmap, Hi.
    + rewrite list_lookup_fmap, Hj. simpl. congruence.
  - intros v w Hv Hw Heq.
    apply list_elem_of_lookup in Hv as [i Hi], Hw as [j Hj].
    assert (i = j) as ->; [|congruence].
    eapply NoDup_lookup; [exact Hr| |].
    + by rewrite list_lookup_fmap, Hi.
    + rewrite list_lookup_fmap, Hj. simpl. congruence.
  - intros v w Hv Hw Heq. eapply (Hdisj (fortran_name nm v)).
    + apply list_elem_of_fmap. by exists v.
    + rewrite Heq. apply list_elem_of_fmap. by exists w.
Qed.

Lemma hygienic_filter (nm : name_manager) (vars : list string)
    (P : string → Prop) `{∀ v, Decision (P v)} :
  hygienic nm vars → hygienic nm (filter P vars).
Proof.
  unfold hygienic. intros Hnd.
  refine (sublist_NoDup _ _ Hnd _).
  apply sublist_app; apply fmap_sublist, sublist_filter.
Qed.

(** *** Counting aliases *)

Lemma filter_other_id (vars : list string) (a : string) :
  a ∉ vars → filter (fun v => v ≠ a) vars = vars.
Proof.
  induction vars as [|w vars IH]; intros Hnotin; [done|].
  rewrite filter_cons_True by set_solver. f_equal. apply IH. set_solver.
Qed.

Lemma length_filter_split (P : string → Prop) `{∀ v, Decision (P v)}
    (vars : list string) (a : string) :
  NoDup vars → a ∈ vars →
  length (filter P vars)
  = (if decide (P a) then 1 else 0)
    + length (filter P (filter (fun v => v ≠ a) vars)).
Proof.
  induction vars as [|v vars IH]; intros Hnd Hin; [by apply elem_of_nil in Hin|].
  apply NoDup_cons in Hnd as [Hnotin Hnd].
  destruct (decide (v = a)) as [->|Hne].
  - rewrite (filter_cons_False (fun v => v ≠ a)) by (intros Hc; by apply Hc).
    rewrite filter_other_id by done.
    destruct (decide (P a)).
    + by rewrite filter_cons_True.
    + by rewrite filter_cons_False.
  - apply elem_of_cons in Hin as [->|Hin]; [done|].
    rewrite (filter_cons_True (fun v => v ≠ a)) by done.
    specialize (IH Hnd Hin).
    destruct (decide (P v)).
    + rewrite !filter_cons_True by done. simpl. rewrite IH. lia.
    + by rewrite !filter_cons_False.
Qed.

Lemma length_filter_ext (P Q : string → Prop) `{∀ v, Decision (P v)}
    `{∀ v, Decision (Q v)} (vars : list string) :
  (∀ v, v ∈ vars → (P v ↔ Q v)) →
  length (filter P vars) = length (filter Q vars).
Proof.
  induction vars as [|v vars IH]; intros Hext; [done|].
  rewrite !filter_cons.
  destruct (decide (P v)) as [HP|HP], (decide (Q v)) as [HQ|HQ]; simpl;
    try (rewrite IH by (intros; apply Hext; set_solver); done);
    exfalso; apply (Hext v) in HP || apply (Hext v) in HQ; set_solver.
Qed.

(** *** Deinitialisation *)

Lemma aliases_elem (nm : name_manager) (vars : list string) (m : memory)
    (l : nat) (v : string) :
  v ∈ aliases nm vars m l
  ↔ pointers m !! fortran_name nm v = Some l ∧ v ∈ vars.
Proof. unfold aliases. by rewrite list_elem_of_filter. Qed.

Lemma aliases_split (nm : name_manager) (vars : list string) (m : memory)
    (l : nat) (a : string) :
  NoDup vars → a ∈ vars →
  length (aliases nm vars m l)
  = (if decide (pointers m !! fortran_name nm a = Some l) then 1 else 0)
    + length (aliases nm (filter (fun v => v ≠ a) vars) m l).
Proof.
  intros Hnd Ha. unfold aliases.
  pose proof (length_filter_split
                (fun v => pointers m !! fortran_name nm v = Some l)
                vars a Hnd Ha) as Hs.
  rewrite Hs. by repeat case_decide.
Qed.

Lemma aliases_ext (nm : name_manager) (vars : list string) (m m' : memory)
    (l : nat) :
  (∀ v, v ∈ vars →
     pointers m' !! fortran_name nm v = pointers m !! fortran_name nm v) →
  length (aliases nm vars m' l) = length (aliases nm vars m l).
Proof.
  intros Hsame. unfold aliases.
  apply (length_filter_ext
           (fun v => pointers m' !! fortran_name nm v = Some l)
           (fun v => pointers m !! fortran_name nm v = Some l)).
  intros v Hv. by rewrite Hsame.
Qed.

Lemma deinit_counted (fn : function_registry) (self : generator)
    (vars : list string) (m : memory) (a c : string) :
  hygienic (names self) vars → counted (names self) vars m → a ∈ vars →
  ∃ m',
    exec fn (emit_variable_deinit self a (ODEComponent c)) m = Some m'
    ∧ counted (names self) (filter (fun v => v ≠ a) vars) m'
    ∧ (∀ name, name ≠ fortran_name (names self) a →
               name ≠ name_refcount (names self) a →
               pointers m' !! name = pointers m !! name)
    ∧ (∀ l' values, heap m' !! l' = Some (Array values) →
                    heap m !! l' = Some (Array values))
    ∧ match pointers m !! fortran_name (names self) a with
      | None => m' = m
      | Some l =>
          if decide (length (aliases (names self) vars m l) = 1)
          then heap m' !! l = None
               ∧ ∃ r, pointers m !! name_refcount (names self) a = Some r
                      ∧ freed m' = freed m ++ [l; r]
          else freed m' = freed m ∧ heap m' !! l = heap m !! l
      end.
Proof.
  intros Hhyg [Hcount Hshare] Ha.
  destruct (hygienic_names _ _ Hhyg) as (Hnd & Hinj & Hinjr & Hdisj).
  assert (Hother : ∀ v, v ∈ filter (fun v => v ≠ a) vars →
    v ∈ vars
    ∧ fortran_name (names self) v ≠ fortran_name (names self) a
    ∧ fortran_name (names self) v ≠ name_refcount (names self) a
    ∧ name_refcount (names self) v ≠ fortran_name (names self) a
    ∧ name_refcount (names self) v ≠ name_refcount (names self) a).
  { intros v Hv. apply list_elem_of_filter in Hv as [Hva Hvv].
    split_and!; [done| | | |].
    - intros Heq. by apply Hva, Hinj.
    - by apply Hdisj.
    - intros Heq. symmetry in Heq. by apply (Hdisj a v Ha Hvv).
    - intros Heq. by apply Hva, Hinjr. }
  set (nm := names self) in *.
  unfold emit_variable_deinit. fold nm.
  cbn [exec]. rewrite exec_stmt_If. cbn [test].
  destruct (pointers m !! (fortran_name nm a)) as [l|] eqn:HA.
  - rewrite bool_decide_eq_true_2 by by eexists.
    destruct (Hcount a l Ha HA) as ([values Hl] & r & HRA & Hr).
    cbn [exec]. rewrite exec_stmt_If. cbn [test]. rewrite HRA. simpl.
    rewrite Hr.
    pose proof (aliases_split nm vars m l a Hnd Ha) as Hsplit.
    rewrite decide_True in Hsplit by done.
    assert (Hlr : l ≠ r) by (intros ->; congruence).
    case_bool_decide as Hone.
    + (* the last alias: deallocate *)
      assert (Hlen : length (aliases nm vars m l) = 1) by lia.
      destruct (decide (length (aliases nm vars m l) = 1)) as [_|?]; [|done].
      cbn [exec exec_stmt]. rewrite HA. simpl. rewrite Hl. simpl.
      rewrite lookup_delete_ne by (intros Heq; by apply (Hdisj a a Ha Ha)).
      rewrite HRA. simpl. rewrite lookup_delete_ne by done. rewrite Hr. simpl.
      eexists. split; [reflexivity|]. simpl.
      assert (Hnone : ∀ v, v ∈ filter (fun v => v ≠ a) vars →
                           pointers m !! fortran_name nm v ≠ Some l).
      { intros v Hv Hvl.
        assert (v ∈ aliases nm (filter (fun v => v ≠ a) vars) m l) as Hin
          by (by apply aliases_elem).
        destruct (aliases nm (filter (fun v => v ≠ a) vars) m l);
          [by apply elem_of_nil in Hin|simpl in Hsplit; lia]. }
      assert (Hptr : ∀ name, name ≠ (fortran_name nm a) → name ≠ (name_refcount nm a) →
         delete (fortran_name nm a) (delete (name_refcount nm a) (delete (fortran_name nm a) (pointers m))) !! name
         = pointers m !! name).
      { intros name H1 H2. by rewrite !lookup_delete_ne. }
      split_and!.
      * split.
        -- intros v l' Hv Hvl. simpl in Hvl.
           destruct (Hother v Hv) as (Hvv & N1 & N2 & N3 & N4).
           rewrite Hptr in Hvl by done.
           destruct (Hcount v l' Hvv Hvl) as ([values' Hl'] & r' & HRV & Hr').
           assert (Hll : l' ≠ l) by (intros ->; by eapply Hnone).
           assert (Hrr : r' ≠ r).
           { intros ->. apply Hll.
             by apply (Hshare v a l' l r r Hvv Ha Hvl HA HRV HRA). }
           split.
           ++ exists values'. simpl.
              rewrite !lookup_delete_ne by congruence. done.
           ++ exists r'. simpl. split.
              ** by rewrite Hptr.
              ** rewrite !lookup_delete_ne by congruence. rewrite Hr'.
                 do 3 f_equal.
                 rewrite (aliases_split nm vars m l' a Hnd Ha).
                 rewrite decide_False by congruence. simpl.
                 symmetry. apply aliases_ext. intros w Hw. simpl.
                 destruct (Hother w Hw) as (Hww & M1 & M2 & M3 & M4).
                 by apply Hptr.
        -- intros v w l1 l2 r1 r2 Hv Hw. simpl.
           destruct (Hother v Hv) as (Hvv & N1 & N2 & N3 & N4).
           destruct (Hother w Hw) as (Hww & M1 & M2 & M3 & M4).
           rewrite !Hptr by done. by apply Hshare.
      * done.
      * intros l' values' Hl'.
        apply lookup_delete_Some in Hl' as [_ Hl'].
        by apply lookup_delete_Some in Hl' as [_ Hl'].
      * by rewrite lookup_delete_ne, lookup_delete_eq.
      * exists r. split; [done|]. by rewrite <- app_assoc.
    + (* other aliases remain: decrement *)
      assert (Hlen : length (aliases nm vars m l) ≠ 1) by lia.
      destruct (decide (length (aliases nm vars m l) = 1)) as [?|_]; [done|].
      cbn [exec exec_stmt]. unfold update_counter. rewrite HRA. simpl.
      rewrite Hr. simpl.
      eexists. split; [reflexivity|]. simpl.
      split_and!; [|done| |done|by rewrite lookup_insert_ne];
        [|intros l' values' Hl';
          by apply lookup_insert_Some in Hl' as [[_ ?]|[_ ?]]].
      split.
      * intros v l' Hv Hvl. simpl in Hvl.
        apply list_elem_of_filter in Hv as [Hva Hvv].
        destruct (Hcount v l' Hvv Hvl) as ([values' Hl'] & r' & HRV & Hr').
        split.
        -- exists values'. simpl. rewrite lookup_insert_ne; [done|].
           intros <-. congruence.
        -- exists r'. simpl. split; [done|].
           rewrite (aliases_split nm vars m l' a Hnd Ha) in Hr'.
           destruct (decide (l' = l)) as [->|Hne].
           ++ assert (r' = r) as ->
                by (by apply (Hshare v a l l r' r Hvv Ha Hvl HA HRV HRA)).
              rewrite lookup_insert_eq. f_equal.
              rewrite decide_True in Hr' by done.
              assert (Hz : ∀ n k : nat, n = 1 + k →
                           (Z.of_nat n - 1)%Z = Z.of_nat k) by lia.
              rewrite (Hz _ _ Hsplit). do 2 f_equal.
           ++ assert (r' ≠ r).
              { intros ->.
                by apply Hne, (Hshare v a l' l r r Hvv Ha Hvl HA HRV HRA). }
              rewrite lookup_insert_ne by done.
              rewrite decide_False in Hr' by congruence.
              rewrite Hr'. do 3 f_equal.
      * intros v w l1 l2 r1 r2 Hv Hw. simpl.
        apply list_elem_of_filter in Hv as [Hva Hvv].
        apply list_elem_of_filter in Hw as [Hwa Hww].
        by apply Hshare.
  - rewrite bool_decide_eq_false_2 by (by intros [? ?]).
    cbn [exec]. exists m. split_and!; try done.
    split.
    + intros v l' Hv Hvl.
      apply list_elem_of_filter in Hv as [Hva Hvv].
      destruct (Hcount v l' Hvv Hvl) as (Harr & r' & HRV & Hr').
      split; [done|]. exists r'. split; [done|].
      rewrite (aliases_split nm vars m l' a Hnd Ha) in Hr'.
      by rewrite decide_False in Hr' by congruence.
    + intros v w l1 l2 r1 r2 Hv Hw.
      apply list_elem_of_filter in Hv as [Hva Hvv].
      apply list_elem_of_filter in Hw as [Hwa Hww].
      by apply Hshare.
Qed.

(** *** Alias assignment *)

Lemma move_counted (fn : function_registry) (self : generator)
    (vars : list string) (m : memory) (a b c : string) (lb : nat) :
  hygienic (names self) vars → counted (names self) vars m →
  a ∈ vars → b ∈ vars → a ≠ b →
  pointers m !! fortran_name (names self) b = Some lb →
  ∃ m',
    exec fn (emit_ode_component_move self a (fortran_name (names self) a)
               (ODEComponent c) b) m = Some m'
    ∧ counted (names self) vars m'
    ∧ pointers m' !! fortran_name (names self) a = Some lb
    ∧ pointers m' !! name_refcount (names self) a
      = pointers m !! name_refcount (names self) b
    ∧ heap m' !! lb = heap m !! lb
    ∧ length (aliases (names self) vars m' lb)
      = (if decide (pointers m !! fortran_name (names self) a = Some lb)
         then 0 else 1)
        + length (aliases (names self) vars m lb)
    ∧ match pointers m !! fortran_name (names self) a with
      | None => freed m' = freed m
      | Some la =>
          if decide (length (aliases (names self) vars m la) = 1)
          then heap m' !! la = None
               ∧ ∃ ra, pointers m !! name_refcount (names self) a = Some ra
                       ∧ freed m' = freed m ++ [la; ra]
          else freed m' = freed m ∧ heap m' !! la = heap m !! la
      end.
Proof.
  intros Hhyg Hcounted Ha Hb Hab HB.
  destruct (hygienic_names _ _ Hhyg) as (Hnd & Hinj & Hinjr & Hdisj).
  destruct (deinit_counted fn self vars m a c Hhyg Hcounted Ha)
    as (m1 & Hexec & [Hcount1 Hshare1] & Hframe & Harrays & Hcase).
  set (nm := names self) in *.
  assert (Hb' : b ∈ filter (fun v => v ≠ a) vars)
    by (apply list_elem_of_filter; split; [congruence|done]).
  assert (HB1 : pointers m1 !! fortran_name nm b = Some lb).
  { rewrite Hframe; [done| |by apply Hdisj].
    intros Heq. by apply Hab, eq_sym, Hinj. }
  destruct (Hcount1 b lb Hb' HB1) as ([values Hlb] & rb & HRB1 & Hrb).
  assert (HRB : pointers m !! name_refcount nm b = Some rb).
  { rewrite <- HRB1. symmetry. apply Hframe.
    - intros Heq. symmetry in Heq. by apply (Hdisj a b Ha Hb).
    - intros Heq. by apply Hab, eq_sym, Hinjr. }
  assert (Hother : ∀ v, v ∈ vars → v ≠ a →
    v ∈ filter (fun v => v ≠ a) vars
    ∧ fortran_name nm v ≠ fortran_name nm a
    ∧ fortran_name nm v ≠ name_refcount nm a
    ∧ name_refcount nm v ≠ fortran_name nm a
    ∧ name_refcount nm v ≠ name_refcount nm a).
  { intros v Hvv Hva. split_and!.
    - by apply list_elem_of_filter.
    - intros Heq. by apply Hva, Hinj.
    - by apply Hdisj.
    - intros Heq. symmetry in Heq. by apply (Hdisj a v Ha Hvv).
    - intros Heq. by apply Hva, Hinjr. }
  destruct (Hother b Hb (not_eq_sym Hab)) as (_ & B1 & B2 & B3 & B4).
  assert (HAR : name_refcount nm a ≠ fortran_name nm a).
  { intros Heq. symmetry in Heq. by apply (Hdisj a a Ha Ha). }
  unfold emit_ode_component_move. fold nm. rewrite exec_app, Hexec.
  cbn [exec exec_stmt]. rewrite HB1. cbn [with_pointers pointers].
  rewrite lookup_insert_ne by done. rewrite HRB1.
  unfold update_counter. cbn [with_pointers pointers heap].
  rewrite lookup_insert_eq. simpl. rewrite Hrb. simpl.
  eexists. split; [reflexivity|]. simpl.
  assert (Hlrb : lb ≠ rb) by (intros ->; congruence).
  assert (Hptr : ∀ name, name ≠ fortran_name nm a →
                         name ≠ name_refcount nm a →
    <[name_refcount nm a := rb]> (<[fortran_name nm a := lb]> (pointers m1))
      !! name = pointers m1 !! name).
  { intros name H1 H2. by rewrite !lookup_insert_ne. }
  match goal with |- counted _ _ ?mm ∧ _ => set (m' := mm) end.
  assert (Hal : ∀ l, length (aliases nm vars m' l)
                     = (if decide (l = lb) then 1 else 0)
                       + length (aliases nm (filter (fun v => v ≠ a) vars) m1 l)).
  { intros l. rewrite (aliases_split nm vars m' l a Hnd Ha).
    f_equal.
    - unfold m'. simpl. rewrite lookup_insert_ne by done.
      rewrite lookup_insert_eq. repeat case_decide; congruence.
    - apply aliases_ext. intros v Hv.
      apply list_elem_of_filter in Hv as [Hva Hvv].
      destruct (Hother v Hvv Hva) as (_ & N1 & N2 & N3 & N4).
      unfold m'. simpl. by apply Hptr. }
  split_and!.
  - split.
    + intros v l Hv Hvl.
      destruct (decide (v = a)) as [->|Hva].
      * unfold m' in Hvl. simpl in Hvl.
        rewrite lookup_insert_ne in Hvl by done.
        rewrite lookup_insert_eq in Hvl. injection Hvl as <-.
        split.
        -- exists values. unfold m'. simpl. by rewrite lookup_insert_ne.
        -- exists rb. unfold m' at 1 2. simpl. rewrite !lookup_insert_eq.
           split; [done|]. rewrite Hal. rewrite decide_True by done.
           do 2 f_equal. lia.
      * destruct (Hother v Hv Hva) as (Hv' & N1 & N2 & N3 & N4).
        unfold m' in Hvl. simpl in Hvl. rewrite Hptr in Hvl by done.
        destruct (Hcount1 v l Hv' Hvl) as ([values' Hl'] & r' & HRV & Hr').
        split.
        -- exists values'. unfold m'. simpl.
           rewrite lookup_insert_ne; [done|]. intros <-. congruence.
        -- exists r'. unfold m' at 1 2. simpl. rewrite Hptr by done.
           split; [done|]. rewrite Hal.
           destruct (decide (l = lb)) as [->|Hne].
           ++ assert (r' = rb) as ->
                by (by apply (Hshare1 v b lb lb r' rb Hv' Hb' Hvl HB1 HRV HRB1)).
              rewrite lookup_insert_eq. do 2 f_equal. lia.
           ++ assert (r' ≠ rb).
              { intros ->. apply Hne.
                by apply (Hshare1 v b l lb rb rb Hv' Hb' Hvl HB1 HRV HRB1). }
              by rewrite lookup_insert_ne.
    + assert (Hmine : ∀ w l' r', w ∈ vars →
                pointers m' !! fortran_name nm w = Some l' →
                pointers m' !! name_refcount nm w = Some r' →
                (lb = l' ↔ rb = r')).
      { intros w l' r' Hw Hwl Hwr.
        destruct (decide (w = a)) as [->|Hwa].
        - unfold m' in Hwl, Hwr. simpl in Hwl, Hwr.
          rewrite lookup_insert_ne in Hwl by done.
          rewrite lookup_insert_eq in Hwl, Hwr. by simplify_eq.
        - destruct (Hother w Hw Hwa) as (Hw' & M1 & M2 & M3 & M4).
          unfold m' in Hwl, Hwr. simpl in Hwl, Hwr.
          rewrite Hptr in Hwl, Hwr by done.
          by apply (Hshare1 b w lb l' rb r' Hb' Hw' HB1 Hwl HRB1 Hwr). }
      intros v w l l' r r' Hv Hw Hvl Hwl Hvr Hwr.
      destruct (decide (v = a)) as [->|Hva].
      * unfold m' in Hvl, Hvr. simpl in Hvl, Hvr.
        rewrite lookup_insert_ne in Hvl by done.
        rewrite lookup_insert_eq in Hvl, Hvr. simplify_eq.
        by apply Hmine with w.
      * destruct (decide (w = a)) as [->|Hwa].
        -- unfold m' in Hwl, Hwr. simpl in Hwl, Hwr.
           rewrite lookup_insert_ne in Hwl by done.
           rewrite lookup_insert_eq in Hwl, Hwr. simplify_eq.
           specialize (Hmine v l r Hv Hvl Hvr). split; intros Heq; symmetry;
             apply Hmine; by symmetry.
        -- destruct (Hother v Hv Hva) as (Hv' & N1 & N2 & N3 & N4).
           destruct (Hother w Hw Hwa) as (Hw' & M1 & M2 & M3 & M4).
           unfold m' in Hvl, Hvr, Hwl, Hwr. simpl in Hvl, Hvr, Hwl, Hwr.
           rewrite Hptr in Hvl, Hvr, Hwl, Hwr by done.
           by apply (Hshare1 v w l l' r r' Hv' Hw').
  - unfold m'. simpl. rewrite lookup_insert_ne by done.
    apply lookup_insert_eq.
  - unfold m'. simpl. by rewrite lookup_insert_eq.
  - unfold m'. simpl. rewrite lookup_insert_ne by done.
    rewrite Hlb. symmetry. by apply Harrays.
  - rewrite Hal. rewrite decide_True by done.
    rewrite (aliases_split nm vars m lb a Hnd Ha).
    rewrite (aliases_ext nm _ m1 m).
    + repeat case_decide; lia.
    + intros v Hv. apply list_elem_of_filter in Hv as [Hva Hvv].
      destruct (Hother v Hvv Hva) as (_ & N1 & N2 & N3 & N4).
      symmetry. by apply Hframe.
  - unfold m'. cbn [freed heap].
    destruct (pointers m !! fortran_name nm a) as [la|] eqn:HA;
      [|by rewrite Hcase].
    destruct (decide (length (aliases nm vars m la) = 1)).
    + destruct Hcase as (Hnone & ra & HRA & Hfreed).
      split; [|by exists ra].
      rewrite lookup_insert_ne; [done|]. intros Heq. subst la. congruence.
    + destruct Hcase as (Hfreed & Hheap). split; [done|].
      destruct Hcounted as [Hcount _].
      destruct (Hcount a la Ha HA) as ([old Hold] & _).
      rewrite lookup_insert_ne; [done|]. intros Heq. subst la. congruence.
Qed.

(** *** A buffer shared by several variables *)

Lemma aliases_all (nm : name_manager) (vars : list string) (m : memory)
    (l : nat) :
  (∀ v, v ∈ vars → pointers m !! fortran_name nm v = Some l) →
  aliases nm vars m l = vars.
Proof.
  intros Hall. unfold aliases. induction vars as [|v vars IH]; [done|].
  rewrite filter_cons_True by (apply Hall; set_solver).
  f_equal. apply IH. intros w Hw. apply Hall. set_solver.
Qed.

Lemma deinit_all_shared (fn : function_registry) (self : generator)
    (c : string) (l : nat) (finished rest : list string) (m : memory) :
  hygienic (names self) (finished ++ rest) →
  counted (names self) (finished ++ rest) m →
  (∀ v, v ∈ finished ++ rest →
        pointers m !! fortran_name (names self) v = Some l) →
  ∃ m',
    exec fn (deinit_all self c finished) m = Some m'
    ∧ (rest ≠ [] →
       freed m' = freed m
       ∧ heap m' !! l = heap m !! l
       ∧ is_Some (heap m' !! l)
       ∧ ∀ v, v ∈ rest →
           ∃ r, pointers m' !! name_refcount (names self) v = Some r
                ∧ heap m' !! r = Some (Counter (Z.of_nat (length rest))))
    ∧ (rest = [] → finished ≠ [] →
       heap m' !! l = None ∧ ∃ r, freed m' = freed m ++ [l; r]).
Proof.
  revert m. induction finished as [|v finished IH]; intros m Hhyg Hcounted Hall.
  - exists m. split; [done|]. split; [|done]. intros Hrest.
    split_and!; [done|done| |].
    + destruct rest as [|w rest]; [done|].
      destruct Hcounted as [Hcount _].
      destruct (Hcount w l) as ([values ->] & _); [set_solver|by apply Hall; set_solver|].
      by eexists.
    + intros w Hw. destruct Hcounted as [Hcount _].
      destruct (Hcount w l) as (_ & r & Hr & Hc); [done|by apply Hall|].
      exists r. split; [done|]. simpl in Hc. by rewrite aliases_all in Hc.
  - destruct (hygienic_names _ _ Hhyg) as (Hnd & _).
    simpl in Hnd. apply NoDup_cons in Hnd as [Hnotin Hnd].
    destruct (deinit_counted fn self ((v :: finished) ++ rest) m v c
                Hhyg Hcounted)
      as (m1 & Hexec & Hcounted1 & Hframe & Harrays & Hcase);
      [set_solver|].
    simpl in Hcounted1. rewrite filter_cons_False in Hcounted1
      by (intros Hc; by apply Hc).
    rewrite filter_other_id in Hcounted1 by done.
    rewrite Hall in Hcase by set_solver.
    rewrite aliases_all in Hcase by done.
    assert (Hhyg1 : hygienic (names self) (finished ++ rest)).
    { unfold hygienic in *. refine (sublist_NoDup _ _ Hhyg _).
      change ((v :: finished) ++ rest) with (v :: (finished ++ rest)).
      rewrite !fmap_cons. simpl. apply sublist_cons, sublist_app; [done|].
      by apply sublist_cons. }
    assert (Hall1 : ∀ w, w ∈ finished ++ rest →
              pointers m1 !! fortran_name (names self) w = Some l).
    { intros w Hw.
      destruct (hygienic_names _ _ Hhyg) as (_ & Hinj & _ & Hdisj).
      rewrite Hframe; [apply Hall; set_solver| |].
      - intros Heq. apply Hnotin.
        replace v with w; [done|]. apply Hinj; [set_solver|set_solver|done].
      - apply Hdisj; set_solver. }
    unfold deinit_all. cbn [flat_map]. rewrite exec_app, Hexec.
    destruct (IH m1 Hhyg1 Hcounted1 Hall1) as (m' & Hexec' & Hrest & Hlast).
    exists m'. split; [done|].
    destruct (decide (length ((v :: finished) ++ rest) = 1)) as [Hone|Hmany].
    + destruct finished; [|simpl in Hone; destruct finished, rest; simpl in Hone; lia].
      destruct rest; [|simpl in Hone; lia].
      simpl in Hexec'. injection Hexec' as <-.
      split; [done|]. intros _ _. destruct Hcase as (Hfree & r & _ & Hfreed).
      split; [done|]. by exists r.
    + destruct Hcase as (Hfreed & Hheap).
      split.
      * intros Hne. destruct (Hrest Hne) as (-> & -> & Hsome & Hcnt).
        by split_and!.
      * intros -> _.
        assert (finished ≠ []) as Hf.
        { intros ->. by simpl in Hmany. }
        destruct (Hlast eq_refl Hf) as (Hnone & r & ->).
        split; [done|]. exists r. by rewrite Hfreed.
Qed.

(** X1: with reference counts that hold the number of variables
    pointing to each array, the alias assignment [a = b] of two different
    variables leaves the counts at the numbers of aliases, points [a] at
    the array and the count of [b], leaves that array as it was, and raises
    its count by one unless [a] pointed to it before; the array [a] pointed
    to before is freed, with its count, when [a] was its last alias, and
    is left alone otherwise; deinitialising a
    variable keeps the counts of the others right, frees the array when the
    variable was its last alias and leaves it alone otherwise; and when all
    the variables share one array, deinitialising them one after the other
    frees the array once, with the last of them, and not before. *)
Theorem reference_counts_follow_aliases (fn : function_registry)
    (self : generator) (vars : list string) (m : memory) (c : string) :
  hygienic (names self) vars → counted (names self) vars m →
  (∀ a b lb, a ∈ vars → b ∈ vars → a ≠ b →
     pointers m !! fortran_name (names self) b = Some lb →
     ∃ m',
       exec fn (emit_ode_component_move self a (fortran_name (names self) a)
                  (ODEComponent c) b) m = Some m'
       ∧ counted (names self) vars m'
       ∧ pointers m' !! fortran_name (names self) a = Some lb
       ∧ pointers m' !! name_refcount (names self) a
         = pointers m !! name_refcount (names self) b
       ∧ heap m' !! lb = heap m !! lb
       ∧ length (aliases (names self) vars m' lb)
         = (if decide (pointers m !! fortran_name (names self) a = Some lb)
            then 0 else 1)
           + length (aliases (names self) vars m lb)
       ∧ match pointers m !! fortran_name (names self) a with
         | None => freed m' = freed m
         | Some la =>
             if decide (length (aliases (names self) vars m la) = 1)
             then heap m' !! la = None
                  ∧ ∃ ra, pointers m !! name_refcount (names self) a = Some ra
                          ∧ freed m' = freed m ++ [la; ra]
             else freed m' = freed m ∧ heap m' !! la = heap m !! la
         end)
  ∧ (∀ a, a ∈ vars →
     ∃ m',
       exec fn (emit_variable_deinit self a (ODEComponent c)) m = Some m'
       ∧ counted (names self) (filter (fun v => v ≠ a) vars) m'
       ∧ match pointers m !! fortran_name (names self) a with
         | None => m' = m
         | Some l =>
             if decide (length (aliases (names self) vars m l) = 1)
             then heap m' !! l = None
                  ∧ ∃ r, pointers m !! name_refcount (names self) a = Some r
                         ∧ freed m' = freed m ++ [l; r]
             else freed m' = freed m ∧ heap m' !! l = heap m !! l
         end)
  ∧ (∀ l finished rest, vars = finished ++ rest →
     (∀ v, v ∈ vars → pointers m !! fortran_name (names self) v = Some l) →
     ∃ m',
       exec fn (deinit_all self c finished) m = Some m'
       ∧ (rest ≠ [] →
          freed m' = freed m
          ∧ heap m' !! l = heap m !! l
          ∧ is_Some (heap m' !! l)
          ∧ ∀ v, v ∈ rest →
              ∃ r, pointers m' !! name_refcount (names self) v = Some r
                   ∧ heap m' !! r = Some (Counter (Z.of_nat (length rest))))
       ∧ (rest = [] → finished ≠ [] →
          heap m' !! l = None ∧ ∃ r, freed m' = freed m ++ [l; r])).
Proof.
  intros Hhyg Hcounted. split_and!.
  - intros a b lb Ha Hb Hab HB. by apply move_counted.
  - intros a Ha.
    destruct (deinit_counted fn self vars m a c Hhyg Hcounted Ha)
      as (m' & Hexec & Hc & _ & _ & Hcase).
    by exists m'.
  - intros l finished rest -> Hall. by apply deinit_all_shared.
Qed.

Lemma shared_memory_counted :
  hygienic plain_names ["a"; "b"; "c"]
  ∧ counted plain_names ["a"; "b"; "c"] shared_memory
  ∧ ∀ v, v ∈ ["a"; "b"; "c"] →
      pointers shared_memory !! fortran_name plain_names v = Some 0.
Proof.
  assert (Hall : ∀ v, v ∈ ["a"; "b"; "c"] →
            pointers shared_memory !! fortran_name plain_names v = Some 0
            ∧ pointers shared_memory !! name_refcount plain_names v = Some 1).
  { intros v Hv. repeat (apply elem_of_cons in Hv as [->|Hv]; [by vm_compute|]).
    by apply elem_of_nil in Hv. }
  split_and!.
  - unfold hygienic. by_evaluation.
  - split.
    + intros v l Hv Hvl. destruct (Hall v Hv) as [H1 H2].
      rewrite H1 in Hvl. injection Hvl as <-.
      split; [by eexists|]. exists 1. split; [done|].
      rewrite aliases_all by (intros w Hw; by apply Hall). reflexivity.
    + intros v w l l' r r' Hv Hw Hvl Hwl Hvr Hwr.
      destruct (Hall v Hv) as [H1 H2]. destruct (Hall w Hw) as [H3 H4].
      split; congruence.
  - intros v Hv. by apply Hall.
Qed.

Lemma reference_counts_follow_aliases_witness :
  ∃ m',
    exec example_functions (deinit_all example_generator "y" ["a"; "b"; "c"])
      shared_memory = Some m'
    ∧ heap m' !! 0 = None
    ∧ ∃ r, freed m' = freed shared_memory ++ [0; r].
Proof.
  destruct shared_memory_counted as (Hhyg & Hcounted & Hall).
  destruct (reference_counts_follow_aliases example_functions
              example_generator ["a"; "b"; "c"] shared_memory "y"
              Hhyg Hcounted) as (_ & _ & Hshared).
  destruct (Hshared 0 ["a"; "b"; "c"] [] eq_refl Hall)
    as (m' & Hexec & _ & Hlast).
  exists m'. split; [exact Hexec|]. by apply Hlast.
Defined.

(** C5 fails for the alias assignment of a variable to itself: [a = a]
    goes to [emit_ode_component_move] like every other alias assignment.
    When [a] is the only variable that points to its array (location 0,
    with the count 1 at location 1), the deinitialisation that comes first
    frees the array and the count and leaves both pointers of [a] without
    a target; the increment that ends the move then goes through the
    pointer of the freed count. *)
Lemma alias_of_itself_frees_sole_owner :
  emit_assign_expr example_generator "a" (Var "a")
  = Some ([], emit_ode_component_move example_generator "a" "a"
                (ODEComponent "y") "a")
  ∧ aliases plain_names ["a"; "b"; "c"] example_memory 0 = ["a"]
  ∧ (pointers example_memory !! "leap_refcnt_a" ≫= (heap example_memory !!.))
    = Some (Counter 1)
  ∧ (exec example_functions
       (emit_variable_deinit example_generator "a" (ODEComponent "y"))
       example_memory
     ≫= fun m => Some (freed m, pointers m !! "a",
                        pointers m !! "leap_refcnt_a"))
    = Some ([0; 1], None, None)
  ∧ exec example_functions
      (emit_ode_component_move example_generator "a" "a" (ODEComponent "y")
         "a")
      example_memory
    = None.
Proof. split_and!; reflexivity. Qed.

(** *** Assignments that read the assignee *)

Lemma expression_induction (P : expression → Prop) :
  (∀ name, P (Var name)) →
  (∀ function parameters, Forall P parameters → P (Call function parameters)) →
  (∀ a b, P a → P b → P (Sum a b)) →
  ∀ e, P e.
Proof.
  intros HVar HCall HSum. fix IH 1. intros [name|function parameters|a b].
  - apply HVar.
  - apply HCall. induction parameters as [|p parameters IHp]; constructor.
    + apply IH.
    + apply IHp.
  - apply HSum; apply IH.
Qed.

(** An expression evaluates alike in two memories that agree on the
    variables it reads and on the arrays these point to. *)
Lemma eval_frame (fn : function_registry) (m m' : memory) (e : expression) :
  (∀ name, name ∈ reads e → pointers m' !! name = pointers m !! name) →
  (∀ name l, name ∈ reads e → pointers m !! name = Some l →
             heap m' !! l = heap m !! l) →
  eval fn m' e = eval fn m e.
Proof.
  induction e as [name|function parameters IH|a b IHa IHb]
    using expression_induction; intros Hp Hh.
  - simpl. rewrite Hp by set_solver.
    destruct (pointers m !! name) as [l|] eqn:Hl; [simpl|done].
    by rewrite (Hh name l) by set_solver.
  - simpl.
    assert (mapM (eval fn m') parameters = mapM (eval fn m) parameters) as ->;
      [|done].
    simpl in Hp, Hh.
    induction IH as [|p parameters Hhead _ IHtail]; [done|].
    rewrite fmap_cons, union_list_cons in Hp, Hh.
    simpl. rewrite Hhead, IHtail; [done| | | |].
    + intros name Hn. apply Hp. set_solver.
    + intros name l Hn. apply Hh. set_solver.
    + intros name Hn. apply Hp. set_solver.
    + intros name l Hn. apply Hh. set_solver.
  - simpl. rewrite IHa, IHb; [done| | | |].
    + intros name Hn. apply Hp. set_solver.
    + intros name l Hn. apply Hh. set_solver.
    + intros name Hn. apply Hp. set_solver.
    + intros name l Hn. apply Hh. set_solver.
Qed.

(** Storing the elements one by one into an array that the right-hand side
    does not read gives the value the right-hand side had before. *)
Lemma assign_elements_unread (fn : function_registry) (rhs : expression)
    (target : nat) (values : list Z) (m : memory) :
  (∀ name, name ∈ reads rhs → pointers m !! name ≠ Some target) →
  eval fn m rhs = Some values →
  ∀ (count i : nat) (array : list Z),
    length array = length values → i + count = length values →
    assign_elements fn rhs target i count
      (with_heap m (<[target := Array array]> (heap m)))
    = Some (with_heap m
              (<[target := Array (take i array ++ drop i values)]> (heap m))).
Proof.
  intros Hunread Heval. induction count as [|count IH]; intros i array Hlen Hi.
  - simpl. rewrite take_ge, drop_ge by lia. by rewrite app_nil_r.
  - cbn [assign_elements].
    rewrite (eval_frame fn m); [rewrite Heval|done|]; last first.
    { intros name l Hn Hl. simpl. apply lookup_insert_ne.
      intros <-. by apply (Hunread name). }
    simpl.
    destruct (lookup_lt_is_Some_2 values i) as [v Hv]; [lia|].
    rewrite Hv. simpl. rewrite lookup_insert_eq.
    unfold with_heap at 1. simpl. rewrite insert_insert_eq.
    change {| pointers := pointers m;
              heap := <[target := Array (<[i := v]> array)]> (heap m);
              next_location := next_location m; freed := freed m;
              leap_ierr := leap_ierr m |}
      with (with_heap m (<[target := Array (<[i := v]> array)]> (heap m))).
    rewrite IH by (rewrite ?length_insert; lia).
    do 4 f_equal.
    rewrite (take_S_r _ _ v) by (apply list_lookup_insert_eq; lia).
    rewrite take_insert_ge by lia.
    rewrite (drop_S values v i Hv). by rewrite <- app_assoc.
Qed.

(** The code [emit_assign_expr] emits when the expression reads the
    assignee. *)
Lemma emit_assign_expr_reading_assignee (self : generator) (a : string)
    (e : expression) (component_id : string) (ty : FortranType) :
  sym_kind_table self (current_function self) a = ODEComponent component_id →
  ode_component_type_map self !! component_id = Some ty →
  (∀ name, e ≠ Var name) → var_in a (dependencies e) = true →
  emit_assign_expr self a e
  = Some
      ([ RefcntDecl (make_unique_fortran_name (names self) ("tmp_" +:+ a));
         PointerDecl (base_type ty) (length (dimension ty))
           (make_unique_fortran_name (names self) ("tmp_" +:+ a)) ],
       [ AllocateArray (make_unique_fortran_name (names self) ("tmp_" +:+ a))
           (dimension ty);
         If IerrNe0
           [ Write ("failed to allocate "
                    +:+ make_unique_fortran_name (names self) ("tmp_" +:+ a));
             Stop ] [];
         Assign (make_unique_fortran_name (names self) ("tmp_" +:+ a))
           (expr self e);
         Blank;
         If (RefcntEq1 (name_refcount (names self) a))
           [ Deallocate (fortran_name (names self) a);
             PointTo (fortran_name (names self) a)
               (make_unique_fortran_name (names self) ("tmp_" +:+ a)) ]
           [ Decrement (name_refcount (names self) a);
             PointTo (fortran_name (names self) a)
               (make_unique_fortran_name (names self) ("tmp_" +:+ a));
             AllocateRefcnt (name_refcount (names self) a);
             If IerrNe0
               [ Write ("failed to allocate "
                        +:+ name_refcount (names self) a);
                 Stop ] [];
             SetOne (name_refcount (names self) a) ] ]).
Proof.
  intros Hkind Hty Hnovar Hdep. unfold emit_assign_expr. rewrite Hkind.
  destruct e as [name| |]; [by destruct (Hnovar name)| |];
    rewrite Hdep; cbn [negb];
    unfold emit_variable_decl, emit_allocation; rewrite Hty; reflexivity.
Qed.

(** C2, as the code has it: an assignment to an ODE component whose
    expression holds the assignee as a variable, outside the arguments of
    a call (what [DependencyMapper] reports), allocates a temporary array,
    stores the
    value of the expression there (the value it has in the memory before
    the assignment, whatever the order in which the elements are stored),
    and points the assignee at the temporary. When the old array was
    uniquely owned it is deallocated and its reference count, still 1, is
    kept; otherwise the old count is decremented and a new count, set to 1,
    is allocated. The old array is never written or reused. *)
Theorem self_assignment_goes_through_temporary (fn : function_registry)
    (self : generator) (a : string) (e : expression) (component_id : string)
    (ty : FortranType) (m : memory) (la ra : nat) (old values : list Z)
    (k : Z) :
  sym_kind_table self (current_function self) a = ODEComponent component_id →
  ode_component_type_map self !! component_id = Some ty →
  (∀ name, e ≠ Var name) → var_in a (dependencies e) = true →
  make_unique_fortran_name (names self) ("tmp_" +:+ a)
    ≠ fortran_name (names self) a →
  make_unique_fortran_name (names self) ("tmp_" +:+ a)
    ≠ name_refcount (names self) a →
  fortran_name (names self) a ≠ name_refcount (names self) a →
  make_unique_fortran_name (names self) ("tmp_" +:+ a) ∉ reads (expr self e) →
  allocated_below m →
  pointers m !! fortran_name (names self) a = Some la →
  heap m !! la = Some (Array old) →
  pointers m !! name_refcount (names self) a = Some ra →
  heap m !! ra = Some (Counter k) →
  eval fn m (expr self e) = Some values →
  length values = foldr Nat.mul 1 (dimension ty) →
  ∃ decls code m',
    emit_assign_expr self a e = Some (decls, code)
    ∧ exec fn code m = Some m'
    ∧ pointers m' !! fortran_name (names self) a = Some (next_location m)
    ∧ heap m' !! next_location m = Some (Array values)
    ∧ (k = 1%Z →
       heap m' !! la = None ∧ freed m' = freed m ++ [la]
       ∧ pointers m' !! name_refcount (names self) a = Some ra
       ∧ heap m' !! ra = Some (Counter 1)
       ∧ next_location m' = S (next_location m))
    ∧ (k ≠ 1%Z →
       heap m' !! la = Some (Array old) ∧ freed m' = freed m
       ∧ heap m' !! ra = Some (Counter (k - 1))
       ∧ pointers m' !! name_refcount (names self) a
         = Some (S (next_location m))
       ∧ heap m' !! S (next_location m) = Some (Counter 1)).
Proof.
  intros Hkind Hty Hnovar Hdep HTA HTR HAR Hfresh Hbelow HA Hla HRA Hra
    Heval Hlen.
  set (nm := names self) in *.
  set (T := make_unique_fortran_name nm ("tmp_" +:+ a)) in *.
  rewrite (emit_assign_expr_reading_assignee self a e component_id ty)
    by done.
  fold nm. fold T. do 2 eexists. apply ex_and_l; [reflexivity|].
  assert (Hla_lt : la < next_location m) by (by eapply Hbelow).
  assert (Hra_lt : ra < next_location m) by (by eapply Hbelow).
  set (zeros := replicate (foldr Nat.mul 1 (dimension ty)) 0%Z).
  set (m1 := allocate T (Array zeros) m).
  assert (Heval1 : eval fn m1 (expr self e) = Some values).
  { rewrite <- Heval. apply eval_frame.
    - intros name Hn. unfold m1. simpl. apply lookup_insert_ne.
      intros <-. by apply Hfresh.
    - intros name l Hn Hl. unfold m1. simpl. apply lookup_insert_ne.
      apply Hbelow in Hl. lia. }
  assert (Hassign :
    assign_elements fn (expr self e) (next_location m) 0 (length zeros) m1
    = Some (with_heap m1 (<[next_location m := Array values]> (heap m1)))).
  { replace m1 with (with_heap m1 (<[next_location m := Array zeros]> (heap m1)))
      at 1.
    2:{ unfold m1, with_heap, allocate. simpl. by rewrite insert_insert_eq. }
    rewrite (assign_elements_unread fn (expr self e) (next_location m)
               values m1).
    - by rewrite take_0.
    - intros name Hn Hl. unfold m1 in Hl. simpl in Hl.
      rewrite lookup_insert_ne in Hl by (intros <-; by apply Hfresh).
      apply Hbelow in Hl. lia.
    - done.
    - unfold zeros. by rewrite length_replicate.
    - unfold zeros. rewrite length_replicate. lia. }
  rewrite exec_cons. cbn [exec_stmt]. fold zeros. fold m1.
  rewrite exec_cons, exec_stmt_If. cbn [test].
  replace (leap_ierr m1) with 0%Z by reflexivity.
  rewrite bool_decide_eq_false_2 by (intros Hc; by apply Hc).
  rewrite exec_nil. cbv beta iota. rewrite exec_cons. cbn [exec_stmt].
  replace (pointers m1 !! T) with (Some (next_location m))
    by (unfold m1; simpl; by rewrite lookup_insert_eq).
  cbn [mbind option_bind].
  replace (heap m1 !! next_location m) with (Some (Array zeros))
    by (unfold m1; simpl; by rewrite lookup_insert_eq).
  rewrite Hassign.
  set (m2 := with_heap m1 (<[next_location m := Array values]> (heap m1))).
  rewrite exec_cons. cbn [exec_stmt].
  rewrite exec_cons, exec_stmt_If. cbn [test].
  assert (HRA2 : pointers m2 !! name_refcount nm a = Some ra).
  { unfold m2, m1. simpl. by rewrite lookup_insert_ne. }
  assert (Hra2 : heap m2 !! ra = Some (Counter k)).
  { unfold m2, m1. simpl. rewrite !lookup_insert_ne by lia. done. }
  assert (HA2 : pointers m2 !! fortran_name nm a = Some la).
  { unfold m2, m1. simpl. by rewrite lookup_insert_ne. }
  assert (Hla2 : heap m2 !! la = Some (Array old)).
  { unfold m2, m1. simpl. rewrite !lookup_insert_ne by lia. done. }
  assert (HT2 : pointers m2 !! T = Some (next_location m)).
  { unfold m2, m1. simpl. by rewrite lookup_insert_eq. }
  assert (Hnew2 : heap m2 !! next_location m = Some (Array values)).
  { unfold m2. simpl. by rewrite lookup_insert_eq. }
  assert (Hlra : la ≠ ra) by (intros ->; congruence).
  rewrite HRA2. cbn [mbind option_bind]. rewrite Hra2.
  destruct (decide (k = 1%Z)) as [Hk|Hk];
    [rewrite (bool_decide_eq_true_2 _ Hk)
    |rewrite (bool_decide_eq_false_2 _ Hk)].
  - (* uniquely owned *)
    rewrite exec_cons. cbn [exec_stmt]. rewrite HA2.
    cbn [mbind option_bind]. rewrite Hla2.
    cbn [mbind option_bind]. rewrite exec_cons.
    cbn [exec_stmt with_pointers pointers].
    rewrite lookup_delete_ne by done. rewrite HT2. rewrite !exec_nil.
    eexists. split; [reflexivity|]. subst k. unfold m2, m1. simpl.
    assert (HRT : name_refcount nm a ≠ T) by done.
    split_and!; [lookup_solve|lookup_solve| |done].
    intros _. split_and!; lookup_solve.
  - (* shared *)
    rewrite exec_cons. cbn [exec_stmt]. unfold update_counter at 1.
    rewrite HRA2. cbn [mbind option_bind]. rewrite Hra2.
    rewrite exec_cons. cbn [exec_stmt with_pointers with_heap pointers heap].
    rewrite HT2.
    rewrite exec_cons. cbn [exec_stmt allocate pointers heap next_location].
    rewrite exec_cons, exec_stmt_If. cbn [test leap_ierr].
    rewrite bool_decide_eq_false_2 by (intros Hc; by apply Hc).
    rewrite exec_nil. cbv beta iota. rewrite exec_cons.
    cbn [exec_stmt]. unfold update_counter. simpl.
    rewrite lookup_insert_eq. simpl. rewrite lookup_insert_eq.
    eexists. split; [reflexivity|]. simpl.
    split_and!; [lookup_solve|lookup_solve|done|].
    intros _. split_and!; lookup_solve.
Qed.

Lemma example_memory_allocated_below : allocated_below example_memory.
Proof.
  assert (map_Forall (fun _ l => l < 4) (pointers example_memory)) as Hall
    by by_evaluation.
  intros name l Hl. by apply (Hall name l).
Qed.

Lemma self_assignment_goes_through_temporary_witness :
  ∃ decls code m',
    emit_assign_expr example_generator "a"
      (Sum (Var "a") (Call "reverse" [Var "a"]))
    = Some (decls, code)
    ∧ exec example_functions code example_memory = Some m'
    ∧ pointers m' !! "a" = Some 4
    ∧ heap m' !! 4 = Some (Array [4; 4; 4]%Z).
Proof.
  destruct (self_assignment_goes_through_temporary example_functions
              example_generator "a"
              (Sum (Var "a") (Call "reverse" [Var "a"])) "y"
              {| base_type := "real (kind=8)"; dimension := [3] |}
              example_memory 0 1 [1; 2; 3]%Z [4; 4; 4]%Z 1)
    as (decls & code & m' & Hemit & Hexec & Hptr & Hnew & _);
    try apply example_memory_allocated_below;
    try reflexivity; try by_evaluation; try done.
  by exists decls, code, m'.
Defined.

(** C2 as stated fails: the array of [a] (at location 0, owned by [a]
    alone) is not reused. A new array is allocated (location 4), [a] is
    pointed at it, and the old array is deallocated. *)
Lemma unique_buffer_is_not_reused :
  pointers example_memory !! "a" = Some 0
  ∧ (pointers example_memory !! "leap_refcnt_a" ≫= (heap example_memory !!.))
    = Some (Counter 1)
  ∧ ∃ decls code m',
      emit_assign_expr example_generator "a"
        (Sum (Var "a") (Call "reverse" [Var "a"]))
      = Some (decls, code)
      ∧ exec example_functions code example_memory = Some m'
      ∧ pointers m' !! "a" = Some 4
      ∧ heap m' !! 0 = None
      ∧ freed m' = [0]
      ∧ next_location m' = S (next_location example_memory).
Proof.
  split; [reflexivity|]. split; [reflexivity|].
  destruct (emit_assign_expr example_generator "a"
              (Sum (Var "a") (Call "reverse" [Var "a"])))
    as [[decls code]|] eqn:Hemit; [|by vm_compute in Hemit].
  destruct (exec example_functions code example_memory) as [m'|] eqn:Hexec;
    vm_compute in Hemit; injection Hemit as <- <-;
    vm_compute in Hexec; [|discriminate Hexec].
  injection Hexec as <-. do 3 eexists. split_and!; reflexivity.
Qed.

(** Without the temporary the elements stored first would be read again:
    adding its reverse to [1; 2; 3] in place gives [4; 4; 7]. *)
Lemma assignment_in_place_reads_stored_elements :
  (exec example_functions
     [Assign "a" (Sum (Var "a") (Call "reverse" [Var "a"]))]
     example_memory ≫= fun m => heap m !! 0)
  = Some (Array [4; 4; 7]%Z).
Proof. reflexivity. Qed.

(** *** Undeclared component types *)

(** C7: when the ODE components the program refers to are not all in the
    component-type map, [__call__] raises: no code is returned, the lines
    emitted so far (the [module] line of [__init__]) are unchanged, so
    nothing has been emitted for any state; and once the passes before the
    check have gone through, what is raised is the [RuntimeError] that
    names exactly the components without a type. When all components have a
    type, that error is not raised. *)
Theorem undeclared_components_are_rejected {descriptor table : Type}
    (p : passes descriptor table) (type_map : gmap string FortranType)
    (emitted : list string) (dag : NumpyInterpreter.program)
    (optimize : bool) :
  (¬ collect_ode_component_names_from_dag p dag ⊆ dom type_map →
     (call p type_map emitted dag optimize).2 = emitted
     ∧ (∀ lines, (call p type_map emitted dag optimize).1 ≠ Code lines)
     ∧ (∀ fdescrs,
          is_Some (verify_code p dag) →
          describe_functions p dag optimize
            (map_to_list (NumpyInterpreter.states dag)) = Some fdescrs →
          is_Some (find_symbol_kinds p fdescrs) →
          (call p type_map emitted dag optimize).1
          = RuntimeError
              (collect_ode_component_names_from_dag p dag ∖ dom type_map))
     ∧ (∀ component_id,
          component_id
            ∈ collect_ode_component_names_from_dag p dag ∖ dom type_map
          ↔ component_id ∈ collect_ode_component_names_from_dag p dag
            ∧ type_map !! component_id = None)
     ∧ collect_ode_component_names_from_dag p dag ∖ dom type_map ≠ ∅)
  ∧ (collect_ode_component_names_from_dag p dag ⊆ dom type_map →
     ∀ undeclared,
       (call p type_map emitted dag optimize).1 ≠ RuntimeError undeclared).
Proof.
  unfold call. split.
  - intros Hmissing. split_and!.
    + destruct (verify_code p dag); [|done].
      destruct (describe_functions _ _ _ _); [|done].
      destruct (find_symbol_kinds p _); [|done].
      by rewrite decide_False.
    + intros lines.
      destruct (verify_code p dag); [|done].
      destruct (describe_functions _ _ _ _); [|done].
      destruct (find_symbol_kinds p _); [|done].
      by rewrite decide_False.
    + intros fdescrs [[] ->] -> [sym_kind_table ->].
      by rewrite decide_False.
    + intros component_id. rewrite elem_of_difference, elem_of_dom.
      rewrite <- eq_None_not_Some. done.
    + intros Hempty. apply Hmissing. intros component_id Hin.
      destruct (decide (component_id ∈ dom type_map)) as [|Hnot]; [done|].
      exfalso. apply (not_elem_of_empty (C := gset string) component_id).
      rewrite <- Hempty. by apply elem_of_difference.
  - intros Hall undeclared.
    destruct (verify_code p dag); [|done].
    destruct (describe_functions _ _ _ _); [|done].
    destruct (find_symbol_kinds p _); [|done].
    by rewrite decide_True.
Qed.

Lemma undeclared_components_are_rejected_witness :
  call example_passes (ode_component_type_map example_generator)
    ["module leap"] NumpyInterpreter.counting_program true
  = (RuntimeError {[ "z" ]}, ["module leap"]).
Proof.
  destruct (undeclared_components_are_rejected example_passes
              (ode_component_type_map example_generator) ["module leap"]
              NumpyInterpreter.counting_program true)
    as [Hmissing _].
  destruct Hmissing as (Hlines & _ & Herror & _).
  { by_evaluation. }
  destruct (call example_passes (ode_component_type_map example_generator)
              ["module leap"] NumpyInterpreter.counting_program true)
    as [result lines].
  simpl in Hlines, Herror. subst lines.
  rewrite (Herror ["init"; "primary"]);
    [|by eexists|reflexivity|by eexists].
  reflexivity.
Defined.

End FortranCodeGeneratorFacts.
